(** * SpaceTraders fleet engine: a shallow embedding and its verified properties

    The development follows the Python sources module by module:

    - [PyFloat]     binary64 arithmetic as CPython performs it (on [SpecFloat]);
    - [Router]      [missions/router.py]: distances, fuel cost, travel time and
                    the multi-hop refuelling planner;
    - [Trader]      [missions/trader.py]: the safe sell volume;
    - [Strategy]    [fleet/strategy.py]: the fleet plan and its evaluation;
    - [Commander]   [fleet/commander.py] and [fleet/ship_agent.py]: the crash
                    handler and the relaunch of an agent;
    - [Client]      [client.py]: the retrying request primitive;
    - [Contractor]  [missions/contractor.py]: the profitability check.

    Python exceptions are modelled by [None] in the option monad; Python
    integers are [Z]; Python floats are IEEE 754 binary64 values of
    [spec_float]; dictionaries are [gmap]s and sets are [gset]s. *)

From Stdlib Require Import ZArith Lia Bool Ascii String.
From Stdlib Require Import Floats.SpecFloat.
From stdpp Require Import gmap strings list fin_maps sorting pretty.

#[local] Set Warnings "-clear-no-such-hyp".

(* ===================================================================== *)
(** ** Python floats *)
(* ===================================================================== *)

Module PyFloat.
Local Open Scope Z_scope.

Definition prec : Z := 53.
Definition emax : Z := 1024.

(** The signed integer mantissa of a finite float. *)
Definition signed (s : bool) (m : positive) : Z :=
  if s then Z.neg m else Z.pos m.

(** [float(n)] for a Python integer: rounded to nearest, ties to even;
    [OverflowError] when the integer is too large. *)
Definition of_int (n : Z) : option spec_float :=
  match binary_normalize prec emax n 0 false with
  | S754_infinity _ => None
  | f => Some f
  end.

Definition mul (x y : spec_float) : spec_float := SFmul prec emax x y.
Definition add (x y : spec_float) : spec_float := SFadd prec emax x y.

(** [x / y]: [ZeroDivisionError] when the divisor is a zero. *)
Definition div (x y : spec_float) : option spec_float :=
  match y with
  | S754_zero _ => None
  | _ => Some (SFdiv prec emax x y)
  end.

(** [math.sqrt]: [ValueError] on negative arguments. *)
Definition sqrt (x : spec_float) : option spec_float :=
  match x with
  | S754_finite true _ _ | S754_infinity true => None
  | _ => Some (SFsqrt prec emax x)
  end.

(** [math.ceil]: [OverflowError] on infinities, [ValueError] on NaN. *)
Definition ceil (x : spec_float) : option Z :=
  match x with
  | S754_zero _ => Some 0
  | S754_finite s m e =>
      Some (if 0 <=? e then signed s m * 2 ^ e
            else - ((- signed s m) / 2 ^ (- e)))
  | _ => None
  end.

(** [int(x)]: truncation toward zero. *)
Definition trunc (x : spec_float) : option Z :=
  match x with
  | S754_zero _ => Some 0
  | S754_finite s m e =>
      Some (if 0 <=? e then signed s m * 2 ^ e
            else Z.quot (signed s m) (2 ^ (- e)))
  | _ => None
  end.

(** [round(x)]: to the nearest integer, ties to even. *)
Definition round (x : spec_float) : option Z :=
  match x with
  | S754_zero _ => Some 0
  | S754_finite s m e =>
      if 0 <=? e then Some (signed s m * 2 ^ e)
      else
        let q := Z.pos m / 2 ^ (- e) in
        let r := Z.pos m mod 2 ^ (- e) in
        let h := 2 ^ (- e - 1) in
        let a := if r <? h then q
                 else if h <? r then q + 1
                 else if Z.even q then q else q + 1 in
        Some (if s then - a else a)
  | _ => None
  end.

(** [x < y]: false whenever a NaN is involved. *)
Definition ltb (x y : spec_float) : bool := SFltb x y.

(** Literals of the sources. *)
Definition lit (m e : Z) : spec_float := binary_normalize prec emax m e false.

Definition f1_0 : spec_float := Eval vm_compute in lit 1 0.
Definition f2_0 : spec_float := Eval vm_compute in lit 2 0.
Definition f3_0 : spec_float := Eval vm_compute in lit 3 0.
Definition f4_0 : spec_float := Eval vm_compute in lit 4 0.
Definition f5_0 : spec_float := Eval vm_compute in lit 5 0.
Definition f6_0 : spec_float := Eval vm_compute in lit 6 0.
Definition f12_5 : spec_float := Eval vm_compute in lit 25 (-1).
Definition f25_0 : spec_float := Eval vm_compute in lit 25 0.
Definition f250_0 : spec_float := Eval vm_compute in lit 250 0.

(** [a / b] on Python integers: the quotient of the two integers, rounded
    once; [ZeroDivisionError] on a zero divisor, [OverflowError] when the
    quotient is too large for a float. *)
Definition truediv (a b : Z) : option spec_float :=
  if b =? 0 then None
  else
    let s := xorb (a <? 0) (b <? 0) in
    if a =? 0 then Some (S754_zero s)
    else
      let '(q, e, l) :=
        SFdiv_core_binary prec emax (Z.abs a) 0 (Z.abs b) 0 in
      match binary_round_aux prec emax s q e l with
      | S754_infinity _ => None
      | f => Some f
      end.

End PyFloat.

(* ===================================================================== *)
(** ** missions/router.py *)
(* ===================================================================== *)

Module Router.
Local Open Scope Z_scope.

Record RouteSegment := {
  seg_origin : string;
  seg_destination : string;
  seg_distance : spec_float;
  seg_flight_mode : string;
  seg_fuel_cost : Z;
  seg_travel_seconds : Z;
}.

Record RoutePlan := {
  segments : list RouteSegment;
  total_fuel : Z;
  total_seconds : Z;
  feasible : bool;
  reason : string;
}.

(** [num_stops]: intermediate refuelling stops, 0 for direct routes. *)
Definition num_stops (p : RoutePlan) : Z :=
  if negb (feasible p) || bool_decide (segments p = []) then 0
  else Z.of_nat (length (segments p)) - 1.

Definition distance (x1 y1 x2 y2 : Z) : option spec_float :=
  n ← PyFloat.of_int ((x2 - x1) ^ 2 + (y2 - y1) ^ 2);
  PyFloat.sqrt n.

Definition fuel_cost (dist : spec_float) (mode : string) : option Z :=
  c ← PyFloat.ceil dist;
  let d := Z.max 1 c in
  if String.eqb mode "DRIFT" then Some 1
  else if String.eqb mode "BURN" then Some (d * 2)
  else Some d.

Definition travel_time (dist : spec_float) (speed : Z) (mode : string)
  : option Z :=
  let multiplier :=
    if String.eqb mode "DRIFT" then PyFloat.f250_0
    else if String.eqb mode "BURN" then PyFloat.f12_5
    else PyFloat.f25_0 in
  s ← PyFloat.of_int (Z.max speed 1);
  q ← PyFloat.div (PyFloat.mul dist multiplier) s;
  base ← PyFloat.of_int 15;
  PyFloat.round (PyFloat.add base q).

Definition plan_segment (origin_x origin_y dest_x dest_y : Z)
    (origin_symbol dest_symbol : string) (speed : Z) (mode : string)
  : option RouteSegment :=
  dist ← distance origin_x origin_y dest_x dest_y;
  fc ← fuel_cost dist mode;
  tt ← travel_time dist speed mode;
  Some {| seg_origin := origin_symbol;
          seg_destination := dest_symbol;
          seg_distance := dist;
          seg_flight_mode := mode;
          seg_fuel_cost := fc;
          seg_travel_seconds := tt |}.

Definition REFUEL_STOP_OVERHEAD : Z := 30.

Definition infeasible (why : string) : RoutePlan :=
  {| segments := []; total_fuel := 0; total_seconds := 0;
     feasible := false; reason := why |}.

Definition sum_fuel (segs : list RouteSegment) : Z :=
  foldr (λ s acc, seg_fuel_cost s + acc) 0 segs.

Definition sum_seconds (segs : list RouteSegment) : Z :=
  foldr (λ s acc, seg_travel_seconds s + acc) 0 segs.

Section Multihop.
(** [fuel_waypoints] lists the elements of the Python set in the order
    in which the set is iterated. *)
Variable coords : gmap string (Z * Z).
Variable fuel_waypoints : list string.
Variable destination : string.
Variable fuel_capacity : Z.
Variable speed : Z.
Variable mode : string.

(** The inner [for wp_sym in fuel_waypoints] loop, from the position
    [(cx, cy)], threading [best_wp] and [best_remaining_dist]. *)
Fixpoint scan_fuel_waypoints (visited : gset string) (cx cy dest_x dest_y : Z)
    (wps : list string) (best_wp : option string)
    (best_remaining_dist : spec_float)
  : option (option string * spec_float) :=
  match wps with
  | [] => Some (best_wp, best_remaining_dist)
  | wp_sym :: rest =>
      if bool_decide (wp_sym ∈ visited) then
        scan_fuel_waypoints visited cx cy dest_x dest_y rest
          best_wp best_remaining_dist
      else
        match coords !! wp_sym with
        | None =>
            scan_fuel_waypoints visited cx cy dest_x dest_y rest
              best_wp best_remaining_dist
        | Some (wx, wy) =>
            dist_to_wp ← distance cx cy wx wy;
            cost ← fuel_cost dist_to_wp mode;
            if fuel_capacity <? cost then
              scan_fuel_waypoints visited cx cy dest_x dest_y rest
                best_wp best_remaining_dist
            else
              remaining ← distance wx wy dest_x dest_y;
              if PyFloat.ltb remaining best_remaining_dist then
                scan_fuel_waypoints visited cx cy dest_x dest_y rest
                  (Some wp_sym) remaining
              else
                scan_fuel_waypoints visited cx cy dest_x dest_y rest
                  best_wp best_remaining_dist
        end
  end.

(** The outer [for _ in range(max_hops)] loop; [hops] counts the
    iterations that are left. *)
Fixpoint hop_loop (max_hops : nat) (dest_x dest_y : Z) (hops : nat)
    (current : string) (segs : list RouteSegment) (visited : gset string)
  : option RoutePlan :=
  match hops with
  | O =>
      Some (infeasible ("Exceeded max hops (" +:+ pretty max_hops
                        +:+ ") — route infeasible"))
  | S hops' =>
      '(cx, cy) ← coords !! current;
      dist_to_dest ← distance cx cy dest_x dest_y;
      cost ← fuel_cost dist_to_dest mode;
      if cost <=? fuel_capacity then
        seg ← plan_segment cx cy dest_x dest_y current destination speed mode;
        let segs := segs ++ [seg] in
        Some {| segments := segs;
                total_fuel := sum_fuel segs;
                total_seconds :=
                  sum_seconds segs
                  + (Z.of_nat (length segs) - 1) * REFUEL_STOP_OVERHEAD;
                feasible := true;
                reason := "" |}
      else
        '(best_wp, _) ← scan_fuel_waypoints visited cx cy dest_x dest_y
                          fuel_waypoints None dist_to_dest;
        match best_wp with
        | None =>
            Some (infeasible
                    ("No reachable fuel waypoint makes progress from "
                     +:+ current +:+ " toward " +:+ destination))
        | Some w =>
            '(wx, wy) ← coords !! w;
            seg ← plan_segment cx cy wx wy current w speed mode;
            hop_loop max_hops dest_x dest_y hops' w (segs ++ [seg])
              ({[w]} ∪ visited)
        end
  end.

Definition plan_multihop (origin : string) : option RoutePlan :=
  if bool_decide (origin = destination) then
    Some {| segments := []; total_fuel := 0; total_seconds := 0;
            feasible := true; reason := "" |}
  else
    match coords !! origin, coords !! destination with
    | Some _, Some (dest_x, dest_y) =>
        let max_hops := S (length fuel_waypoints) in
        hop_loop max_hops dest_x dest_y max_hops origin [] {[origin]}
    | _, _ =>
        Some (infeasible ("Unknown coordinates for " +:+ origin
                          +:+ " or " +:+ destination))
    end.
End Multihop.

(** [FUEL_RESERVE_FRACTION = 0.20]: the binary64 number nearest to 1/5. *)
Definition FUEL_RESERVE_FRACTION : spec_float :=
  Eval vm_compute in PyFloat.lit 3602879701896397 (-54).

(** The fields of [models.Ship] that the router reads: [fuel.current],
    [fuel.capacity] and [engine.speed]. *)
Record Ship := {
  ship_fuel_current : Z;
  ship_fuel_capacity : Z;
  ship_engine_speed : Z;
}.

(** The fields of [models.Waypoint] that the router reads; of a trait, its
    symbol. *)
Record Waypoint := {
  wp_symbol : string;
  wp_x : Z;
  wp_y : Z;
  wp_traits : list string;
}.

Definition waypoint_distance (a b : Waypoint) : option spec_float :=
  distance (wp_x a) (wp_y a) (wp_x b) (wp_y b).

Definition usable_fuel (ship : Ship) : option Z :=
  c ← PyFloat.of_int (ship_fuel_capacity ship);
  reserve ← PyFloat.ceil (PyFloat.mul c FUEL_RESERVE_FRACTION);
  Some (Z.max 0 (ship_fuel_current ship - reserve)).

Definition can_reach (ship : Ship) (dist : spec_float) (mode : string)
  : option bool :=
  cost ← fuel_cost dist mode;
  available ← usable_fuel ship;
  Some (cost <=? available).

(** The tail of [plan_round_trip], once the mode of the return leg is
    chosen. *)
Definition finish_round_trip (available speed : Z) (leg1 : RouteSegment)
    (target_wp return_wp : Waypoint) (mode_back : string)
  : option RoutePlan :=
  leg2 ← plan_segment (wp_x target_wp) (wp_y target_wp)
            (wp_x return_wp) (wp_y return_wp)
            (wp_symbol target_wp) (wp_symbol return_wp) speed mode_back;
  let total_fuel := seg_fuel_cost leg1 + seg_fuel_cost leg2 in
  if available <? total_fuel then
    Some {| segments := []; total_fuel := total_fuel; total_seconds := 0;
            feasible := false;
            reason := "Total fuel " +:+ pretty total_fuel
                      +:+ " exceeds available " +:+ pretty available
                      +:+ " (with 20% reserve)." |}
  else
    Some {| segments := [leg1; leg2]; total_fuel := total_fuel;
            total_seconds := seg_travel_seconds leg1 + seg_travel_seconds leg2;
            feasible := true; reason := "" |}.

Definition plan_round_trip (ship : Ship) (ship_wp target_wp return_wp : Waypoint)
    (prefer_drift : bool) : option RoutePlan :=
  let speed := ship_engine_speed ship in
  available ← usable_fuel ship;
  dist_out ← waypoint_distance ship_wp target_wp;
  mode_out ← (if prefer_drift then Some "DRIFT"
              else
                c ← fuel_cost dist_out "CRUISE";
                Some (if available <? c then "DRIFT" else "CRUISE"));
  leg1 ← plan_segment (wp_x ship_wp) (wp_y ship_wp)
            (wp_x target_wp) (wp_y target_wp)
            (wp_symbol ship_wp) (wp_symbol target_wp) speed mode_out;
  let fuel_after_leg1 := available - seg_fuel_cost leg1 in
  dist_back ← waypoint_distance target_wp return_wp;
  cost_cruise_back ← fuel_cost dist_back "CRUISE";
  cost_drift_back ← fuel_cost dist_back "DRIFT";
  if negb prefer_drift && (cost_cruise_back <=? fuel_after_leg1) then
    finish_round_trip available speed leg1 target_wp return_wp "CRUISE"
  else if cost_drift_back <=? fuel_after_leg1 then
    finish_round_trip available speed leg1 target_wp return_wp "DRIFT"
  else
    Some (infeasible
            ("Insufficient fuel for return. Need " +:+ pretty cost_drift_back
             +:+ " (DRIFT), have " +:+ pretty fuel_after_leg1
             +:+ " after outbound.")).

Definition best_flight_mode (ship : Ship) (dist : spec_float)
  : option string :=
  available ← usable_fuel ship;
  c ← fuel_cost dist "CRUISE";
  if c <=? available then Some "CRUISE"
  else
    d ← fuel_cost dist "DRIFT";
    if d <=? available then Some "DRIFT" else Some "DRIFT".

End Router.

(* ===================================================================== *)
(** ** missions/trader.py *)
(* ===================================================================== *)

Module Trader.
Local Open Scope Z_scope.

(** [_SUPPLY_MULTIPLIER.get(dest_supply, 3.0)] *)
Definition supply_multiplier (dest_supply : string) : spec_float :=
  if String.eqb dest_supply "SCARCE" then PyFloat.f2_0
  else if String.eqb dest_supply "LIMITED" then PyFloat.f3_0
  else if String.eqb dest_supply "MODERATE" then PyFloat.f4_0
  else if String.eqb dest_supply "HIGH" then PyFloat.f5_0
  else if String.eqb dest_supply "ABUNDANT" then PyFloat.f6_0
  else PyFloat.f3_0.

(** [dest_activity] is [str | None]. *)
Definition safe_sell_volume (dest_supply : string)
    (dest_activity : option string) (trade_volume cargo_capacity : Z)
  : option Z :=
  let multiplier := supply_multiplier dest_supply in
  let multiplier :=
    if bool_decide (dest_activity = Some "STRONG")
    then PyFloat.add multiplier PyFloat.f1_0 else multiplier in
  v ← PyFloat.of_int trade_volume;
  n ← PyFloat.trunc (PyFloat.mul v multiplier);
  Some (Z.min n cargo_capacity).

Definition default_cargo_capacity : Z := 40.

(** [_distance]: the outer [None] stands for an uncaught error, the inner
    one is the [None] returned for an unknown waypoint. *)
Definition _distance (coords : gmap string (Z * Z)) (a b : string)
  : option (option spec_float) :=
  if bool_decide (a = b) then Some (Some (S754_zero false))
  else
    match coords !! a, coords !! b with
    | Some (ax, ay), Some (bx, by_) =>
        d ← Router.distance ax ay bx by_;
        Some (Some d)
    | _, _ => Some None
    end.

Definition cruise_time (dist : spec_float) (speed : Z) : option Z :=
  k ← PyFloat.of_int 25;
  s ← PyFloat.of_int speed;
  q ← PyFloat.div (PyFloat.mul dist k) s;
  base ← PyFloat.of_int 15;
  PyFloat.round (PyFloat.add base q).

Definition TRADE_OVERHEAD_SECONDS : Z := 30.

Definition estimate_fuel_round_trip (coords : gmap string (Z * Z))
    (source destination : string) : option Z :=
  dist ← _distance coords source destination;
  match dist with
  | None => Some 9999
  | Some dist =>
      one_way ← PyFloat.ceil dist;
      Some (one_way * 2)
  end.

Definition estimate_fuel_one_way (coords : gmap string (Z * Z))
    (origin destination : string) : option Z :=
  dist ← _distance coords origin destination;
  match dist with
  | None => Some 9999
  | Some dist =>
      if SFeqb dist (S754_zero false) then Some 0
      else
        c ← PyFloat.ceil dist;
        Some (Z.max 1 c)
  end.

Definition FUEL_PRICE : Z := 72.

(** The fields of a cached price record that the route finder reads. *)
Record MarketPriceRecord := {
  rec_type : string;
  rec_trade_symbol : string;
  rec_purchase_price : Z;
  rec_sell_price : Z;
  rec_trade_volume : Z;
  rec_supply : string;
  rec_activity : option string;
}.

Record TradeRoute := {
  route_good : string;
  route_source : string;
  route_destination : string;
  route_buy_price : Z;
  route_sell_price : Z;
  route_trade_volume : Z;
  route_profit_per_unit : Z;
  route_fuel_cost_credits : Z;
  route_deadhead_credits : Z;
  route_net_profit : Z;
  route_trip_seconds : Z;
  route_profit_per_minute : spec_float;
  route_dest_supply : string;
  route_dest_trade_volume : Z;
}.

(** A dictionary of lists is given by its items, in insertion order:
    [d.setdefault(key, []).append(v)] and [d.get(key, [])]. *)
Fixpoint setdefault_append {A} (key : string) (v : A)
    (d : list (string * list A)) : list (string * list A) :=
  match d with
  | [] => [(key, [v])]
  | (k, l) :: rest =>
      if String.eqb k key then (k, l ++ [v]) :: rest
      else (k, l) :: setdefault_append key v rest
  end.

Fixpoint get_list {A} (key : string) (d : list (string * list A)) : list A :=
  match d with
  | [] => []
  | (k, l) :: rest => if String.eqb k key then l else get_list key rest
  end.

(** [x or 0.0] for [x : float | None] *)
Definition or_zero (x : option spec_float) : spec_float :=
  match x with
  | Some d => if SFeqb d (S754_zero false) then S754_zero false else d
  | None => S754_zero false
  end.

(** The markets of a good: the exports and the imports, each with its
    waypoint. *)
Definition Markets : Type := list (string * list (string * MarketPriceRecord)).

(** The loop that fills [exports] and [imports] from [prices_by_wp], the
    latter given by its items. *)
Definition group_record (wp : string) (st : Markets * Markets)
    (r : MarketPriceRecord) : Markets * Markets :=
  let '(exports, imports) := st in
  if String.eqb (rec_type r) "EXPORT" then
    (setdefault_append (rec_trade_symbol r) (wp, r) exports, imports)
  else if String.eqb (rec_type r) "IMPORT" then
    (exports, setdefault_append (rec_trade_symbol r) (wp, r) imports)
  else (exports, imports).

Definition group_records
    (prices_by_wp : list (string * list MarketPriceRecord))
  : Markets * Markets :=
  foldl (λ st item, foldl (group_record item.1) st item.2) ([], [])
        prices_by_wp.

(** [routes.sort(key=lambda r: r.profit_per_minute, reverse=True)]: the
    sort is stable; the keys are never NaN. *)
Fixpoint insert_route (r : TradeRoute) (l : list TradeRoute)
  : list TradeRoute :=
  match l with
  | [] => [r]
  | y :: l' =>
      if PyFloat.ltb (route_profit_per_minute r) (route_profit_per_minute y)
      then y :: insert_route r l'
      else r :: y :: l'
  end.

Definition sort_routes (l : list TradeRoute) : list TradeRoute :=
  foldr insert_route [] l.

Section Routes.
Variable coords : gmap string (Z * Z).
Variable ship_location : string.
Variable cargo_capacity : Z.
Variable fuel_capacity : Z.
(** [excluded_routes] and [fuel_waypoints] are the elements of the two
    sets, the latter in the order in which the set is iterated. *)
Variable excluded_routes : list (string * string * string).
Variable credits : option Z.
Variable speed : Z.
Variable fuel_waypoints : option (list string).

(** A leg beyond the direct range is planned again with refuelling stops:
    the inner [None] is the [continue] of the loop, otherwise the fuel and
    the seconds of the leg. *)
Definition multihop_leg (origin dest : string) (fuel secs : Z)
  : option (option (Z * Z)) :=
  if fuel_capacity <? fuel then
    match fuel_waypoints with
    | None | Some [] => Some None
    | Some wps =>
        plan ← Router.plan_multihop coords wps dest fuel_capacity speed
                  "CRUISE" origin;
        if Router.feasible plan
        then Some (Some (Router.total_fuel plan, Router.total_seconds plan))
        else Some None
    end
  else Some (Some (fuel, secs)).

(** The body of the innermost loop: the outer [None] is an uncaught error,
    the inner one the [continue]. *)
Definition score_route (good : string) (src dst : string * MarketPriceRecord)
  : option (option TradeRoute) :=
  let '(src_wp, src_rec) := src in
  let '(dst_wp, dst_rec) := dst in
  if String.eqb src_wp dst_wp then Some None
  else if bool_decide ((good, src_wp, dst_wp) ∈ excluded_routes) then Some None
  else
    let profit_per_unit := rec_sell_price dst_rec - rec_purchase_price src_rec in
    if profit_per_unit <=? 0 then Some None
    else if match credits with
            | Some c =>
                c <? rec_purchase_price src_rec * rec_trade_volume src_rec
            | None => false
            end then Some None
    else
      deadhead_fuel ← estimate_fuel_one_way coords ship_location src_wp;
      leg_fuel ← estimate_fuel_one_way coords src_wp dst_wp;
      deadhead_dist ← _distance coords ship_location src_wp;
      let deadhead_dist := or_zero deadhead_dist in
      leg_dist ← _distance coords src_wp dst_wp;
      let leg_dist := or_zero leg_dist in
      deadhead_secs ← (if PyFloat.ltb (S754_zero false) deadhead_dist
                       then cruise_time deadhead_dist speed else Some 0);
      leg_secs ← cruise_time leg_dist speed;
      deadhead ← multihop_leg ship_location src_wp deadhead_fuel deadhead_secs;
      match deadhead with
      | None => Some None
      | Some (deadhead_fuel, deadhead_secs) =>
          leg ← multihop_leg src_wp dst_wp leg_fuel leg_secs;
          match leg with
          | None => Some None
          | Some (leg_fuel, leg_secs) =>
              let route_fuel := leg_fuel * 2 in
              let route_fuel_credits := route_fuel * FUEL_PRICE in
              let deadhead_credits := deadhead_fuel * FUEL_PRICE in
              safe_units ← safe_sell_volume (rec_supply dst_rec)
                              (rec_activity dst_rec) (rec_trade_volume dst_rec)
                              cargo_capacity;
              let gross := profit_per_unit * safe_units in
              let net := gross - route_fuel_credits - deadhead_credits in
              if net <=? 0 then Some None
              else
                let trip_secs :=
                  deadhead_secs + leg_secs + TRADE_OVERHEAD_SECONDS in
                ppm ← (if 0 <? trip_secs then
                         q ← PyFloat.truediv net trip_secs;
                         k ← PyFloat.of_int 60;
                         Some (PyFloat.mul q k)
                       else Some (S754_zero false));
                Some (Some
                  {| route_good := good;
                     route_source := src_wp;
                     route_destination := dst_wp;
                     route_buy_price := rec_purchase_price src_rec;
                     route_sell_price := rec_sell_price dst_rec;
                     route_trade_volume := rec_trade_volume src_rec;
                     route_profit_per_unit := profit_per_unit;
                     route_fuel_cost_credits := route_fuel_credits;
                     route_deadhead_credits := deadhead_credits;
                     route_net_profit := net;
                     route_trip_seconds := trip_secs;
                     route_profit_per_minute := ppm;
                     route_dest_supply := rec_supply dst_rec;
                     route_dest_trade_volume := rec_trade_volume dst_rec |})
          end
      end.

(** The three nested loops, threading [routes]. *)
Fixpoint scan_imports (good : string) (src : string * MarketPriceRecord)
    (import_list : list (string * MarketPriceRecord))
    (routes : list TradeRoute) : option (list TradeRoute) :=
  match import_list with
  | [] => Some routes
  | dst :: rest =>
      r ← score_route good src dst;
      scan_imports good src rest
        (match r with Some route => routes ++ [route] | None => routes end)
  end.

Fixpoint scan_exports (good : string)
    (export_list import_list : list (string * MarketPriceRecord))
    (routes : list TradeRoute) : option (list TradeRoute) :=
  match export_list with
  | [] => Some routes
  | src :: rest =>
      routes ← scan_imports good src import_list routes;
      scan_exports good rest import_list routes
  end.

Fixpoint scan_goods (exports imports : Markets) (routes : list TradeRoute)
  : option (list TradeRoute) :=
  match exports with
  | [] => Some routes
  | (good, export_list) :: rest =>
      routes ← scan_exports good export_list (get_list good imports) routes;
      scan_goods rest imports routes
  end.

(** [find_best_routes], from [prices_by_wp] on. *)
Definition find_best_routes
    (prices_by_wp : list (string * list MarketPriceRecord))
  : option (list TradeRoute) :=
  let '(exports, imports) := group_records prices_by_wp in
  routes ← scan_goods exports imports [];
  Some (sort_routes routes).
End Routes.

End Trader.

(* ===================================================================== *)
(** ** fleet/state.py *)
(* ===================================================================== *)

Module State.
Local Open Scope Z_scope.

(** A claimed route: [(good, source, dest)]. *)
Definition Route : Type := string * string * string.

(** A dictionary with string keys, given by its items in insertion order:
    [d[key] = v] keeps the place of a key that is present and appends a
    new one; [d.pop(key, None)] removes the item of the key. *)
Fixpoint dict_set {V} (key : string) (v : V) (d : list (string * V))
  : list (string * V) :=
  match d with
  | [] => [(key, v)]
  | (k, x) :: rest =>
      if String.eqb k key then (k, v) :: rest
      else (k, x) :: dict_set key v rest
  end.

Fixpoint dict_pop {V} (key : string) (d : list (string * V))
  : list (string * V) :=
  match d with
  | [] => []
  | (k, x) :: rest =>
      if String.eqb k key then rest else (k, x) :: dict_pop key rest
  end.

Record SystemState := {
  sys_symbol : string;
  sys_waypoints : list Router.Waypoint;
  sys_coords : gmap string (Z * Z);
  sys_markets : list Router.Waypoint;
  sys_shipyards : list Router.Waypoint;
  claimed_routes : list (string * Route);
}.

(** [any(t.symbol == trait for t in wp.traits)] *)
Definition has_trait (trait : string) (wp : Router.Waypoint) : bool :=
  existsb (λ t, String.eqb t trait) (Router.wp_traits wp).

Definition from_waypoints (system_symbol : string)
    (waypoints : list Router.Waypoint) : SystemState :=
  {| sys_symbol := system_symbol;
     sys_waypoints := waypoints;
     sys_coords :=
       foldl (λ m wp, <[Router.wp_symbol wp :=
                          (Router.wp_x wp, Router.wp_y wp)]> m) ∅ waypoints;
     sys_markets := List.filter (has_trait "MARKETPLACE") waypoints;
     sys_shipyards := List.filter (has_trait "SHIPYARD") waypoints;
     claimed_routes := [] |}.

(** [sys_state.claimed_routes] is updated in place. *)
Definition with_claims (sys_state : SystemState)
    (claims : list (string * Route)) : SystemState :=
  {| sys_symbol := sys_symbol sys_state;
     sys_waypoints := sys_waypoints sys_state;
     sys_coords := sys_coords sys_state;
     sys_markets := sys_markets sys_state;
     sys_shipyards := sys_shipyards sys_state;
     claimed_routes := claims |}.

(** The [systems] of [FleetState]. The methods below read and change
    nothing else in memory; the copy of a claim that [claim_route] and
    [release_route] hand to [market_db] is not part of it. *)
Abbreviation Systems := (gmap string SystemState) (only parsing).

Definition get_system (systems : Systems) (system_symbol : string)
  : option SystemState :=
  systems !! system_symbol.

Definition ensure_system (systems : Systems) (system_symbol : string)
    (waypoints : list Router.Waypoint) : Systems * SystemState :=
  match systems !! system_symbol with
  | Some sys_state => (systems, sys_state)
  | None =>
      let sys_state := from_waypoints system_symbol waypoints in
      (<[system_symbol := sys_state]> systems, sys_state)
  end.

Definition claim_route (systems : Systems)
    (system_symbol ship_symbol good source destination : string) : Systems :=
  match systems !! system_symbol with
  | Some sys_state =>
      <[system_symbol :=
          with_claims sys_state
            (dict_set ship_symbol (good, source, destination)
               (claimed_routes sys_state))]> systems
  | None => systems
  end.

Definition release_route (systems : Systems)
    (system_symbol ship_symbol : string) : Systems :=
  match systems !! system_symbol with
  | Some sys_state =>
      <[system_symbol :=
          with_claims sys_state
            (dict_pop ship_symbol (claimed_routes sys_state))]> systems
  | None => systems
  end.

Definition get_excluded_routes (systems : Systems)
    (system_symbol exclude_ship : string) : list Route :=
  match systems !! system_symbol with
  | None => []
  | Some sys_state =>
      (filter (λ item : string * Route, item.1 ≠ exclude_ship)
              (claimed_routes sys_state)).*2
  end.

End State.

(* ===================================================================== *)
(** ** fleet/missions.py *)
(* ===================================================================== *)

Module Missions.

Inductive MissionType := TRADE | SCAN | CONTRACT | GATE_BUILD | IDLE.

#[global] Instance MissionType_eq_dec : EqDecision MissionType.
Proof. solve_decision. Defined.

Definition value (m : MissionType) : string :=
  match m with
  | TRADE => "trade"
  | SCAN => "scan"
  | CONTRACT => "contract"
  | GATE_BUILD => "gate_build"
  | IDLE => "idle"
  end.

(** [MissionType(s)]: the member whose value is [s]; [None] stands for the
    [ValueError] of the enum lookup. *)
Definition of_value (s : string) : option MissionType :=
  if String.eqb s "trade" then Some TRADE
  else if String.eqb s "scan" then Some SCAN
  else if String.eqb s "contract" then Some CONTRACT
  else if String.eqb s "gate_build" then Some GATE_BUILD
  else if String.eqb s "idle" then Some IDLE
  else None.

End Missions.

(* ===================================================================== *)
(** ** fleet/strategy.py *)
(* ===================================================================== *)

Module Strategy.
Import Missions.
Local Open Scope Z_scope.

Record CapitalPolicy := {
  gate_floor : Z;
  trade_min : Z;
  idle_threshold : Z;
}.

Definition default_capital : CapitalPolicy :=
  {| gate_floor := 300000; trade_min := 50000; idle_threshold := 30000 |}.

Record ShipAssignment := {
  mission : MissionType;
  kwargs : gmap string Z;
}.

Record FleetPlan := { assignments : gmap string ShipAssignment }.

Record ShipCapability := {
  symbol : string;
  cargo : Z;
  fuel : Z;
  category : string;
  current_mission : MissionType;
}.

(** [ShipAssignment(m)] with the default empty [kwargs]. *)
Definition assignment (m : MissionType) : ShipAssignment :=
  {| mission := m; kwargs := ∅ |}.

(** [FleetPlan.changes_from]: one pass over [self.assignments.items()]. *)
Definition changes_from (plan : FleetPlan) (current : gmap string MissionType)
  : gmap string (MissionType * ShipAssignment) :=
  map_fold
    (λ sym new changes,
       let old := default IDLE (current !! sym) in
       if bool_decide (mission new ≠ old)
       then <[sym := (old, new)]> changes
       else changes)
    ∅ (assignments plan).

(** The state of the partition loop: the plan so far, the probes and the
    cargo ships, both in input order. *)
Definition partition_state : Type :=
  gmap string ShipAssignment * list ShipCapability * list ShipCapability.

Definition partition_step (skip_ships : gset string)
    (overrides : gmap string string)
    (st : partition_state) (ship : ShipCapability) : partition_state :=
  let '(plan, probes, cargo_ships) := st in
  if bool_decide (symbol ship ∈ skip_ships) then
    (<[symbol ship := assignment IDLE]> plan, probes, cargo_ships)
  else
    match overrides !! symbol ship with
    | Some str =>
        let m := match of_value str with
                 | Some m => m
                 | None => IDLE
                 end in
        (<[symbol ship := assignment m]> plan, probes, cargo_ships)
    | None =>
        if String.eqb (category ship) "disabled" then
          (<[symbol ship := assignment IDLE]> plan, probes, cargo_ships)
        else if String.eqb (category ship) "sentinel" then
          (<[symbol ship := assignment IDLE]> plan, probes, cargo_ships)
        else if String.eqb (category ship) "probe" then
          (plan, probes ++ [ship], cargo_ships)
        else if String.eqb (category ship) "ship" then
          (plan, probes, cargo_ships ++ [ship])
        else
          (<[symbol ship := assignment IDLE]> plan, probes, cargo_ships)
    end.

(** [for ship in ships: plan.assignments[ship.symbol] = a] *)
Definition assign_all (a : ShipAssignment) (ships : list ShipCapability)
    (plan : gmap string ShipAssignment) : gmap string ShipAssignment :=
  foldl (λ p ship, <[symbol ship := a]> p) plan ships.

(** [cargo_ships.sort(key=lambda s: s.cargo, reverse=True)]: the sort is
    stable, ships of equal capacity keep their relative order. *)
Fixpoint insert_desc (s : ShipCapability) (l : list ShipCapability)
  : list ShipCapability :=
  match l with
  | [] => [s]
  | y :: l' => if cargo s <? cargo y then y :: insert_desc s l'
               else s :: y :: l'
  end.

Definition sort_desc (l : list ShipCapability) : list ShipCapability :=
  foldr insert_desc [] l.

(** [for _ in range(n): ship = unassigned.pop(0); ... CONTRACT]; the
    source bounds [n] by [len(unassigned)], so the pop never fails. *)
Fixpoint assign_contracts (n : nat) (plan : gmap string ShipAssignment)
    (unassigned : list ShipCapability)
  : gmap string ShipAssignment * list ShipCapability :=
  match n, unassigned with
  | S n', ship :: rest =>
      assign_contracts n' (<[symbol ship := assignment CONTRACT]> plan) rest
  | _, _ => (plan, unassigned)
  end.

Definition evaluate (capital : CapitalPolicy) (credits : Z)
    (ships : list ShipCapability)
    (current_assignments : gmap string MissionType)
    (has_active_contract contract_profitable : bool)
    (gate_needs_supplies market_routes_available : bool)
    (skip_ships : gset string)
    (overrides : option (gmap string string)) : FleetPlan :=
  let overrides := default ∅ overrides in
  let '(plan, probes, cargo_ships) :=
    foldl (partition_step skip_ships overrides) (∅, [], []) ships in
  let plan := assign_all (assignment SCAN) probes plan in
  if credits <? idle_threshold capital then
    {| assignments := assign_all (assignment IDLE) cargo_ships plan |}
  else
    let cargo_ships := sort_desc cargo_ships in
    let unassigned := cargo_ships in
    let '(plan, unassigned) :=
      if gate_needs_supplies && (gate_floor capital <=? credits) then
        match unassigned with
        | gate_ship :: rest =>
            (<[symbol gate_ship :=
                 {| mission := GATE_BUILD;
                    kwargs := {[ "capital_floor" := gate_floor capital ]} |}]>
               plan, rest)
        | [] => (plan, unassigned)
        end
      else (plan, unassigned) in
    let max_contract_ships := 2%nat in
    let '(plan, unassigned) :=
      if has_active_contract && contract_profitable then
        assign_contracts (Nat.min max_contract_ships (length unassigned))
          plan unassigned
      else (plan, unassigned) in
    let '(plan, unassigned) :=
      if market_routes_available && (trade_min capital <=? credits) then
        (assign_all (assignment TRADE) unassigned plan, [])
      else (plan, unassigned) in
    {| assignments := assign_all (assignment IDLE) unassigned plan |}.

End Strategy.

(* ===================================================================== *)
(** ** Python sequences *)
(* ===================================================================== *)

Module Py.
Local Open Scope Z_scope.

(** [t[i]] on a tuple or list: negative indices count from the end;
    [None] stands for [IndexError]. *)
Definition index {A} (t : list A) (i : Z) : option A :=
  let n := Z.of_nat (length t) in
  if 0 <=? i then t !! Z.to_nat i
  else if - n <=? i then t !! Z.to_nat (n + i)
  else None.

End Py.

(* ===================================================================== *)
(** ** fleet/ship_agent.py and fleet/commander.py *)
(* ===================================================================== *)

Module Commander.
Import Missions.
Local Open Scope Z_scope.

Definition MAX_RESTARTS : Z := 5.
Definition RESTART_BACKOFF : list Z := [10; 30; 60; 120; 300].

(** An [asyncio.Task] is identified by its rank of creation. *)
Definition Task : Type := nat.

Record ShipAgent := {
  symbol : string;
  mission : MissionType;
  system : string;
  task : option Task;
  restart_count : Z;
  mission_kwargs : gmap string Z;
}.

(** What the crash handler reads and writes: [state.agents],
    [active_tasks], [state.shutdown], and the effects it has on the
    runtime (the sleeps it awaited, oldest first, and the tasks created). *)
Record World := {
  agents : gmap string ShipAgent;
  active_tasks : gmap string Task;
  shutdown : bool;
  slept : list Z;
  created : nat;
}.

Section Agent.
(** [registered m]: the registry holds a coroutine for [m]. *)
Variable registered : MissionType → bool.

(** [ShipAgent.launch]: the agent after the call, the task returned and
    the number of tasks created so far. *)
Definition launch (a : ShipAgent) (n : nat)
  : ShipAgent * option Task * nat :=
  if bool_decide (mission a = IDLE) then (a, None, n)
  else if negb (registered (mission a)) then (a, None, n)
  else
    let t : Task := n in
    ({| symbol := symbol a; mission := mission a; system := system a;
        task := Some t; restart_count := restart_count a;
        mission_kwargs := mission_kwargs a |}, Some t, S n).

(** [ShipAgent.relaunch] *)
Definition relaunch (a : ShipAgent) (n : nat)
  : ShipAgent * option Task * nat :=
  launch {| symbol := symbol a; mission := mission a; system := system a;
            task := task a; restart_count := restart_count a + 1;
            mission_kwargs := mission_kwargs a |} n.

Definition pop_task (ship_symbol : string) (w : World) : World :=
  {| agents := agents w;
     active_tasks := delete ship_symbol (active_tasks w);
     shutdown := shutdown w; slept := slept w; created := created w |}.

(** [FleetCommander._handle_crash]; [signal] tells whether the shutdown
    signal arrives while the handler sleeps. *)
Definition handle_crash (w : World) (ship_symbol : string) (signal : bool)
  : option World :=
  match agents w !! ship_symbol with
  | None => Some (pop_task ship_symbol w)
  | Some agent =>
      if MAX_RESTARTS <=? restart_count agent then
        let parked :=
          {| symbol := symbol agent; mission := IDLE;
             system := system agent; task := task agent;
             restart_count := restart_count agent;
             mission_kwargs := mission_kwargs agent |} in
        Some {| agents := <[ship_symbol := parked]> (agents w);
                active_tasks := delete ship_symbol (active_tasks w);
                shutdown := shutdown w; slept := slept w;
                created := created w |}
      else
        backoff ← Py.index RESTART_BACKOFF
                    (Z.min (restart_count agent)
                           (Z.of_nat (length RESTART_BACKOFF) - 1));
        let w := {| agents := agents w; active_tasks := active_tasks w;
                    shutdown := shutdown w || signal;
                    slept := slept w ++ [backoff];
                    created := created w |} in
        if shutdown w then Some (pop_task ship_symbol w)
        else
          let '(agent', new_task, n) := relaunch agent (created w) in
          Some {| agents := <[ship_symbol := agent']> (agents w);
                  active_tasks :=
                    match new_task with
                    | Some t => <[ship_symbol := t]> (active_tasks w)
                    | None => delete ship_symbol (active_tasks w)
                    end;
                  shutdown := shutdown w; slept := slept w;
                  created := n |}
  end.

(** [n] crashes of the same ship in a row, no shutdown signal arriving. *)
Fixpoint crashes (n : nat) (w : World) (ship_symbol : string)
  : option World :=
  match n with
  | O => Some w
  | S n' =>
      w' ← handle_crash w ship_symbol false;
      crashes n' w' ship_symbol
  end.

(** [FleetCommander._handle_completion] *)
Definition handle_completion (w : World) (ship_symbol : string) : World :=
  pop_task ship_symbol w.

(** [finished t]: the task [t] is done when the commander looks at it. *)
Variable finished : Task → bool.

(** [FleetCommander._reassign_ship]; next to the world, the tasks the
    commander has cancelled, oldest first. *)
Definition reassign_ship (w : World) (cancelled : list Task)
    (ship_symbol : string) (new_assignment : Strategy.ShipAssignment)
  : World * list Task :=
  match agents w !! ship_symbol with
  | None => (w, cancelled)
  | Some agent =>
      let old_task := active_tasks w !! ship_symbol in
      let active := delete ship_symbol (active_tasks w) in
      let cancelled :=
        match old_task with
        | Some t => if finished t then cancelled else cancelled ++ [t]
        | None => cancelled
        end in
      let agent :=
        {| symbol := symbol agent;
           mission := Strategy.mission new_assignment;
           system := system agent; task := task agent;
           restart_count := 0;
           mission_kwargs := Strategy.kwargs new_assignment |} in
      let '(agent', new_task, n) := launch agent (created w) in
      ({| agents := <[ship_symbol := agent']> (agents w);
          active_tasks :=
            match new_task with
            | Some t => <[ship_symbol := t]> active
            | None => active
            end;
          shutdown := shutdown w; slept := slept w; created := n |},
       cancelled)
  end.

(** The body of the loop of [_maybe_reassign] over [changes.items()]. *)
Definition reassign_changed
    (changes : gmap string (MissionType * Strategy.ShipAssignment))
    (st : World * list Task) (sym : string) : World * list Task :=
  match changes !! sym with
  | Some (_, new_assignment) => reassign_ship st.1 st.2 sym new_assignment
  | None => st
  end.

(** [FleetCommander._maybe_reassign], from the plan on: the changes are
    computed once, against the missions of the agents, and applied ship
    by ship.  [order] lists the keys of [plan.assignments] in the order
    in which the dictionary yields them. *)
Definition maybe_reassign (plan : Strategy.FleetPlan) (order : list string)
    (w : World) (cancelled : list Task) : World * list Task :=
  let current := mission <$> agents w in
  let changes := Strategy.changes_from plan current in
  foldl (reassign_changed changes) (w, cancelled) order.

(** The body of the loop of [_apply_plan]; a ship is given by its symbol
    and its system. *)
Definition apply_assignment (plan : Strategy.FleetPlan) (w : World)
    (ship : string * string) : World :=
  let '(sym, sys) := ship in
  match Strategy.assignments plan !! sym with
  | None => w
  | Some a =>
      let agent :=
        {| symbol := sym; mission := Strategy.mission a;
           system := sys; task := None; restart_count := 0;
           mission_kwargs := Strategy.kwargs a |} in
      let '(agent', new_task, n) := launch agent (created w) in
      {| agents := <[sym := agent']> (agents w);
         active_tasks :=
           match new_task with
           | Some t => <[sym := t]> (active_tasks w)
           | None => active_tasks w
           end;
         shutdown := shutdown w; slept := slept w; created := n |}
  end.

(** [FleetCommander._apply_plan]: one agent per ship of the plan, launched
    at once, the handles collected in a fresh dictionary. *)
Definition apply_plan (ships : list (string * string))
    (plan : Strategy.FleetPlan) (w : World) : World :=
  foldl (apply_assignment plan)
        {| agents := agents w; active_tasks := ∅; shutdown := shutdown w;
           slept := slept w; created := created w |}
        ships.
End Agent.

End Commander.

(* ===================================================================== *)
(** ** client.py *)
(* ===================================================================== *)

Module Client.
Local Open Scope Z_scope.

Definition MAX_RETRIES : Z := 5.
Definition BACKOFF_SCHEDULE : list Z := [5; 10; 20; 40; 60].
Definition CIRCUIT_BREAKER_THRESHOLD : Z := 10.
Definition CIRCUIT_BREAKER_PAUSE : Z := 120.

(** JSON values the client passes along without looking into them. *)
Definition Json : Type := string.

(** [body["error"]]: a plain string or an object. *)
Inductive ErrorPayload :=
| ErrString (message : string)
| ErrObject (code : option Z) (message : option string) (data : option Json).

(** A decoded JSON body: its ["error"] entry, if any, and the rest. *)
Record Body := { error : option ErrorPayload; content : Json }.

Record Response := {
  status_code : Z;
  retry_after : option string;   (* [headers.get("retry-after")] *)
  body : Body;
}.

(** What one call of the HTTP layer yields. *)
Inductive Attempt := TransportError | Answer (r : Response).

Inductive Outcome :=
| Return (b : option Body)                  (* [None] is the [{}] of a 204 *)
| RaiseTransportError
| RaiseApiError (message : string) (code : Z) (data : option Json)
| RaiseHTTPStatusError (status : Z).

Record ClientState := {
  consecutive_failures : Z;
  sleeps : list Z;          (* arguments of [asyncio.sleep], oldest first *)
  acquired : nat;           (* scheduler tokens taken *)
}.

Definition sleep (d : Z) (st : ClientState) : ClientState :=
  {| consecutive_failures := consecutive_failures st;
     sleeps := sleeps st ++ [d]; acquired := acquired st |}.

Definition set_failures (n : Z) (st : ClientState) : ClientState :=
  {| consecutive_failures := n; sleeps := sleeps st;
     acquired := acquired st |}.

(** The prologue of every attempt: one token, then the circuit breaker. *)
Definition enter (st : ClientState) : ClientState :=
  let st := {| consecutive_failures := consecutive_failures st;
               sleeps := sleeps st; acquired := S (acquired st) |} in
  if CIRCUIT_BREAKER_THRESHOLD <=? consecutive_failures st
  then set_failures 0 (sleep CIRCUIT_BREAKER_PAUSE st)
  else st.

(** [response.raise_for_status()] of httpx passes 2xx only. *)
Definition is_success (status : Z) : bool :=
  (200 <=? status) && (status <=? 299).

(** [code], [message] and [data] as read off the error payload. *)
Definition error_code (status : Z) (err : ErrorPayload) : Z :=
  match err with
  | ErrString _ => status
  | ErrObject c _ _ => default status c
  end.

Definition error_message (err : ErrorPayload) : string :=
  match err with
  | ErrString s => s
  | ErrObject _ m _ => default "Unknown API error" m
  end.

Definition error_data (err : ErrorPayload) : option Json :=
  match err with
  | ErrString _ => None
  | ErrObject _ _ d => d
  end.

Section Request.
(** [int(s)] of Python on a string; [None] stands for [ValueError]. *)
Variable int_of_str : string → option Z.

(** [SpaceTradersClient._request]: [upstream] lists what the successive
    calls of the HTTP layer yield; the model is undefined ([None]) when
    that list is exhausted or an uncaught Python error is raised.  This
    is one call on its own, no other task writing the failure counter in
    the meantime; [request_shared] below is the call among others. *)
Fixpoint request (upstream : list Attempt) (_retry : Z) (st : ClientState)
  : option (Outcome * ClientState) :=
  match upstream with
  | [] => None
  | a :: upstream' =>
      let st := enter st in
      match a with
      | TransportError =>
          let st := set_failures (consecutive_failures st + 1) st in
          if _retry <? MAX_RETRIES then
            wait ← Py.index BACKOFF_SCHEDULE _retry;
            request upstream' (_retry + 1) (sleep wait st)
          else Some (RaiseTransportError, st)
      | Answer response =>
          if status_code response =? 204 then
            Some (Return None, set_failures 0 st)
          else
            match error (body response) with
            | Some err =>
                let code := error_code (status_code response) err in
                let message := error_message err in
                let data := error_data err in
                if ((code =? 429) || (status_code response =? 429))
                   && (_retry <? MAX_RETRIES) then
                  wait ← match retry_after response with
                         | Some s =>
                             if bool_decide (s = "")
                             then Py.index BACKOFF_SCHEDULE _retry
                             else int_of_str s
                         | None => Py.index BACKOFF_SCHEDULE _retry
                         end;
                  request upstream' (_retry + 1) (sleep wait st)
                else if ((code =? 3000) || (500 <=? status_code response))
                        && (_retry <? MAX_RETRIES) then
                  let st := set_failures (consecutive_failures st + 1) st in
                  wait ← Py.index BACKOFF_SCHEDULE _retry;
                  request upstream' (_retry + 1) (sleep wait st)
                else Some (RaiseApiError message code data, st)
            | None =>
                if is_success (status_code response)
                then Some (Return (Some (body response)),
                           set_failures 0 st)
                else Some (RaiseHTTPStatusError (status_code response), st)
            end
      end
  end.

(** [_consecutive_failures] is an attribute of the client, which all the
    tasks of the fleet share, and a call is suspended wherever it awaits.
    [Meanwhile] is what the other tasks do to the counter while one
    attempt of this call is suspended: [during_acquire] while it waits
    for its token (and, for a retry, during the backoff sleep just
    before), [during_http] while the HTTP layer runs.  What they do
    during the circuit-breaker pause is overwritten by the reset that
    follows the pause. *)
Record Meanwhile := {
  during_acquire : Z → Z;
  during_http : Z → Z;
}.

Definition others (f : Z → Z) (st : ClientState) : ClientState :=
  set_failures (f (consecutive_failures st)) st.

(** [SpaceTradersClient._request] among the other calls of the client:
    as [request], each attempt coming with what the other tasks do to the
    counter in the meantime. *)
Fixpoint request_shared (upstream : list (Meanwhile * Attempt)) (_retry : Z)
    (st : ClientState) : option (Outcome * ClientState) :=
  match upstream with
  | [] => None
  | (m, a) :: upstream' =>
      let st := enter (others (during_acquire m) st) in
      let st := others (during_http m) st in
      match a with
      | TransportError =>
          let st := set_failures (consecutive_failures st + 1) st in
          if _retry <? MAX_RETRIES then
            wait ← Py.index BACKOFF_SCHEDULE _retry;
            request_shared upstream' (_retry + 1) (sleep wait st)
          else Some (RaiseTransportError, st)
      | Answer response =>
          if status_code response =? 204 then
            Some (Return None, set_failures 0 st)
          else
            match error (body response) with
            | Some err =>
                let code := error_code (status_code response) err in
                let message := error_message err in
                let data := error_data err in
                if ((code =? 429) || (status_code response =? 429))
                   && (_retry <? MAX_RETRIES) then
                  wait ← match retry_after response with
                         | Some s =>
                             if bool_decide (s = "")
                             then Py.index BACKOFF_SCHEDULE _retry
                             else int_of_str s
                         | None => Py.index BACKOFF_SCHEDULE _retry
                         end;
                  request_shared upstream' (_retry + 1) (sleep wait st)
                else if ((code =? 3000) || (500 <=? status_code response))
                        && (_retry <? MAX_RETRIES) then
                  let st := set_failures (consecutive_failures st + 1) st in
                  wait ← Py.index BACKOFF_SCHEDULE _retry;
                  request_shared upstream' (_retry + 1) (sleep wait st)
                else Some (RaiseApiError message code data, st)
            | None =>
                if is_success (status_code response)
                then Some (Return (Some (body response)),
                           set_failures 0 st)
                else Some (RaiseHTTPStatusError (status_code response), st)
            end
      end
  end.

(** No other task touches the counter. *)
Definition quiet : Meanwhile :=
  {| during_acquire := λ n, n; during_http := λ n, n |}.

Definition alone (a : Attempt) : Meanwhile * Attempt := (quiet, a).
End Request.

(** Plain decimal numerals, as [int] reads them. *)
Fixpoint decimal_digits (acc : Z) (s : string) : option Z :=
  match s with
  | EmptyString => Some acc
  | String c s' =>
      let n := Z.of_N (Ascii.N_of_ascii c) in
      if (48 <=? n) && (n <=? 57)
      then decimal_digits (10 * acc + (n - 48)) s'
      else None
  end.

Definition decimal (s : string) : option Z :=
  match s with
  | EmptyString => None
  | _ => decimal_digits 0 s
  end.

(** [models.Meta] *)
Record Meta := { meta_total : Z; meta_page : Z; meta_limit : Z }.

(** What [get_paginated] reads in the body of a page: the ["data"] and
    ["meta"] entries, if present. *)
Record Page (Item : Type) := {
  page_data : option (list Item);
  page_meta : option Meta;
}.
Arguments page_data {Item} _.
Arguments page_meta {Item} _.

Section Paginated.
Context {Item : Type}.
(** [self.get(path, params={..., "page": page, "limit": limit})]; [None]
    stands for an error raised by the request or by the validation of the
    meta entry. *)
Variable get : Z → Z → option (Page Item).

(** The [while True] loop of [get_paginated]; [fuel] bounds the number of
    pages requested, and [inl tt] tells that the bound was reached. *)
Fixpoint paginate (fuel : nat) (limit : Z) (all_items : list Item) (page : Z)
  : unit + option (list Item * Meta) :=
  match fuel with
  | O => inl tt
  | S fuel' =>
      match get page limit with
      | None => inr None
      | Some body =>
          let data := default [] (page_data body) in
          let meta := default {| meta_total := 0; meta_page := 1;
                                 meta_limit := limit |} (page_meta body) in
          let all_items := all_items ++ data in
          if (meta_total meta <=? Z.of_nat (length all_items))
             || match data with [] => true | _ => false end
          then inr (Some (all_items, meta))
          else paginate fuel' limit all_items (page + 1)
      end
  end.

Definition get_paginated (fuel : nat) (limit : Z)
  : unit + option (list Item * Meta) :=
  paginate fuel limit [] 1.
End Paginated.

End Client.

(* ===================================================================== *)
(** ** missions/contractor.py *)
(* ===================================================================== *)

Module Contractor.
Local Open Scope Z_scope.

Record ContractDelivery := {
  trade_symbol : string;
  destination_symbol : string;
  units_required : Z;
  units_fulfilled : Z;
}.

Record ContractPayment := { on_accepted : Z; on_fulfilled : Z }.

Record ContractTerms := {
  payment : ContractPayment;
  deliver : list ContractDelivery;
}.

Record Contract := {
  id : string;
  terms : ContractTerms;
  accepted : bool;
  fulfilled : bool;
}.

(** The fields of a cached price record that the evaluation reads. *)
Record MarketPriceRecord := {
  waypoint_symbol : string;
  purchase_price : Z;
}.

(** [f"{n:,}"]: decimal digits in groups of three. *)
Fixpoint group_thousands (digits_rev : list ascii) (k : nat) : list ascii :=
  match digits_rev with
  | [] => []
  | d :: rest =>
      match k, rest with
      | 2%nat, _ :: _ => d :: ","%char :: group_thousands rest 0
      | _, _ => d :: group_thousands rest (S k)
      end
  end.

Definition with_commas (n : Z) : string :=
  let body := string_of_list_ascii
                (rev (group_thousands
                        (rev (list_ascii_of_string (pretty (Z.abs n)))) 0)) in
  if n <? 0 then "-" +:+ body else body.

(** [', '.join(details)] *)
Fixpoint join (sep : string) (l : list string) : string :=
  match l with
  | [] => ""
  | [x] => x
  | x :: rest => x +:+ sep +:+ join sep rest
  end.

Section Profitability.
(** [market_db.find_best_buy(good, system_symbol=system)]: the cheapest
    cached market selling the good, if any.  The market store is not
    part of the sources at hand. *)
Variable find_best_buy : string → string → option MarketPriceRecord.

(** The [for d in contract.terms.deliver] loop: [inl] is the early
    return, [inr] the accumulated [(total_cost, details)]. *)
Fixpoint scan_deliveries (system : string) (ds : list ContractDelivery)
    (total_cost : Z) (details : list string)
  : (bool * Z * string) + (Z * list string) :=
  match ds with
  | [] => inr (total_cost, details)
  | d :: rest =>
      let remaining := units_required d - units_fulfilled d in
      if remaining <=? 0 then scan_deliveries system rest total_cost details
      else
        match find_best_buy (trade_symbol d) system with
        | None => inl (false, 0, "No market sells " +:+ trade_symbol d)
        | Some best =>
            let cost := purchase_price best * remaining in
            scan_deliveries system rest (total_cost + cost)
              (details ++
                 [pretty remaining +:+ "× " +:+ trade_symbol d +:+ " @ "
                  +:+ pretty (purchase_price best) +:+ "/unit from "
                  +:+ waypoint_symbol best])
        end
  end.

(** [_evaluate_profitability]: (profitable, estimated_profit,
    explanation). *)
Definition evaluate_profitability (contract : Contract) (system : string)
  : bool * Z * string :=
  match scan_deliveries system (deliver (terms contract)) 0 [] with
  | inl r => r
  | inr (total_cost, details) =>
      let total_payment :=
        on_accepted (payment (terms contract))
        + on_fulfilled (payment (terms contract)) in
      let profit := total_payment - total_cost in
      let explanation :=
        "Payment: " +:+ with_commas total_payment +:+ " — Cost: "
        +:+ with_commas total_cost +:+ " — Profit: "
        +:+ with_commas profit +:+ " | " +:+ join ", " details in
      (0 <? profit, profit, explanation)
  end.
End Profitability.

(** [_fuel_needed] *)
Definition _fuel_needed (coords : gmap string (Z * Z)) (origin dest : string)
  : option Z :=
  if bool_decide (origin = dest) then Some 0
  else
    match coords !! origin, coords !! dest with
    | Some (ox, oy), Some (dx, dy) =>
        dist ← Router.distance ox oy dx dy;
        c ← PyFloat.ceil dist;
        Some (Z.max 1 c)
    | _, _ => Some 9999
    end.

(** [_remaining_deliveries]: a later line overwrites an earlier one of the
    same trade symbol. *)
Definition _remaining_deliveries (contract : Contract)
  : gmap string (Z * string) :=
  foldl (λ result d,
           let remaining := units_required d - units_fulfilled d in
           if 0 <? remaining
           then <[trade_symbol d := (remaining, destination_symbol d)]> result
           else result)
        ∅ (deliver (terms contract)).

End Contractor.

(* ===================================================================== *)
(** ** missions/runner.py *)
(* ===================================================================== *)

Module Runner.
Import Contractor.

(** [find_delivery_waypoint]: the destination of the first line for the
    resource. *)
Fixpoint find_delivery_lines (ds : list ContractDelivery) (resource : string)
  : option string :=
  match ds with
  | [] => None
  | d :: rest =>
      if String.eqb (trade_symbol d) resource
      then Some (destination_symbol d)
      else find_delivery_lines rest resource
  end.

Definition find_delivery_waypoint (contract : Contract) (resource : string)
  : option string :=
  find_delivery_lines (deliver (terms contract)) resource.

End Runner.

(* ===================================================================== *)
(** ** Vocabulary of the statements about the strategy *)
(* ===================================================================== *)

Module StrategySpec.
Import Missions Strategy.
Local Open Scope Z_scope.

(** A ship the strategy decides for: neither skipped nor overridden. *)
Definition commandable (skip_ships : gset string)
    (overrides : gmap string string) (s : ShipCapability) : bool :=
  negb (bool_decide (symbol s ∈ skip_ships))
  && bool_decide (overrides !! symbol s = None).

Definition is_probe (skip_ships : gset string)
    (overrides : gmap string string) (s : ShipCapability) : bool :=
  commandable skip_ships overrides s && String.eqb (category s) "probe".

Definition is_cargo (skip_ships : gset string)
    (overrides : gmap string string) (s : ShipCapability) : bool :=
  commandable skip_ships overrides s && String.eqb (category s) "ship".

(** The assignment the partition loop writes at once for a ship that is
    neither a probe nor a cargo ship. *)
Definition direct (skip_ships : gset string)
    (overrides : gmap string string) (s : ShipCapability)
  : option ShipAssignment :=
  if bool_decide (symbol s ∈ skip_ships) then Some (assignment IDLE)
  else match overrides !! symbol s with
       | Some str => Some (assignment (default IDLE (of_value str)))
       | None =>
           if String.eqb (category s) "probe" then None
           else if String.eqb (category s) "ship" then None
           else Some (assignment IDLE)
       end.

Definition gate_assignment (capital : CapitalPolicy) : ShipAssignment :=
  {| mission := GATE_BUILD;
     kwargs := {[ "capital_floor" := gate_floor capital ]} |}.

(** How many of the [n] sorted cargo ships build the gate (0 or 1). *)
Definition gate_count (capital : CapitalPolicy) (credits : Z)
    (gate_needs_supplies : bool) (n : nat) : nat :=
  if gate_needs_supplies && (gate_floor capital <=? credits)
     && negb (Nat.eqb n 0)
  then 1%nat else 0%nat.

(** How many of the [n] cargo ships left after the gate run the contract. *)
Definition contract_count (has_active_contract contract_profitable : bool)
    (n : nat) : nat :=
  if has_active_contract && contract_profitable then Nat.min 2 n else 0%nat.

Definition rest_assignment (capital : CapitalPolicy) (credits : Z)
    (market_routes_available : bool) : ShipAssignment :=
  if market_routes_available && (trade_min capital <=? credits)
  then assignment TRADE else assignment IDLE.

(** The decision order of the specification, by rank [i] in the cargo
    ships sorted by capacity, largest first. *)
Definition expected (capital : CapitalPolicy) (credits : Z)
    (has_active_contract contract_profitable : bool)
    (gate_needs_supplies market_routes_available : bool)
    (n i : nat) : ShipAssignment :=
  let g := gate_count capital credits gate_needs_supplies n in
  let c := contract_count has_active_contract contract_profitable (n - g) in
  if (i <? g)%nat then gate_assignment capital
  else if (i <? g + c)%nat then assignment CONTRACT
  else rest_assignment capital credits market_routes_available.

(** The partition loop, read off as two filters and one fold. *)
Definition park_directly (skip_ships : gset string)
    (overrides : gmap string string) (plan : gmap string ShipAssignment)
    (s : ShipCapability) : gmap string ShipAssignment :=
  match direct skip_ships overrides s with
  | Some a => <[symbol s := a]> plan
  | None => plan
  end.

(** Largest capacity first. *)
Definition by_capacity_desc (a b : ShipCapability) : Prop := cargo b ≤ cargo a.

(** What the strategy decides for the sorted cargo ships [sorted], on top
    of the plan [plan] that holds the parked ships and the probes. *)
Definition decided (capital : CapitalPolicy) (credits : Z)
    (hac cp gns mra : bool) (plan : gmap string ShipAssignment)
    (sorted : list ShipCapability)
  : gmap string ShipAssignment :=
  let g := gate_count capital credits gns (length sorted) in
  let c := contract_count hac cp (length sorted - g) in
  assign_all (rest_assignment capital credits mra) (drop c (drop g sorted))
    (assign_all (assignment CONTRACT) (take c (drop g sorted))
       (assign_all (gate_assignment capital) (take g sorted) plan)).

(** The fleet of the first scenario of the specification. *)
Definition example_fleet : list ShipCapability :=
  [ {| symbol := "S-1"; cargo := 80; fuel := 400; category := "ship";
       current_mission := IDLE |};
    {| symbol := "S-2"; cargo := 40; fuel := 400; category := "ship";
       current_mission := IDLE |};
    {| symbol := "P-1"; cargo := 0; fuel := 0; category := "probe";
       current_mission := IDLE |} ].

End StrategySpec.

(* ===================================================================== *)
(** ** Vocabulary of the statements about the commander *)
(* ===================================================================== *)

Module CommanderSpec.
Import Missions Commander.
Local Open Scope Z_scope.

(** The agent can be launched: its mission is not IDLE and a coroutine is
    registered for it. *)
Definition launchable (registered : MissionType → bool) (a : ShipAgent)
  : bool :=
  negb (bool_decide (mission a = IDLE)) && registered (mission a).

(** A fleet of one trading ship that has never crashed, its first task
    running. *)
Definition fresh_agent : ShipAgent :=
  {| symbol := "SHIP-1"; mission := TRADE; system := "X1";
     task := Some 0%nat; restart_count := 0; mission_kwargs := ∅ |}.

Definition fresh_world : World :=
  {| agents := {[ "SHIP-1" := fresh_agent ]};
     active_tasks := {[ "SHIP-1" := 0%nat ]};
     shutdown := false; slept := []; created := 1%nat |}.

(** From [w] to [w'] only the ship [ship] is touched: every other agent
    and handle is kept, and the handle of [ship] is either dropped or
    replaced by the one task created meanwhile. *)
Definition touches_only (ship : string) (w w' : World) : Prop :=
  (∀ other, other ≠ ship →
     agents w' !! other = agents w !! other
     ∧ active_tasks w' !! other = active_tasks w !! other)
  ∧ ((active_tasks w' !! ship = None ∧ created w' = created w)
     ∨ (active_tasks w' !! ship = Some (created w : Task)
        ∧ created w' = S (created w))).

(** Every handle was created earlier, and no two ships share one. *)
Definition handles_distinct (w : World) : Prop :=
  (∀ s (t : Task), active_tasks w !! s = Some t → (t < created w)%nat)
  ∧ (∀ s s' (t : Task), active_tasks w !! s = Some t →
                        active_tasks w !! s' = Some t → s = s').

(** No agent has been restarted more often than [MAX_RESTARTS] times. *)
Definition within_budget (w : World) : Prop :=
  ∀ s a, agents w !! s = Some a → 0 ≤ restart_count a ≤ MAX_RESTARTS.

(** A world in which a ship has used up its restarts. *)
Definition worn_agent : ShipAgent :=
  {| symbol := "SHIP-1"; mission := TRADE; system := "X1";
     task := Some 5%nat; restart_count := 5; mission_kwargs := ∅ |}.

(** A plan that sends the ship trading. *)
Definition trade_plan : Strategy.FleetPlan :=
  {| Strategy.assignments := {[ "SHIP-1" := Strategy.assignment TRADE ]} |}.

Definition worn_world : World :=
  {| agents := {[ "SHIP-1" := worn_agent ]};
     active_tasks := {[ "SHIP-1" := 5%nat ]};
     shutdown := false; slept := [10; 30; 60; 120; 300];
     created := 6%nat |}.

End CommanderSpec.

(* ===================================================================== *)
(** ** Vocabulary of the statements about the router *)
(* ===================================================================== *)

Module RouterSpec.
Import Router.
Local Open Scope Z_scope.

Section Greedy.
Variable coords : gmap string (Z * Z).
Variable fuel_waypoints : list string.
Variable destination : string.
Variable fuel_capacity : Z.
Variable speed : Z.
Variable mode : string.

(** From the position [(cx, cy)], the waypoint [w] is unvisited, known,
    within one tank, and at distance [r] from [(dest_x, dest_y)]. *)
Definition eligible (visited : gset string) (cx cy dest_x dest_y : Z)
    (w : string) (r : spec_float) : Prop :=
  (w ∉ visited)
  ∧ ∃ wx wy d c,
      coords !! w = Some (wx, wy)
      ∧ distance cx cy wx wy = Some d
      ∧ fuel_cost d mode = Some c
      ∧ c ≤ fuel_capacity
      ∧ distance wx wy dest_x dest_y = Some r.

(** The fuel a direct leg from [a] to the destination takes. *)
Definition direct_cost (a : string) (k : Z) : Prop :=
  ∃ ax ay dx dy d,
    coords !! a = Some (ax, ay)
    ∧ coords !! destination = Some (dx, dy)
    ∧ distance ax ay dx dy = Some d
    ∧ fuel_cost d mode = Some k.

Definition in_reach (a : string) : Prop :=
  ∃ k, direct_cost a k ∧ k ≤ fuel_capacity.

Definition out_of_reach (a : string) : Prop :=
  ∃ k, direct_cost a k ∧ fuel_capacity < k.

(** [w] is a hop the planner may take from [current]: eligible, and
    strictly closer to the destination than [current] is. *)
Definition candidate (visited : gset string) (current w : string) : Prop :=
  ∃ cx cy dx dy d0 r,
    coords !! current = Some (cx, cy)
    ∧ coords !! destination = Some (dx, dy)
    ∧ distance cx cy dx dy = Some d0
    ∧ eligible visited cx cy dx dy w r
    ∧ PyFloat.ltb r d0 = true.

(** No eligible fuel waypoint is strictly closer to the destination
    than [w]. *)
Definition closest (visited : gset string) (current w : string) : Prop :=
  ∀ cx cy dx dy w' r r',
    coords !! current = Some (cx, cy) →
    coords !! destination = Some (dx, dy) →
    w' ∈ fuel_waypoints →
    eligible visited cx cy dx dy w r →
    eligible visited cx cy dx dy w' r' →
    PyFloat.ltb r' r = false.

(** The hops of the greedy search: from [current] with the set
    [visited], through the stops [stops], to the state it ends in. *)
Inductive greedy_hops
  : gset string → string → list string → gset string → string → Prop :=
| hops_done visited current :
    greedy_hops visited current [] visited current
| hops_step visited current w stops visited' last :
    out_of_reach current →
    w ∈ fuel_waypoints →
    candidate visited current w →
    closest visited current w →
    greedy_hops ({[w]} ∪ visited) w stops visited' last →
    greedy_hops visited current (w :: stops) visited' last.

(** [seg] is the segment planned from [a] to [b]. *)
Definition leg (seg : RouteSegment) (ab : string * string) : Prop :=
  ∃ ax ay bx by_,
    coords !! ab.1 = Some (ax, ay)
    ∧ coords !! ab.2 = Some (bx, by_)
    ∧ plan_segment ax ay bx by_ ab.1 ab.2 speed mode = Some seg.

(** The legs of the route [origin], [stops], [destination]. *)
Definition route_legs (origin : string) (stops : list string)
  : list (string * string) :=
  zip (origin :: stops) (stops ++ [destination]).
End Greedy.

(** Every coordinate of the map lies within [-bound, bound]. *)
Definition coords_within (bound : Z) (coords : gmap string (Z * Z)) : Prop :=
  ∀ w x y, coords !! w = Some (x, y) →
           - bound ≤ x ≤ bound ∧ - bound ≤ y ≤ bound.

(** The example of the specification. *)
Definition example_coords : gmap string (Z * Z) :=
  {[ "A" := (0, 0); "B" := (40, 0); "C" := (80, 0) ]}.

(** A ship with a full tank of 100 units. *)
Definition example_ship : Ship :=
  {| ship_fuel_current := 100; ship_fuel_capacity := 100;
     ship_engine_speed := 30 |}.

End RouterSpec.

(* ===================================================================== *)
(** ** Vocabulary of the statements about floats and the trader *)
(* ===================================================================== *)

Module PyFloatSpec.
Local Open Scope Z_scope.

(** The magnitude of [f] is below [2 ^ K]. *)
Definition below (K : Z) (f : spec_float) : Prop :=
  match f with
  | S754_zero _ => True
  | S754_finite _ m e => Z.pos m < 2 ^ (K - e)
  | _ => False
  end.

(** [f] is a zero or a positive finite number. *)
Definition nonneg (f : spec_float) : Prop :=
  match f with
  | S754_zero _ | S754_finite false _ _ => True
  | _ => False
  end.

(** [f] is a finite number that is at least 1. *)
Definition at_least_one (f : spec_float) : Prop :=
  match f with
  | S754_finite false m e => 2 ^ (- e) ≤ Z.pos m
  | _ => False
  end.

(** The float that holds the integer [n] exactly. *)
Definition exact (n : Z) : spec_float :=
  binary_normalize PyFloat.prec PyFloat.emax n 0 false.

End PyFloatSpec.

Module TraderSpec.
Local Open Scope Z_scope.

(** The multiplier of the specification, an integer in every case: 2 to
    6 by supply, 3 for an unknown supply, one more under STRONG
    activity. *)
Definition multiplier (dest_supply : string) (dest_activity : option string)
  : Z :=
  (if String.eqb dest_supply "SCARCE" then 2
   else if String.eqb dest_supply "LIMITED" then 3
   else if String.eqb dest_supply "MODERATE" then 4
   else if String.eqb dest_supply "HIGH" then 5
   else if String.eqb dest_supply "ABUNDANT" then 6
   else 3)
  + (if bool_decide (dest_activity = Some "STRONG") then 1 else 0).

(** The record [x.2] is cached at the waypoint [x.1] as a market of kind
    [kind] for [good]. *)
Definition cached
    (prices_by_wp : list (string * list Trader.MarketPriceRecord))
    (kind good : string) (x : string * Trader.MarketPriceRecord) : Prop :=
  ∃ records,
    (x.1, records) ∈ prices_by_wp ∧ x.2 ∈ records
    ∧ Trader.rec_type x.2 = kind ∧ Trader.rec_trade_symbol x.2 = good.

(** The fuel [f] the route finder counts for the leg from [origin] to
    [dest]: the one-way estimate when it fits the tank, the fuel of a
    feasible multi-hop plan otherwise. *)
Definition leg_fuel (coords : gmap string (Z * Z)) (fuel_capacity speed : Z)
    (fuel_waypoints : option (list string)) (origin dest : string) (f : Z)
  : Prop :=
  ∃ estimate,
    Trader.estimate_fuel_one_way coords origin dest = Some estimate
    ∧ ((estimate ≤ fuel_capacity ∧ f = estimate)
       ∨ (fuel_capacity < estimate
          ∧ ∃ wps plan,
              fuel_waypoints = Some wps ∧ wps ≠ []
              ∧ Router.plan_multihop coords wps dest fuel_capacity speed
                  "CRUISE" origin = Some plan
              ∧ Router.feasible plan = true
              ∧ f = Router.total_fuel plan)).

(** No route is ranked directly before one of strictly higher profit per
    minute. *)
Definition ranked (a b : Trader.TradeRoute) : Prop :=
  PyFloat.ltb (Trader.route_profit_per_minute a)
              (Trader.route_profit_per_minute b) = false.

(** Two cached markets: K89 exports clothing, A1 imports it. *)
Definition example_prices : list (string * list Trader.MarketPriceRecord) :=
  [ ("K89", [ {| Trader.rec_type := "EXPORT";
                 Trader.rec_trade_symbol := "CLOTHING";
                 Trader.rec_purchase_price := 3182;
                 Trader.rec_sell_price := 1537;
                 Trader.rec_trade_volume := 20;
                 Trader.rec_supply := "HIGH";
                 Trader.rec_activity := Some "WEAK" |} ]);
    ("A1", [ {| Trader.rec_type := "IMPORT";
                Trader.rec_trade_symbol := "CLOTHING";
                Trader.rec_purchase_price := 9884;
                Trader.rec_sell_price := 4790;
                Trader.rec_trade_volume := 20;
                Trader.rec_supply := "LIMITED";
                Trader.rec_activity := Some "WEAK" |} ]) ].

Definition example_market_coords : gmap string (Z * Z) :=
  {[ "A1" := (0, 0); "K89" := (60, 70) ]}.

End TraderSpec.

Module StateSpec.

(** [claims] is a dictionary whose values are pairwise distinct: no two
    ships claim the same route. *)
Definition exclusive (claims : list (string * State.Route)) : Prop :=
  NoDup claims.*1 ∧ NoDup claims.*2.

Definition route_of (r : Trader.TradeRoute) : State.Route :=
  (Trader.route_good r, Trader.route_source r, Trader.route_destination r).

(** One loaded system in which another ship has claimed a route. *)
Definition example_systems : State.Systems :=
  {[ "X1-AB" :=
       State.with_claims (State.from_waypoints "X1-AB" [])
         [("S-2", ("FOOD", "K89", "A1"))] ]}.

End StateSpec.

Module ClientSpec.
Import Client.
Local Open Scope Z_scope.

(** A rate-limited answer that asks to wait 7 seconds, and a plain one. *)
Definition limited : Response :=
  {| status_code := 429; retry_after := Some "7";
     body := {| error := Some (ErrObject (Some 429) (Some "slow down") None);
                content := "" |} |}.

Definition plain : Response :=
  {| status_code := 200; retry_after := None;
     body := {| error := None; content := "{}" |} |}.

Definition idle_client : ClientState :=
  {| consecutive_failures := 0; sleeps := []; acquired := 0 |}.

(** Another task counts a failure of its own while this call waits for
    its token. *)
Definition busy : Meanwhile :=
  {| during_acquire := λ n, n + 1; during_http := λ n, n |}.

(** An answer that reports a client error. *)
Definition not_found : Response :=
  {| status_code := 404; retry_after := None;
     body := {| error := Some (ErrObject (Some 4000) (Some "no such ship")
                                 None);
                content := "" |} |}.

(** A server that holds [items], serves them in pages of [limit] items,
    pages counted from 1, and reports how many it holds. *)
Definition serve {Item} (items : list Item) (page limit : Z)
  : option (Page Item) :=
  Some {| page_data :=
            Some (take (Z.to_nat limit)
                    (drop (Z.to_nat ((page - 1) * limit)) items));
          page_meta :=
            Some {| meta_total := Z.of_nat (length items);
                    meta_page := page; meta_limit := limit |} |}.

End ClientSpec.

Module ContractorSpec.
Import Contractor.
Local Open Scope Z_scope.

(** A contract for 10 units of a good that no cached market sells. *)
Definition example_delivery : ContractDelivery :=
  {| trade_symbol := "IRON_ORE"; destination_symbol := "X1-A1";
     units_required := 10; units_fulfilled := 0 |}.

Definition example_contract : Contract :=
  {| id := "c1";
     terms := {| payment := {| on_accepted := 1000; on_fulfilled := 9000 |};
                 deliver := [example_delivery] |};
     accepted := false; fulfilled := false |}.

Definition empty_store (good system : string) : option MarketPriceRecord :=
  None.

(** The units of a delivery line still to be delivered. *)
Definition remaining (d : ContractDelivery) : Z :=
  units_required d - units_fulfilled d.

(** What buying the units still to be delivered costs at the best cached
    prices. *)
Definition purchase_cost
    (find_best_buy : string → string → option MarketPriceRecord)
    (system : string) (ds : list ContractDelivery) : Z :=
  foldr (λ d acc,
           (if 0 <? remaining d then
              match find_best_buy (trade_symbol d) system with
              | Some best => purchase_price best * remaining d
              | None => 0
              end
            else 0) + acc)
        0 ds.

(** A store with one price for every good. *)
Definition flat_store (price : Z) (good system : string)
  : option MarketPriceRecord :=
  Some {| waypoint_symbol := "X1-M1"; purchase_price := price |}.

End ContractorSpec.

(* ===================================================================== *)
(** ** Properties of the strategy *)
(* ===================================================================== *)

Section StrategyFacts.
Import Missions Strategy StrategySpec.
Local Open Scope Z_scope.

Implicit Types (plan : gmap string ShipAssignment).
Implicit Types (l ships : list ShipCapability) (s : ShipCapability).

Lemma assign_all_cons a s l plan :
  assign_all a (s :: l) plan = assign_all a l (<[symbol s := a]> plan).
Proof. reflexivity. Qed.

Lemma assign_all_app a l1 l2 plan :
  assign_all a (l1 ++ l2) plan = assign_all a l2 (assign_all a l1 plan).
Proof. apply foldl_app. Qed.

Lemma lookup_assign_all a l plan k :
  assign_all a l plan !! k
  = if bool_decide (k ∈ symbol <$> l) then Some a else plan !! k.
Proof.
  revert plan. induction l as [|s l IH]; intros plan.
  - rewrite bool_decide_eq_false_2; [done | set_solver].
  - rewrite assign_all_cons, IH, fmap_cons.
    destruct (decide (k = symbol s)) as [->|Hne].
    + rewrite lookup_insert_eq.
      rewrite (bool_decide_eq_true_2 (symbol s ∈ symbol s :: _)) by set_solver.
      by case_bool_decide.
    + rewrite lookup_insert_ne by done.
      case_bool_decide as H1; case_bool_decide as H2; try done; set_solver.
Qed.

Lemma dom_assign_all a l plan :
  dom (assign_all a l plan) = dom plan ∪ list_to_set (symbol <$> l).
Proof.
  revert plan. induction l as [|s l IH]; intros plan.
  - set_solver.
  - rewrite assign_all_cons, IH, dom_insert_L. set_solver.
Qed.

Lemma partition_step_spec skip ov plan probes cargo_ships s :
  partition_step skip ov (plan, probes, cargo_ships) s
  = (park_directly skip ov plan s,
     probes ++ (if is_probe skip ov s then [s] else []),
     cargo_ships ++ (if is_cargo skip ov s then [s] else [])).
Proof.
  unfold partition_step, park_directly, direct, is_probe, is_cargo, commandable.
  destruct (decide (symbol s ∈ skip)) as [Hskip|Hskip].
  { rewrite !(bool_decide_eq_true_2 _ Hskip). cbn [negb andb].
    by rewrite !app_nil_r. }
  rewrite !(bool_decide_eq_false_2 _ Hskip). cbn [negb andb].
  destruct (ov !! symbol s) as [str|] eqn:Hov.
  { rewrite bool_decide_eq_false_2 by done. cbn [andb default].
    rewrite !app_nil_r. by destruct (of_value str). }
  rewrite bool_decide_eq_true_2 by done. cbn [andb].
  destruct (String.eqb_spec (category s) "disabled") as [Hd|Hd].
  { rewrite Hd. cbn. by rewrite !app_nil_r. }
  destruct (String.eqb_spec (category s) "sentinel") as [Hs|Hs].
  { rewrite Hs. cbn. by rewrite !app_nil_r. }
  destruct (String.eqb_spec (category s) "probe") as [Hp|Hp].
  { rewrite Hp. cbn. by rewrite !app_nil_r. }
  destruct (String.eqb_spec (category s) "ship") as [Hc|Hc];
    by rewrite !app_nil_r.
Qed.

Lemma partition_spec skip ov ships plan probes cargo_ships :
  foldl (partition_step skip ov) (plan, probes, cargo_ships) ships
  = (foldl (park_directly skip ov) plan ships,
     probes ++ List.filter (is_probe skip ov) ships,
     cargo_ships ++ List.filter (is_cargo skip ov) ships).
Proof.
  revert plan probes cargo_ships.
  induction ships as [|s ships IH]; intros plan probes cargo_ships;
    cbn [foldl List.filter].
  - by rewrite !app_nil_r.
  - rewrite partition_step_spec, IH, <- !app_assoc.
    by destruct (is_probe skip ov s), (is_cargo skip ov s).
Qed.

Lemma dom_park_directly skip ov ships plan :
  dom (foldl (park_directly skip ov) plan ships)
  = dom plan ∪ list_to_set
      (symbol <$> List.filter (λ s, bool_decide (is_Some (direct skip ov s)))
                    ships).
Proof.
  revert plan. induction ships as [|s ships IH]; intros plan;
    cbn [foldl List.filter].
  - set_solver.
  - rewrite IH. unfold park_directly.
    destruct (direct skip ov s) as [a|] eqn:Hd.
    + rewrite bool_decide_eq_true_2 by by eexists.
      rewrite dom_insert_L. set_solver.
    + rewrite bool_decide_eq_false_2; [done|]. by intros [? ?].
Qed.

(** A symbol all of whose ships are parked with the same assignment. *)
Lemma lookup_park_directly skip ov ships plan k a :
  (∀ s, s ∈ ships → symbol s = k → direct skip ov s = Some a) →
  (plan !! k = Some a ∨ ∃ s, s ∈ ships ∧ symbol s = k) →
  foldl (park_directly skip ov) plan ships !! k = Some a.
Proof.
  revert plan. induction ships as [|s ships IH]; intros plan Hall Hex; simpl.
  - destruct Hex as [?|(s & Hs & _)]; [done | by apply elem_of_nil in Hs].
  - apply IH; [intros s' Hs'; apply Hall; set_solver |].
    unfold park_directly.
    destruct (decide (symbol s = k)) as [Hk|Hk].
    + left. rewrite (Hall s) by (done || set_solver).
      rewrite <- Hk. apply lookup_insert_eq.
    + destruct Hex as [Hp|(s' & Hs' & Hk')].
      * left. destruct (direct skip ov s); [by rewrite lookup_insert_ne | done].
      * right. exists s'. split; [|done].
        apply elem_of_cons in Hs' as [->|?]; [congruence | done].
Qed.

(** Symbols no ship of which is parked directly stay out of the plan. *)
Lemma lookup_park_directly_None skip ov ships plan k :
  (∀ s, s ∈ ships → symbol s = k → direct skip ov s = None) →
  foldl (park_directly skip ov) plan ships !! k = plan !! k.
Proof.
  revert plan. induction ships as [|s ships IH]; intros plan Hall; simpl.
  - done.
  - rewrite IH by (intros s' Hs'; apply Hall; set_solver).
    unfold park_directly.
    destruct (direct skip ov s) as [a|] eqn:Hd; [|done].
    apply lookup_insert_ne. intros Hk.
    rewrite (Hall s) in Hd by (done || set_solver). done.
Qed.

Lemma direct_probe skip ov s : is_probe skip ov s = true → direct skip ov s = None.
Proof.
  unfold is_probe, commandable, direct. intros H.
  apply andb_true_iff in H as [H Hp]. apply andb_true_iff in H as [Hs Ho].
  apply negb_true_iff, bool_decide_eq_false in Hs.
  apply bool_decide_eq_true in Ho.
  rewrite bool_decide_eq_false_2, Ho, Hp by done. done.
Qed.

Lemma direct_cargo skip ov s : is_cargo skip ov s = true → direct skip ov s = None.
Proof.
  unfold is_cargo, commandable, direct. intros H.
  apply andb_true_iff in H as [H Hp]. apply andb_true_iff in H as [Hs Ho].
  apply negb_true_iff, bool_decide_eq_false in Hs.
  apply bool_decide_eq_true in Ho.
  rewrite bool_decide_eq_false_2, Ho, Hp by done.
  by destruct (String.eqb (category s) "probe").
Qed.

Lemma direct_cases skip ov s :
  is_Some (direct skip ov s) ∨ is_probe skip ov s = true
  ∨ is_cargo skip ov s = true.
Proof.
  unfold is_probe, is_cargo, commandable, direct.
  case_bool_decide; simpl; [by left; eexists|].
  destruct (ov !! symbol s) eqn:Ho; simpl; [by left; eexists|].
  destruct (String.eqb (category s) "probe"); [by right; left|].
  destruct (String.eqb (category s) "ship"); [by right; right|].
  by left; eexists.
Qed.

Lemma probe_not_cargo skip ov s :
  is_probe skip ov s = true → is_cargo skip ov s = true → False.
Proof.
  unfold is_probe, is_cargo. intros H1 H2.
  apply andb_true_iff in H1 as [_ H1]. apply andb_true_iff in H2 as [_ H2].
  apply String.eqb_eq in H1. apply String.eqb_eq in H2. congruence.
Qed.

Lemma elem_of_bfilter (f : ShipCapability → bool) ships s :
  s ∈ List.filter f ships ↔ s ∈ ships ∧ f s = true.
Proof. rewrite !list_elem_of_In. apply filter_In. Qed.

(** *** The stable sort by decreasing capacity *)

Lemma insert_desc_perm s l : insert_desc s l ≡ₚ s :: l.
Proof.
  induction l as [|y l IH]; cbn [insert_desc]; [done|].
  destruct (cargo s <? cargo y); [|done].
  rewrite IH. apply Permutation_swap.
Qed.

Lemma sort_desc_perm l : sort_desc l ≡ₚ l.
Proof.
  induction l as [|s l IH]; [done|].
  cbn [sort_desc foldr]. fold (sort_desc l).
  by rewrite insert_desc_perm, IH.
Qed.

Lemma insert_desc_sorted s l :
  StronglySorted by_capacity_desc l →
  StronglySorted by_capacity_desc (insert_desc s l).
Proof.
  induction 1 as [|y l Hl IH Hy]; cbn [insert_desc].
  - repeat constructor.
  - destruct (Z.ltb_spec (cargo s) (cargo y)) as [Hlt|Hge].
    + constructor; [done|].
      rewrite insert_desc_perm. constructor; [unfold by_capacity_desc; lia | done].
    + constructor; [by constructor|].
      constructor; [done|].
      eapply Forall_impl; [exact Hy|].
      unfold by_capacity_desc. intros z Hz. lia.
Qed.

Lemma sort_desc_sorted l : StronglySorted by_capacity_desc (sort_desc l).
Proof.
  induction l as [|s l IH]; [constructor|].
  cbn [sort_desc foldr]. by apply insert_desc_sorted.
Qed.

(** Ships of equal capacity keep the order of the input. *)
Lemma insert_desc_stable c s l :
  List.filter (λ x, cargo x =? c) (insert_desc s l)
  = List.filter (λ x, cargo x =? c) (s :: l).
Proof.
  induction l as [|y l IH]; cbn [insert_desc]; [done|].
  destruct (Z.ltb_spec (cargo s) (cargo y)) as [Hlt|Hge]; [|done].
  cbn [List.filter] in *. rewrite IH.
  destruct (Z.eqb_spec (cargo s) c), (Z.eqb_spec (cargo y) c); (done || lia).
Qed.

Lemma sort_desc_stable c l :
  List.filter (λ x, cargo x =? c) (sort_desc l)
  = List.filter (λ x, cargo x =? c) l.
Proof.
  induction l as [|s l IH]; [done|].
  cbn [sort_desc foldr]. fold (sort_desc l).
  rewrite insert_desc_stable. cbn [List.filter]. by rewrite IH.
Qed.

Lemma assign_contracts_spec n plan l :
  (n ≤ length l)%nat →
  assign_contracts n plan l
  = (assign_all (assignment CONTRACT) (take n l) plan, drop n l).
Proof.
  revert plan l. induction n as [|n IH]; intros plan [|s l] Hn;
    cbn [assign_contracts take drop]; try done.
  rewrite IH by (cbn [length] in Hn; lia). done.
Qed.

(** *** The plan in closed form *)

Lemma evaluate_closed_form capital credits ships cur hac cp gns mra skip
    overrides :
  assignments (evaluate capital credits ships cur hac cp gns mra skip overrides)
  = let ov := default ∅ overrides in
    let plan1 := assign_all (assignment SCAN) (List.filter (is_probe skip ov) ships)
                   (foldl (park_directly skip ov) ∅ ships) in
    let cargo_ships := List.filter (is_cargo skip ov) ships in
    if credits <? idle_threshold capital
    then assign_all (assignment IDLE) cargo_ships plan1
    else decided capital credits hac cp gns mra plan1 (sort_desc cargo_ships).
Proof.
  unfold evaluate. rewrite partition_spec. cbn [app]. cbv zeta.
  destruct (credits <? idle_threshold capital); [done|].
  unfold decided, gate_count, contract_count, rest_assignment.
  generalize (assign_all (assignment SCAN)
                (List.filter (is_probe skip (default ∅ overrides)) ships)
                (foldl (park_directly skip (default ∅ overrides)) ∅ ships)).
  generalize (sort_desc (List.filter (is_cargo skip (default ∅ overrides)) ships)).
  intros sorted plan1.
  assert (Hgate :
    (if gns && (gate_floor capital <=? credits)
     then match sorted with
          | gate_ship :: rest =>
              (<[symbol gate_ship := gate_assignment capital]> plan1, rest)
          | [] => (plan1, sorted)
          end
     else (plan1, sorted))
    = (assign_all (gate_assignment capital)
         (take (if gns && (gate_floor capital <=? credits)
                   && negb (Nat.eqb (length sorted) 0) then 1%nat else 0%nat)
               sorted) plan1,
       drop (if gns && (gate_floor capital <=? credits)
                && negb (Nat.eqb (length sorted) 0) then 1%nat else 0%nat)
            sorted)).
  { destruct (gns && (gate_floor capital <=? credits)); [|done].
    destruct sorted as [|s0 rest]; [done|]. cbn. by rewrite take_0. }
  unfold gate_assignment in *. rewrite Hgate. clear Hgate.
  set (g := if gns && (gate_floor capital <=? credits)
               && negb (Nat.eqb (length sorted) 0) then 1%nat else 0%nat).
  set (plan2 := assign_all _ (take g sorted) plan1).
  rewrite <- (length_drop sorted g).
  generalize (drop g sorted). intros rest.
  destruct (hac && cp).
  - rewrite assign_contracts_spec by lia.
    by destruct (mra && (trade_min capital <=? credits)).
  - rewrite take_0, drop_0.
    by destruct (mra && (trade_min capital <=? credits)).
Qed.

(** *** Looking a ship up by its rank *)

Lemma symbol_in_take l i s n :
  NoDup (symbol <$> l) → l !! i = Some s →
  symbol s ∈ symbol <$> take n l ↔ (i < n)%nat.
Proof.
  intros Hnd Hi. rewrite fmap_take, elem_of_take. split.
  - intros (j & Hj & Hlt).
    assert (i = j) as ->; [|done].
    eapply NoDup_lookup; [exact Hnd| |exact Hj].
    by rewrite list_lookup_fmap, Hi.
  - intros Hlt. exists i. by rewrite list_lookup_fmap, Hi.
Qed.

Lemma symbol_in_drop l i s n :
  NoDup (symbol <$> l) → l !! i = Some s →
  symbol s ∈ symbol <$> drop n l ↔ (n ≤ i)%nat.
Proof.
  intros Hnd Hi. rewrite fmap_drop, list_elem_of_lookup. split.
  - intros (j & Hj). rewrite lookup_drop in Hj.
    assert (i = (n + j)%nat) as ->; [|lia].
    eapply NoDup_lookup; [exact Hnd| |exact Hj].
    by rewrite list_lookup_fmap, Hi.
  - intros Hle. exists (i - n)%nat. rewrite lookup_drop.
    replace (n + (i - n))%nat with i by lia.
    by rewrite list_lookup_fmap, Hi.
Qed.

Lemma symbol_in_take_drop l i s g c :
  NoDup (symbol <$> l) → l !! i = Some s →
  symbol s ∈ symbol <$> take c (drop g l) ↔ (g ≤ i < g + c)%nat.
Proof.
  intros Hnd Hi. rewrite fmap_take, fmap_drop, elem_of_take. split.
  - intros (j & Hj & Hlt). rewrite lookup_drop in Hj.
    assert (i = (g + j)%nat) as ->; [|lia].
    eapply NoDup_lookup; [exact Hnd| |exact Hj].
    by rewrite list_lookup_fmap, Hi.
  - intros [Hle Hlt]. exists (i - g)%nat. rewrite lookup_drop.
    replace (g + (i - g))%nat with i by lia.
    rewrite list_lookup_fmap, Hi. split; [done | lia].
Qed.

Lemma lookup_decided capital credits hac cp gns mra plan sorted i s :
  NoDup (symbol <$> sorted) → sorted !! i = Some s →
  decided capital credits hac cp gns mra plan sorted !! symbol s
  = Some (expected capital credits hac cp gns mra (length sorted) i).
Proof.
  intros Hnd Hi. unfold decided, expected.
  set (g := gate_count capital credits gns (length sorted)).
  set (c := contract_count hac cp (length sorted - g)).
  rewrite !lookup_assign_all.
  pose proof (symbol_in_take sorted i s g Hnd Hi) as Htake.
  pose proof (symbol_in_take_drop sorted i s g c Hnd Hi) as Hmid.
  pose proof (symbol_in_drop sorted i s (g + c) Hnd Hi) as Hdrop.
  rewrite <- drop_drop in Hdrop.
  destruct (Nat.ltb_spec i g) as [Hg|Hg];
    [|destruct (Nat.ltb_spec i (g + c)) as [Hc|Hc]];
    repeat case_bool_decide; try done; exfalso; intuition lia.
Qed.

Lemma lookup_decided_other capital credits hac cp gns mra plan sorted k :
  k ∉ symbol <$> sorted →
  decided capital credits hac cp gns mra plan sorted !! k = plan !! k.
Proof.
  intros Hk. unfold decided. rewrite !lookup_assign_all.
  assert (Hsub : ∀ l, l `sublist_of` sorted → k ∉ symbol <$> l).
  { intros l Hl Hin. apply Hk.
    eapply elem_of_sublist; [exact Hin|]. by apply fmap_sublist. }
  rewrite !bool_decide_eq_false_2; [done|..]; apply Hsub.
  - apply sublist_take.
  - etrans; [apply sublist_take | apply sublist_drop].
  - etrans; apply sublist_drop.
Qed.

Lemma dom_decided capital credits hac cp gns mra plan sorted :
  dom (decided capital credits hac cp gns mra plan sorted)
  = dom plan ∪ list_to_set (symbol <$> sorted).
Proof.
  unfold decided. rewrite !dom_assign_all.
  set (g := gate_count _ _ _ _). set (c := contract_count _ _ _).
  rewrite <- (take_drop g sorted) at 4.
  rewrite <- (take_drop c (drop g sorted)) at 3.
  rewrite !fmap_app, !list_to_set_app_L. set_solver.
Qed.

Lemma symbol_inj ships s s' :
  NoDup (symbol <$> ships) → s ∈ ships → s' ∈ ships →
  symbol s = symbol s' → s = s'.
Proof.
  intros Hnd Hs Hs' Heq.
  apply list_elem_of_lookup in Hs as [i Hi].
  apply list_elem_of_lookup in Hs' as [j Hj].
  assert (i = j) as ->; [|congruence].
  eapply (NoDup_lookup _ _ _ (symbol s) Hnd);
    rewrite list_lookup_fmap; [by rewrite Hi | by rewrite Hj, Heq].
Qed.

Lemma NoDup_symbols_filter (f : ShipCapability → bool) ships :
  NoDup (symbol <$> ships) → NoDup (symbol <$> List.filter f ships).
Proof.
  induction ships as [|s ships IH]; [done|].
  rewrite fmap_cons, NoDup_cons. intros [Hs Hnd]. cbn [List.filter].
  destruct (f s); [|by apply IH].
  rewrite fmap_cons, NoDup_cons. split; [|by apply IH].
  intros Hin. apply Hs.
  apply list_elem_of_fmap in Hin as (s' & -> & Hs').
  apply elem_of_bfilter in Hs' as [Hs' _]. by apply list_elem_of_fmap_2.
Qed.

Lemma commandable_lookup skip ov s :
  commandable skip ov s = true → (symbol s ∉ skip) ∧ (ov !! symbol s = None).
Proof.
  unfold commandable. intros H. apply andb_true_iff in H as [H1 H2].
  apply negb_true_iff, bool_decide_eq_false in H1.
  by apply bool_decide_eq_true in H2.
Qed.

Lemma changes_from_lookup (plan : FleetPlan)
    (current : gmap string MissionType) sym :
  changes_from plan current !! sym
  = new ← assignments plan !! sym;
    let old := default IDLE (current !! sym) in
    if bool_decide (mission new ≠ old) then Some (old, new) else None.
Proof.
  unfold changes_from.
  apply (map_fold_weak_ind
    (λ changes (m : gmap string ShipAssignment),
       changes !! sym
       = new ← m !! sym;
         let old := default IDLE (current !! sym) in
         if bool_decide (mission new ≠ old) then Some (old, new) else None)).
  - by rewrite !lookup_empty.
  - intros k new m changes Hk IH.
    destruct (decide (k = sym)) as [->|Hne].
    + rewrite lookup_insert_eq. cbn [mbind option_bind].
      rewrite Hk in IH. cbn [mbind option_bind] in IH.
      case_bool_decide; [by rewrite lookup_insert_eq | done].
    + rewrite (lookup_insert_ne m) by done. rewrite <- IH.
      case_bool_decide; [by rewrite lookup_insert_ne | done].
Qed.

(** C1, as the code has it.  For ships of pairwise distinct symbols: with
    credits at or above the idle threshold the plan follows the decision
    order: every probe scans; the cargo ships are ranked by decreasing
    capacity; the first builds the gate (with the capital floor as keyword
    argument) when the gate needs supplies and the credits reach the gate
    floor; up to two of the next run the contract when one is active and
    profitable; every remaining one trades when routes exist and the
    credits reach the trade minimum, and idles otherwise.  With credits
    below the idle threshold every cargo ship idles and the probes still
    scan. *)
Theorem evaluate_decision_order capital credits ships cur hac cp gns mra skip
    overrides :
  NoDup (symbol <$> ships) →
  let ov := default ∅ overrides in
  let plan :=
    assignments (evaluate capital credits ships cur hac cp gns mra skip
                   overrides) in
  (∀ s, s ∈ ships → is_probe skip ov s = true →
        plan !! symbol s = Some (assignment SCAN))
  ∧ (credits < idle_threshold capital →
     ∀ s, s ∈ ships → is_cargo skip ov s = true →
          plan !! symbol s = Some (assignment IDLE))
  ∧ (idle_threshold capital ≤ credits →
     ∃ sorted,
       sorted ≡ₚ List.filter (is_cargo skip ov) ships
       ∧ StronglySorted by_capacity_desc sorted
       ∧ ∀ i s, sorted !! i = Some s →
           plan !! symbol s
           = Some (expected capital credits hac cp gns mra (length sorted) i)).
Proof.
  intros Hnd ov plan. subst plan. rewrite evaluate_closed_form. cbv zeta.
  fold ov.
  set (plan0 := foldl (park_directly skip ov) ∅ ships).
  set (probes := List.filter (is_probe skip ov) ships).
  set (cargo_ships := List.filter (is_cargo skip ov) ships).
  assert (Hsorted : sort_desc cargo_ships ≡ₚ cargo_ships)
    by apply sort_desc_perm.
  assert (Hprobe : ∀ s, s ∈ ships → is_probe skip ov s = true →
            symbol s ∉ symbol <$> cargo_ships).
  { intros s Hs Hp Hin.
    apply list_elem_of_fmap in Hin as (s' & Heq & Hs').
    apply elem_of_bfilter in Hs' as [Hs' Hc].
    assert (s = s') as <- by by eapply symbol_inj.
    by eapply probe_not_cargo. }
  split; [|split].
  - intros s Hs Hp.
    assert (Hin : symbol s ∈ symbol <$> probes).
    { apply list_elem_of_fmap_2, elem_of_bfilter. done. }
    destruct (credits <? idle_threshold capital).
    + rewrite !lookup_assign_all.
      rewrite bool_decide_eq_false_2 by by apply Hprobe.
      by rewrite bool_decide_eq_true_2.
    + rewrite lookup_decided_other, lookup_assign_all.
      * by rewrite bool_decide_eq_true_2.
      * rewrite Hsorted. by apply Hprobe.
  - intros Hlow s Hs Hc.
    apply Z.ltb_lt in Hlow. rewrite Hlow, lookup_assign_all.
    rewrite bool_decide_eq_true_2; [done|].
    apply list_elem_of_fmap_2, elem_of_bfilter. done.
  - intros Hhigh. apply Z.ltb_ge in Hhigh. rewrite Hhigh.
    exists (sort_desc cargo_ships). split; [done|].
    split; [apply sort_desc_sorted|].
    intros i s Hi. apply lookup_decided; [|done].
    rewrite Hsorted. by apply NoDup_symbols_filter.
Qed.

(** C1, the case it misses: the plan is keyed by ship symbol, so of two
    cargo ships that share a symbol the later assignment overwrites the
    earlier one.  Here the larger ship is given GATE_BUILD and the smaller
    one TRADE under the same key: the plan holds TRADE for the largest
    cargo ship. *)
Lemma shared_symbol_overwrites_gate_build :
  let largest := {| symbol := "S-1"; cargo := 80; fuel := 400;
                    category := "ship"; current_mission := IDLE |} in
  let smaller := {| symbol := "S-1"; cargo := 40; fuel := 400;
                    category := "ship"; current_mission := IDLE |} in
  sort_desc [largest; smaller] = [largest; smaller]
  ∧ assignments (evaluate default_capital 350000 [largest; smaller] ∅
                   false true true true ∅ None) !! symbol largest
    = Some (assignment TRADE).
Proof. split; by vm_compute. Qed.

(** C6. The plan holds an assignment for exactly the symbols of the input
    ships, and [changes_from] holds exactly the entries of the plan whose
    mission differs from the current one, a ship without a current mission
    counting as idle. *)
Theorem plan_covers_ships_and_reports_changes :
  (∀ capital credits ships cur hac cp gns mra skip overrides,
     dom (assignments (evaluate capital credits ships cur hac cp gns mra
                         skip overrides))
     = list_to_set (symbol <$> ships))
  ∧ (∀ (plan : FleetPlan) (current : gmap string MissionType) sym old new,
       changes_from plan current !! sym = Some (old, new)
       ↔ assignments plan !! sym = Some new
         ∧ old = default IDLE (current !! sym)
         ∧ mission new ≠ old).
Proof.
  split.
  - intros. rewrite evaluate_closed_form. cbv zeta.
    set (ov := default ∅ overrides).
    assert (Hall :
      dom (foldl (park_directly skip ov) ∅ ships)
      ∪ list_to_set (symbol <$> List.filter (is_probe skip ov) ships)
      ∪ list_to_set (symbol <$> List.filter (is_cargo skip ov) ships)
      = list_to_set (symbol <$> ships)).
    { rewrite dom_park_directly, dom_empty_L. apply set_eq. intros k.
      rewrite !elem_of_union, !elem_of_list_to_set, !list_elem_of_fmap.
      setoid_rewrite elem_of_bfilter. split.
      - intros [[[Hk|(s & -> & Hs & _)]|(s & -> & Hs & _)]|(s & -> & Hs & _)];
          [by apply not_elem_of_empty in Hk | by exists s..].
      - intros (s & -> & Hs).
        destruct (direct_cases skip ov s) as [Hd|[Hp|Hc]].
        + left; left; right. exists s. by rewrite bool_decide_eq_true_2.
        + left; right. by exists s.
        + right. by exists s. }
    destruct (credits <? idle_threshold capital).
    + by rewrite !dom_assign_all.
    + rewrite dom_decided, dom_assign_all, sort_desc_perm. done.
  - intros plan current sym old new. rewrite changes_from_lookup.
    destruct (assignments plan !! sym) as [new'|]; cbn [mbind option_bind].
    + case_bool_decide as Hne; split.
      * intros [= <- <-]. done.
      * intros ([= ->] & -> & _). done.
      * done.
      * intros ([= ->] & -> & Hd). done.
    + split; [done | by intros [? _]].
Qed.

(** C8. A ship whose override is a string that names no mission kind is
    assigned IDLE. *)
Theorem invalid_override_degrades_to_idle capital credits ships cur hac cp
    gns mra skip overrides s str :
  s ∈ ships →
  default ∅ overrides !! symbol s = Some str →
  of_value str = None →
  assignments (evaluate capital credits ships cur hac cp gns mra skip
                 overrides) !! symbol s
  = Some (assignment IDLE).
Proof.
  intros Hs Hov Hbad. rewrite evaluate_closed_form. cbv zeta.
  set (ov := default ∅ overrides) in *.
  assert (Hout : ∀ f, (∀ x, f x = true → commandable skip ov x = true) →
            symbol s ∉ symbol <$> List.filter f ships).
  { intros f Hf Hin. apply list_elem_of_fmap in Hin as (s' & Heq & Hs').
    apply elem_of_bfilter in Hs' as [_ Hc].
    apply Hf, commandable_lookup in Hc as [_ Hc]. congruence. }
  assert (Hp := Hout (is_probe skip ov)
                  (λ x H, proj1 (proj1 (andb_true_iff _ _) H))).
  assert (Hc := Hout (is_cargo skip ov)
                  (λ x H, proj1 (proj1 (andb_true_iff _ _) H))).
  assert (Hparked :
    foldl (park_directly skip ov) ∅ ships !! symbol s = Some (assignment IDLE)).
  { apply lookup_park_directly; [|right; by exists s].
    intros s' _ Heq. unfold direct. rewrite Heq, Hov.
    case_bool_decide; [done|]. by rewrite Hbad. }
  destruct (credits <? idle_threshold capital).
  - rewrite !lookup_assign_all, !bool_decide_eq_false_2 by done. done.
  - rewrite lookup_decided_other by by rewrite sort_desc_perm.
    rewrite lookup_assign_all, bool_decide_eq_false_2 by done. done.
Qed.

(** *** Skipped ships, overrides and head counts *)

Lemma lookup_evaluate_direct capital credits ships cur hac cp gns mra skip
    overrides k a :
  (∀ s, s ∈ ships → symbol s = k →
        direct skip (default ∅ overrides) s = Some a) →
  (∃ s, s ∈ ships ∧ symbol s = k) →
  assignments (evaluate capital credits ships cur hac cp gns mra skip
                 overrides) !! k
  = Some a.
Proof.
  intros Hdirect Hex. rewrite evaluate_closed_form. cbv zeta.
  set (ov := default ∅ overrides) in *.
  assert (Hout : ∀ f, (∀ x, f x = true → direct skip ov x = None) →
            k ∉ symbol <$> List.filter f ships).
  { intros f Hf Hin. apply list_elem_of_fmap in Hin as (s' & Heq & Hs').
    apply elem_of_bfilter in Hs' as [Hs' Hc].
    apply Hf in Hc. rewrite (Hdirect s' Hs' (eq_sym Heq)) in Hc. done. }
  assert (Hp := Hout (is_probe skip ov) (direct_probe skip ov)).
  assert (Hc := Hout (is_cargo skip ov) (direct_cargo skip ov)).
  assert (Hparked :
    foldl (park_directly skip ov) ∅ ships !! k = Some a)
    by (apply lookup_park_directly; [done | by right]).
  destruct (credits <? idle_threshold capital).
  - rewrite !lookup_assign_all, !bool_decide_eq_false_2 by done. done.
  - rewrite lookup_decided_other by by rewrite sort_desc_perm.
    rewrite lookup_assign_all, bool_decide_eq_false_2 by done. done.
Qed.

(** A ship on the skip list idles, whatever its category, its override
    and the credits. *)
Theorem skipped_ship_is_idle capital credits ships cur hac cp gns mra skip
    overrides s :
  s ∈ ships → symbol s ∈ skip →
  assignments (evaluate capital credits ships cur hac cp gns mra skip
                 overrides) !! symbol s
  = Some (assignment IDLE).
Proof.
  intros Hs Hskip. apply lookup_evaluate_direct; [|by exists s].
  intros s' _ Heq. unfold direct. rewrite Heq.
  by rewrite bool_decide_eq_true_2.
Qed.

(** A ship that is not skipped and whose override names a mission kind is
    given that mission with no keyword argument, whatever its category,
    the credits and the flags. *)
Theorem valid_override_is_honoured capital credits ships cur hac cp gns mra
    skip overrides s str m :
  s ∈ ships → symbol s ∉ skip →
  default ∅ overrides !! symbol s = Some str →
  of_value str = Some m →
  assignments (evaluate capital credits ships cur hac cp gns mra skip
                 overrides) !! symbol s
  = Some {| mission := m; kwargs := ∅ |}.
Proof.
  intros Hs Hskip Hov Hm. apply lookup_evaluate_direct; [|by exists s].
  intros s' _ Heq. unfold direct. rewrite Heq, Hov.
  rewrite bool_decide_eq_false_2 by done. by rewrite Hm.
Qed.

Lemma bfilter_perm (f : ShipCapability → bool) l l' :
  l ≡ₚ l' → List.filter f l ≡ₚ List.filter f l'.
Proof.
  induction 1 as [|x l l' _ IH|x y l|l l' l'' _ IH1 _ IH2];
    cbn [List.filter].
  - done.
  - destruct (f x); by rewrite IH.
  - destruct (f x), (f y); (done || apply perm_swap).
  - by etrans.
Qed.

Lemma count_by_rank (f : ShipCapability → bool) l : ∀ a b : nat,
  (∀ i s, l !! i = Some s → f s = true → (a ≤ i < b)%nat) →
  (length (List.filter f l) ≤ b - a)%nat.
Proof.
  induction l as [|x l IH]; intros a b H; cbn [List.filter length]; [lia|].
  assert (Hl : (length (List.filter f l) ≤ (b - 1) - (a - 1))%nat).
  { apply IH. intros i s Hi Hf. specialize (H (S i) s Hi Hf). lia. }
  destruct (f x) eqn:Hx; cbn [length]; [|lia].
  specialize (H 0%nat x eq_refl Hx). lia.
Qed.

Lemma expected_mission capital credits hac cp gns mra n i :
  let g := gate_count capital credits gns n in
  let c := contract_count hac cp (n - g) in
  (g ≤ 1)%nat ∧ (c ≤ 2)%nat
  ∧ (mission (expected capital credits hac cp gns mra n i) = GATE_BUILD
     ↔ (i < g)%nat)
  ∧ (mission (expected capital credits hac cp gns mra n i) = CONTRACT
     ↔ (g ≤ i < g + c)%nat).
Proof.
  intros g c. unfold expected. fold g. fold c.
  assert (Hg : (g ≤ 1)%nat) by (subst g; unfold gate_count; case_match; lia).
  assert (Hc : (c ≤ 2)%nat)
    by (subst c; unfold contract_count; case_match; lia).
  split; [done|]. split; [done|].
  destruct (Nat.ltb_spec i g); [cbn; split; split; (done || lia)|].
  destruct (Nat.ltb_spec i (g + c)); [cbn; split; split; (done || lia)|].
  unfold rest_assignment. case_match; cbn; split; split; (done || lia).
Qed.

(** Among the ships of pairwise distinct symbols that the strategy
    decides for, at most one builds the gate and at most two run the
    contract. *)
Theorem gate_and_contract_head_counts capital credits ships cur hac cp gns
    mra skip overrides :
  NoDup (symbol <$> ships) →
  let ov := default ∅ overrides in
  let plan :=
    assignments (evaluate capital credits ships cur hac cp gns mra skip
                   overrides) in
  let running m :=
    List.filter (λ s, bool_decide (mission <$> plan !! symbol s = Some m))
      (List.filter (is_cargo skip ov) ships) in
  (length (running GATE_BUILD) ≤ 1)%nat
  ∧ (length (running CONTRACT) ≤ 2)%nat.
Proof.
  intros Hnd ov plan running. subst running plan.
  rewrite evaluate_closed_form. cbv zeta. fold ov.
  set (plan1 := assign_all (assignment SCAN)
                  (List.filter (is_probe skip ov) ships)
                  (foldl (park_directly skip ov) ∅ ships)).
  set (cargo_ships := List.filter (is_cargo skip ov) ships).
  destruct (credits <? idle_threshold capital).
  - assert (Hnone : ∀ m, m ≠ IDLE →
      length (List.filter
                (λ s, bool_decide
                        (mission <$> assign_all (assignment IDLE) cargo_ships
                                       plan1 !! symbol s = Some m))
                cargo_ships) = 0%nat).
    { intros m Hm. apply Nat.le_0_r.
      apply (count_by_rank _ cargo_ships 0 0). intros i s Hi Hf.
      apply bool_decide_eq_true_1 in Hf.
      rewrite lookup_assign_all, bool_decide_eq_true_2 in Hf.
      - cbn in Hf. congruence.
      - apply list_elem_of_fmap_2. by eapply list_elem_of_lookup_2. }
    rewrite !Hnone by done. lia.
  - set (sorted := sort_desc cargo_ships).
    assert (Hperm : sorted ≡ₚ cargo_ships) by apply sort_desc_perm.
    assert (Hnd' : NoDup (symbol <$> sorted))
      by (rewrite Hperm; by apply NoDup_symbols_filter).
    set (plan := decided capital credits hac cp gns mra plan1 sorted).
    pose proof (expected_mission capital credits hac cp gns mra
                  (length sorted)) as Hexp. cbv zeta in Hexp.
    set (g := gate_count capital credits gns (length sorted)) in *.
    set (c := contract_count hac cp (length sorted - g)) in *.
    assert (Hrank : ∀ m i s, sorted !! i = Some s →
              bool_decide (mission <$> plan !! symbol s = Some m) = true →
              mission (expected capital credits hac cp gns mra
                         (length sorted) i) = m).
    { intros m i s Hi Hf. apply bool_decide_eq_true_1 in Hf.
      subst plan. rewrite (lookup_decided _ _ _ _ _ _ _ _ i) in Hf by done.
      cbn in Hf. congruence. }
    split.
    + rewrite <- (bfilter_perm _ _ _ Hperm).
      etrans; [apply (count_by_rank _ sorted 0 g)|].
      * intros i s Hi Hf. apply (Hrank GATE_BUILD i s Hi) in Hf.
        apply (Hexp i) in Hf. lia.
      * specialize (Hexp 0%nat). lia.
    + rewrite <- (bfilter_perm _ _ _ Hperm).
      etrans; [apply (count_by_rank _ sorted g (g + c))|].
      * intros i s Hi Hf. apply (Hrank CONTRACT i s Hi) in Hf.
        by apply (Hexp i) in Hf.
      * specialize (Hexp 0%nat). lia.
Qed.

(** The capital floors are respected: a cargo ship the strategy decides
    for builds the gate only when the gate needs supplies and the credits
    reach the gate floor, runs the contract only when one is active and
    profitable, trades only when routes exist and the credits reach the
    trade minimum; none of the three below the idle threshold; and it
    never scans. *)
Theorem capital_floors_are_respected capital credits ships cur hac cp gns
    mra skip overrides s a :
  NoDup (symbol <$> ships) →
  s ∈ ships → is_cargo skip (default ∅ overrides) s = true →
  assignments (evaluate capital credits ships cur hac cp gns mra skip
                 overrides) !! symbol s = Some a →
  (mission a = GATE_BUILD →
     gns = true ∧ gate_floor capital ≤ credits
     ∧ idle_threshold capital ≤ credits)
  ∧ (mission a = CONTRACT →
     hac = true ∧ cp = true ∧ idle_threshold capital ≤ credits)
  ∧ (mission a = TRADE →
     mra = true ∧ trade_min capital ≤ credits
     ∧ idle_threshold capital ≤ credits)
  ∧ mission a ≠ SCAN.
Proof.
  intros Hnd Hs Hc. rewrite evaluate_closed_form. cbv zeta.
  set (ov := default ∅ overrides) in *.
  set (plan1 := assign_all (assignment SCAN)
                  (List.filter (is_probe skip ov) ships)
                  (foldl (park_directly skip ov) ∅ ships)).
  set (cargo_ships := List.filter (is_cargo skip ov) ships).
  assert (Hin : s ∈ cargo_ships) by by apply elem_of_bfilter.
  destruct (credits <? idle_threshold capital) eqn:Hlow.
  - rewrite lookup_assign_all, bool_decide_eq_true_2
      by by apply list_elem_of_fmap_2.
    intros [= <-]. cbn. done.
  - apply Z.ltb_ge in Hlow.
    set (sorted := sort_desc cargo_ships).
    assert (Hperm : sorted ≡ₚ cargo_ships) by apply sort_desc_perm.
    assert (Hnd' : NoDup (symbol <$> sorted))
      by (rewrite Hperm; by apply NoDup_symbols_filter).
    rewrite <- Hperm in Hin. apply list_elem_of_lookup in Hin as [i Hi].
    rewrite (lookup_decided _ _ _ _ _ _ _ _ i) by done. intros [= <-].
    unfold expected, gate_count, contract_count, rest_assignment,
      gate_assignment.
    destruct gns, hac, cp, mra; cbn [andb negb];
      repeat (case_match; cbn [mission assignment]);
      repeat match goal with
             | H : (_ <=? _) = true |- _ => apply Z.leb_le in H
             | H : (_ <? _)%nat = true |- _ => apply Nat.ltb_lt in H
             | H : (_ <? _)%nat = false |- _ => apply Nat.ltb_ge in H
             | H : _ && _ = true |- _ => apply andb_true_iff in H as [? ?]
             end;
      repeat split; try done; try lia; intros; try done; exfalso; lia.
Qed.

(** A re-evaluation reports nothing exactly when every ship of the plan
    already runs the mission the plan gives it, a ship without a current
    mission counting as idle; keyword arguments are not compared. *)
Theorem no_changes_iff_missions_agree (plan : FleetPlan)
    (current : gmap string MissionType) :
  changes_from plan current = ∅
  ↔ ∀ sym a, assignments plan !! sym = Some a →
             default IDLE (current !! sym) = mission a.
Proof.
  split.
  - intros Hempty sym a Ha.
    assert (Hl := changes_from_lookup plan current sym).
    rewrite Hempty, lookup_empty, Ha in Hl. cbn [mbind option_bind] in Hl.
    case_bool_decide as Hne; [done | by symmetry].
  - intros Hsame. apply map_eq. intros sym.
    rewrite changes_from_lookup, lookup_empty.
    destruct (assignments plan !! sym) as [a|] eqn:Ha;
      cbn [mbind option_bind]; [|done].
    rewrite bool_decide_eq_false_2; [done|].
    intros Hne. apply Hne. symmetry. by apply Hsame.
Qed.

End StrategyFacts.

(* ===================================================================== *)
(** ** Properties of the contract evaluation *)
(* ===================================================================== *)

Section ContractorFacts.
Import Contractor.
Local Open Scope Z_scope.

Variable find_best_buy : string → string → option MarketPriceRecord.

Lemma scan_deliveries_unpriced system ds total_cost details d :
  d ∈ ds →
  0 < units_required d - units_fulfilled d →
  find_best_buy (trade_symbol d) system = None →
  ∃ why, scan_deliveries find_best_buy system ds total_cost details
         = inl (false, 0, why).
Proof.
  intros Hd Hrem Hnone. revert total_cost details.
  induction ds as [|d' ds IH]; intros total_cost details.
  - by apply elem_of_nil in Hd.
  - cbn [scan_deliveries].
    destruct (Z.leb_spec (units_required d' - units_fulfilled d') 0) as [Hle|Hgt].
    + apply elem_of_cons in Hd as [->|Hd]; [lia | by apply IH].
    + destruct (find_best_buy (trade_symbol d') system) as [best|] eqn:Hbest.
      * apply elem_of_cons in Hd as [->|Hd]; [congruence | by apply IH].
      * by eexists.
Qed.

(** C10. When some delivery line with units remaining has no cached buy
    market for its good in the system, the evaluation answers
    unprofitable with an estimated profit of 0. *)
Theorem unpriced_delivery_is_unprofitable contract system d :
  d ∈ deliver (terms contract) →
  0 < units_required d - units_fulfilled d →
  find_best_buy (trade_symbol d) system = None →
  ∃ why, evaluate_profitability find_best_buy contract system
         = (false, 0, why).
Proof.
  intros Hd Hrem Hnone. unfold evaluate_profitability.
  destruct (scan_deliveries_unpriced system (deliver (terms contract)) 0 []
              d Hd Hrem Hnone) as [why ->].
  by exists why.
Qed.

(** *** The estimate when every line is priced *)

Lemma scan_deliveries_priced system ds : ∀ total_cost details,
  (∀ d, d ∈ ds → 0 < ContractorSpec.remaining d →
        is_Some (find_best_buy (trade_symbol d) system)) →
  ∃ details',
    scan_deliveries find_best_buy system ds total_cost details
    = inr (total_cost + ContractorSpec.purchase_cost find_best_buy system ds,
           details').
Proof.
  induction ds as [|d ds IH]; intros total_cost details Hpriced.
  - exists details. cbn. by rewrite Z.add_0_r.
  - cbn [scan_deliveries ContractorSpec.purchase_cost foldr].
    fold (ContractorSpec.purchase_cost find_best_buy system ds).
    unfold ContractorSpec.remaining at 1 2.
    destruct (Z.leb_spec (units_required d - units_fulfilled d) 0) as [Hle|Hgt].
    + rewrite (proj2 (Z.ltb_ge _ _)) by lia.
      destruct (IH total_cost details) as [details' ->].
      { intros d' Hd'. apply Hpriced. by right. }
      exists details'. by rewrite Z.add_0_l.
    + rewrite (proj2 (Z.ltb_lt _ _)) by lia.
      destruct (Hpriced d) as [best Hbest]; [by left | done |].
      rewrite Hbest.
      destruct (IH (total_cost + purchase_price best
                                 * (units_required d - units_fulfilled d))
                  (details ++
                     [pretty (units_required d - units_fulfilled d)
                      +:+ "× " +:+ trade_symbol d +:+ " @ "
                      +:+ pretty (purchase_price best) +:+ "/unit from "
                      +:+ waypoint_symbol best])) as [details' ->].
      { intros d' Hd'. apply Hpriced. by right. }
      exists details'. apply f_equal.
      apply (f_equal (λ x, (x, details'))).
      unfold ContractorSpec.remaining. lia.
Qed.

(** When a market is known for every line with units still to deliver,
    the estimated profit is the payment, on acceptance and on fulfilment,
    less the cost of the remaining units at the best prices, and the
    contract is profitable exactly when that profit is positive; lines
    already fulfilled cost nothing and need no market. *)
Theorem priced_contract_profit contract system :
  (∀ d, d ∈ deliver (terms contract) → 0 < ContractorSpec.remaining d →
        is_Some (find_best_buy (trade_symbol d) system)) →
  let profit :=
    on_accepted (payment (terms contract))
    + on_fulfilled (payment (terms contract))
    - ContractorSpec.purchase_cost find_best_buy system
        (deliver (terms contract)) in
  ∃ explanation,
    evaluate_profitability find_best_buy contract system
    = (0 <? profit, profit, explanation).
Proof.
  intros Hpriced profit. unfold evaluate_profitability.
  destruct (scan_deliveries_priced system _ 0 [] Hpriced) as [details ->].
  rewrite Z.add_0_l. by eexists.
Qed.

Lemma remaining_deliveries_lookup ds : ∀ (result : gmap string (Z * string)) g,
  foldl (λ result d,
           let remaining := units_required d - units_fulfilled d in
           if 0 <? remaining
           then <[trade_symbol d := (remaining, destination_symbol d)]> result
           else result) result ds !! g
  = match List.find (λ d, String.eqb (trade_symbol d) g
                          && (0 <? ContractorSpec.remaining d)) (rev ds) with
    | Some d => Some (ContractorSpec.remaining d, destination_symbol d)
    | None => result !! g
    end.
Proof.
  induction ds as [|d ds IH] using rev_ind; intros result g; [done|].
  rewrite foldl_app, rev_app_distr. cbn [foldl rev app List.find].
  unfold ContractorSpec.remaining at 1.
  destruct (0 <? units_required d - units_fulfilled d) eqn:Hrem.
  - destruct (String.eqb_spec (trade_symbol d) g) as [<-|Hne]; cbn [andb].
    + by rewrite lookup_insert_eq.
    + rewrite lookup_insert_ne by done. apply IH.
  - rewrite andb_false_r. apply IH.
Qed.

(** The first hit in the reversed list is the last hit in the list. *)
Lemma find_rev_last {A} (f : A → bool) ds d :
  List.find f (rev ds) = Some d
  ↔ ∃ before after,
      ds = before ++ d :: after ∧ f d = true
      ∧ Forall (λ d', f d' = false) after.
Proof.
  induction ds as [|x ds IH] using rev_ind.
  - cbn. split; [done|]. intros (before & after & Heq & _).
    by destruct before.
  - rewrite rev_app_distr. cbn [rev app List.find].
    destruct (f x) eqn:Hx.
    + split.
      * intros [= <-]. exists ds, []. done.
      * intros (before & after & Heq & Hd & Hall).
        destruct after as [|y after _] using rev_ind.
        -- apply app_inj_tail in Heq as [_ ->]. done.
        -- rewrite app_comm_cons, app_assoc in Heq.
           apply app_inj_tail in Heq as [_ ->].
           apply Forall_app in Hall as [_ Hy].
           apply (proj1 (Forall_singleton _ _)) in Hy. cbn beta in Hy.
           congruence.
    + rewrite IH. split.
      * intros (before & after & -> & Hd & Hall).
        exists before, (after ++ [x]). rewrite <- app_assoc.
        split; [done|]. split; [done|].
        apply Forall_app. split; [done|]. by apply Forall_singleton.
      * intros (before & after & Heq & Hd & Hall).
        destruct after as [|y after _] using rev_ind.
        -- apply app_inj_tail in Heq as [_ ->]. congruence.
        -- rewrite app_comm_cons, app_assoc in Heq.
           apply app_inj_tail in Heq as [-> ->].
           apply Forall_app in Hall as [Hall _].
           by exists before, after.
Qed.

(** [_remaining_deliveries] holds a trade symbol exactly when some line of
    the contract for it has units still to deliver; what it holds there
    is the positive remainder and the destination of the last such line,
    a later line overwriting an earlier one; and when the lines of the
    contract are for pairwise distinct trade symbols that destination is
    the one [find_delivery_waypoint] finds. *)
Theorem remaining_deliveries_are_the_unfinished_lines contract g :
  (is_Some (_remaining_deliveries contract !! g)
   ↔ ∃ d, d ∈ deliver (terms contract) ∧ trade_symbol d = g
          ∧ 0 < ContractorSpec.remaining d)
  ∧ (∀ r dest,
       _remaining_deliveries contract !! g = Some (r, dest)
       ↔ ∃ before d after,
           deliver (terms contract) = before ++ d :: after
           ∧ trade_symbol d = g ∧ 0 < ContractorSpec.remaining d
           ∧ (∀ d', d' ∈ after → trade_symbol d' = g →
                    ContractorSpec.remaining d' ≤ 0)
           ∧ r = ContractorSpec.remaining d
           ∧ dest = destination_symbol d)
  ∧ (∀ r dest,
       _remaining_deliveries contract !! g = Some (r, dest) →
       0 < r
       ∧ (NoDup (trade_symbol <$> deliver (terms contract)) →
          Runner.find_delivery_waypoint contract g = Some dest)).
Proof.
  unfold _remaining_deliveries. rewrite remaining_deliveries_lookup.
  rewrite lookup_empty.
  set (f := λ d, String.eqb (trade_symbol d) g
                 && (0 <? ContractorSpec.remaining d)).
  assert (Hf : ∀ d, f d = true
                    ↔ trade_symbol d = g ∧ 0 < ContractorSpec.remaining d).
  { intros d. subst f. cbn beta.
    rewrite andb_true_iff, String.eqb_eq, Z.ltb_lt. done. }
  assert (Hnf : ∀ d, f d = false
                     ↔ (trade_symbol d = g → ContractorSpec.remaining d ≤ 0)).
  { intros d. rewrite <- not_true_iff_false, Hf. split.
    - intros Hno Hg. destruct (Z.lt_ge_cases 0 (ContractorSpec.remaining d));
        [by destruct Hno | done].
    - intros Hle [Hg Hpos]. specialize (Hle Hg). lia. }
  split; [|split].
  - destruct (List.find f (rev (deliver (terms contract)))) as [d|] eqn:Hfind.
    + apply find_some in Hfind as [Hin Hd]. apply Hf in Hd as [? ?].
      split; [|by eexists]. intros _. exists d.
      split; [|done]. apply list_elem_of_In, in_rev. done.
    + split; [by intros [? ?]|]. intros (d & Hin & Hg & Hrem). exfalso.
      assert (Hfalse : f d = false).
      { eapply find_none; [exact Hfind|].
        apply in_rev. rewrite rev_involutive. by apply list_elem_of_In. }
      assert (Htrue : f d = true) by by apply Hf.
      rewrite Htrue in Hfalse. done.
  - intros r dest. split.
    + destruct (List.find f (rev (deliver (terms contract)))) as [d|] eqn:Hfind;
        [|done].
      intros [= <- <-].
      apply find_rev_last in Hfind as (before & after & Heq & Hd & Hall).
      apply Hf in Hd as [Hg Hrem]. exists before, d, after.
      split; [done|]. split; [done|]. split; [done|]. split; [|done].
      intros d' Hin. apply Hnf. rewrite Forall_forall in Hall.
      by apply Hall.
    + intros (before & d & after & Heq & Hg & Hrem & Hafter & -> & ->).
      assert (Hfind : List.find f (rev (deliver (terms contract))) = Some d).
      { apply find_rev_last. exists before, after. split; [done|].
        split; [by apply Hf|]. apply Forall_forall. intros d' Hin.
        apply Hnf. by apply Hafter. }
      by rewrite Hfind.
  - intros r dest.
    destruct (List.find f (rev (deliver (terms contract)))) as [d|] eqn:Hfind;
      [|done].
    intros [= <- <-]. apply find_some in Hfind as [Hin Hd].
    apply Hf in Hd as [Hg Hrem]. apply in_rev, list_elem_of_In in Hin.
    split; [done|].
    intros Hnd. unfold Runner.find_delivery_waypoint.
    revert Hin Hnd. generalize (deliver (terms contract)). intros ds.
    induction ds as [|d' ds IH]; intros Hin Hnd;
      [by apply elem_of_nil in Hin|].
    cbn [fmap list_fmap] in Hnd. apply NoDup_cons in Hnd as [Hnotin Hnd].
    cbn [Runner.find_delivery_lines].
    apply elem_of_cons in Hin as [<-|Hin].
    + by rewrite (proj2 (String.eqb_eq _ _) Hg).
    + destruct (String.eqb_spec (trade_symbol d') g) as [Heq|Hne];
        [|by apply IH].
      exfalso. apply Hnotin. rewrite Heq, <- Hg.
      by apply list_elem_of_fmap_2.
Qed.

End ContractorFacts.

(* ===================================================================== *)
(** ** Properties of the crash handler *)
(* ===================================================================== *)

Section CommanderFacts.
Import Missions Commander CommanderSpec.
Local Open Scope Z_scope.

Variable registered : MissionType → bool.

Lemma backoff_index rc :
  0 ≤ rc < MAX_RESTARTS →
  ∃ backoff,
    RESTART_BACKOFF !! Z.to_nat rc = Some backoff
    ∧ Py.index RESTART_BACKOFF
        (Z.min rc (Z.of_nat (length RESTART_BACKOFF) - 1)) = Some backoff.
Proof.
  unfold MAX_RESTARTS. intros Hrc.
  assert (rc = 0 ∨ rc = 1 ∨ rc = 2 ∨ rc = 3 ∨ rc = 4) as Hcases by lia.
  destruct Hcases as [->|[->|[->|[->| ->]]]]; eexists; split; reflexivity.
Qed.

Lemma launch_launchable a n :
  launchable registered a = true →
  launch registered a n
  = ({| symbol := symbol a; mission := mission a; system := system a;
        task := Some n; restart_count := restart_count a;
        mission_kwargs := mission_kwargs a |}, Some n, S n).
Proof.
  unfold launchable, launch. intros H. apply andb_true_iff in H as [H1 H2].
  apply negb_true_iff in H1. by rewrite H1, H2.
Qed.

Lemma launch_not_launchable a n :
  launchable registered a = false → launch registered a n = (a, None, n).
Proof.
  unfold launchable, launch. intros H.
  destruct (bool_decide (mission a = IDLE)); [done|].
  cbn [negb andb] in H. by rewrite H.
Qed.

(** The handler when the restart budget is exhausted. *)
Lemma handle_crash_parks w ship agent signal :
  agents w !! ship = Some agent →
  MAX_RESTARTS ≤ restart_count agent →
  ∃ w', handle_crash registered w ship signal = Some w'
        ∧ mission <$> agents w' !! ship = Some IDLE
        ∧ restart_count <$> agents w' !! ship = Some (restart_count agent)
        ∧ active_tasks w' !! ship = None
        ∧ slept w' = slept w ∧ created w' = created w.
Proof.
  intros Ha Hrc. unfold handle_crash. rewrite Ha.
  apply Z.leb_le in Hrc. rewrite Hrc. eexists. split; [done|].
  cbn [agents active_tasks slept created].
  by rewrite lookup_insert_eq, lookup_delete_eq.
Qed.

(** The handler when restarts are left. *)
Lemma handle_crash_backs_off w ship agent signal :
  agents w !! ship = Some agent →
  0 ≤ restart_count agent < MAX_RESTARTS →
  ∃ backoff w',
    RESTART_BACKOFF !! Z.to_nat (restart_count agent) = Some backoff
    ∧ handle_crash registered w ship signal = Some w'
    ∧ slept w' = slept w ++ [backoff]
    ∧ shutdown w' = shutdown w || signal
    ∧ (shutdown w || signal = true →
       active_tasks w' !! ship = None ∧ agents w' = agents w
       ∧ created w' = created w)
    ∧ (shutdown w || signal = false →
       ∃ agent',
         agents w' !! ship = Some agent'
         ∧ restart_count agent' = restart_count agent + 1
         ∧ mission agent' = mission agent
         ∧ launchable registered agent' = launchable registered agent
         ∧ active_tasks w' !! ship
           = if launchable registered agent then Some (created w) else None).
Proof.
  intros Ha Hrc. destruct (backoff_index _ Hrc) as (backoff & Hb & Hidx).
  exists backoff. unfold handle_crash. rewrite Ha.
  rewrite (proj2 (Z.leb_gt _ _)) by lia. rewrite Hidx.
  cbn [mbind option_bind shutdown agents active_tasks slept created].
  destruct (shutdown w || signal) eqn:Hsd.
  - eexists. split; [done|]. split; [done|].
    cbn [pop_task agents active_tasks slept created shutdown].
    rewrite lookup_delete_eq. repeat split; done.
  - unfold relaunch.
    set (a1 := {| symbol := symbol agent; mission := mission agent;
                  system := system agent; task := task agent;
                  restart_count := restart_count agent + 1;
                  mission_kwargs := mission_kwargs agent |}).
    assert (Hl : launchable registered a1 = launchable registered agent) by done.
    destruct (launchable registered agent) eqn:Hla.
    + rewrite (launch_launchable a1) by done.
      eexists. split; [done|]. split; [done|].
      cbn [agents active_tasks slept created shutdown].
      split; [done|]. split; [done|]. split; [done|]. intros _.
      eexists. rewrite !lookup_insert_eq. split; [done|].
      repeat split; done.
    + rewrite (launch_not_launchable a1) by done.
      eexists. split; [done|]. split; [done|].
      cbn [agents active_tasks slept created shutdown].
      split; [done|]. split; [done|]. split; [done|]. intros _.
      exists a1. rewrite lookup_insert_eq, lookup_delete_eq. done.
Qed.

(** [k] crashes in a row while the budget lasts. *)
Lemma crashes_restart k : ∀ w ship agent,
  agents w !! ship = Some agent →
  0 ≤ restart_count agent →
  restart_count agent + Z.of_nat k ≤ MAX_RESTARTS →
  launchable registered agent = true →
  shutdown w = false →
  ∃ w' agent',
    crashes registered k w ship = Some w'
    ∧ slept w'
      = slept w ++ take k (drop (Z.to_nat (restart_count agent))
                             RESTART_BACKOFF)
    ∧ agents w' !! ship = Some agent'
    ∧ restart_count agent' = restart_count agent + Z.of_nat k
    ∧ mission agent' = mission agent
    ∧ shutdown w' = false
    ∧ ((0 < k)%nat → is_Some (active_tasks w' !! ship)).
Proof.
  induction k as [|k IH]; intros w ship agent Ha Hrc Hk Hla Hsd.
  - exists w, agent. cbn [crashes take]. rewrite app_nil_r.
    repeat split; try done; lia.
  - destruct (handle_crash_backs_off w ship agent false Ha)
      as (backoff & w1 & Hb & Hw1 & Hslept & Hsd1 & _ & Hrun); [lia|].
    rewrite Hsd in Hsd1, Hrun. cbn [orb] in Hsd1, Hrun.
    destruct (Hrun eq_refl) as (a1 & Ha1 & Hrc1 & Hm1 & Hla1 & Hact).
    rewrite Hla in Hla1, Hact.
    destruct (IH w1 ship a1 Ha1)
      as (w' & a' & Hw' & Hs' & Ha' & Hrc' & Hm' & Hsd' & Hact');
      [lia | lia | done | done |].
    exists w', a'. cbn [crashes]. rewrite Hw1. cbn [mbind option_bind].
    split; [exact Hw'|]. split.
    { rewrite Hs', Hslept, <- app_assoc. f_equal.
      rewrite (drop_S _ _ _ Hb). cbn [take app]. f_equal.
      rewrite Hrc1.
      by replace (Z.to_nat (restart_count agent + 1))
        with (S (Z.to_nat (restart_count agent))) by lia. }
    split; [done|]. split; [lia|]. split; [congruence|]. split; [done|].
    intros _. destruct k as [|k'].
    + cbn [crashes] in Hw'. injection Hw' as Heq. subst w'. eexists. exact Hact.
    + apply Hact'. lia.
Qed.

(** The crash handler on its own.  A crash that arrives with the restart
    budget exhausted ([restart_count >= 5]) makes the handler park the
    ship: IDLE, task handle dropped, no sleep.  A crash that arrives with
    [restart_count] in 0..4 sleeps the delay of that rank (10, 30, 60,
    120, 300 s) and then, unless shutdown is set by then, relaunches the
    agent with [restart_count] incremented.  So, handler after handler,
    a fresh agent is restarted after each of its first five crashes,
    with these five delays, and the handler parks it at the sixth.  What
    the re-evaluation that follows the handler does with the parked ship
    is another matter. *)
Theorem crash_backoff_then_park w ship agent :
  agents w !! ship = Some agent →
  (MAX_RESTARTS ≤ restart_count agent → ∀ signal,
     ∃ w', handle_crash registered w ship signal = Some w'
           ∧ mission <$> agents w' !! ship = Some IDLE
           ∧ active_tasks w' !! ship = None
           ∧ slept w' = slept w ∧ created w' = created w)
  ∧ (0 ≤ restart_count agent < MAX_RESTARTS → ∀ signal,
     ∃ backoff w',
       RESTART_BACKOFF !! Z.to_nat (restart_count agent) = Some backoff
       ∧ handle_crash registered w ship signal = Some w'
       ∧ slept w' = slept w ++ [backoff]
       ∧ (shutdown w || signal = true →
          active_tasks w' !! ship = None ∧ agents w' = agents w
          ∧ created w' = created w)
       ∧ (shutdown w || signal = false →
          restart_count <$> agents w' !! ship
          = Some (restart_count agent + 1)
          ∧ mission <$> agents w' !! ship = Some (mission agent)
          ∧ active_tasks w' !! ship
            = if launchable registered agent then Some (created w)
              else None))
  ∧ (restart_count agent = 0 → launchable registered agent = true →
     shutdown w = false →
     (∀ k, (k ≤ 5)%nat →
        ∃ w', crashes registered k w ship = Some w'
              ∧ slept w' = slept w ++ take k RESTART_BACKOFF
              ∧ restart_count <$> agents w' !! ship = Some (Z.of_nat k)
              ∧ mission <$> agents w' !! ship = Some (mission agent)
              ∧ ((0 < k)%nat → is_Some (active_tasks w' !! ship)))
     ∧ ∃ w', crashes registered 6 w ship = Some w'
             ∧ slept w' = slept w ++ RESTART_BACKOFF
             ∧ mission <$> agents w' !! ship = Some IDLE
             ∧ active_tasks w' !! ship = None).
Proof.
  intros Ha. split; [|split].
  - intros Hrc signal.
    destruct (handle_crash_parks w ship agent signal Ha Hrc)
      as (w' & ? & ? & ? & ? & ? & ?).
    exists w'. done.
  - intros Hrc signal.
    destruct (handle_crash_backs_off w ship agent signal Ha Hrc)
      as (backoff & w' & Hb & Hw' & Hs & _ & Hstop & Hrun).
    exists backoff, w'.
    split; [done|]. split; [done|]. split; [done|]. split; [exact Hstop|].
    intros Hsd. destruct (Hrun Hsd) as (a' & Ha' & Hrc' & Hm' & _ & Hact).
    rewrite Ha'. cbn [fmap option_fmap option_map]. by rewrite Hrc', Hm'.
  - intros Hrc Hla Hsd.
    assert (Hseq : ∀ k, (k ≤ 5)%nat →
      ∃ w' agent',
        crashes registered k w ship = Some w'
        ∧ slept w' = slept w ++ take k RESTART_BACKOFF
        ∧ agents w' !! ship = Some agent'
        ∧ restart_count agent' = Z.of_nat k
        ∧ mission agent' = mission agent
        ∧ shutdown w' = false
        ∧ ((0 < k)%nat → is_Some (active_tasks w' !! ship))).
    { intros k Hk.
      destruct (crashes_restart k w ship agent Ha) as (w' & a' & H);
        [lia | unfold MAX_RESTARTS; lia | done | done |].
      rewrite Hrc in H. exists w', a'. exact H. }
    split.
    + intros k Hk.
      destruct (Hseq k Hk) as (w' & a' & Hw' & Hs & Ha' & Hrc' & Hm' & _ & Hact).
      exists w'. rewrite Ha'. cbn [fmap option_fmap option_map].
      by rewrite Hrc', Hm'.
    + destruct (Hseq 5%nat) as (w5 & a5 & Hw5 & Hs5 & Ha5 & Hrc5 & Hm5 & _);
        [lia|].
      destruct (handle_crash_parks w5 ship a5 false Ha5)
        as (w6 & Hw6 & Hm6 & _ & Hact6 & Hs6 & _);
        [unfold MAX_RESTARTS; lia|].
      exists w6. split.
      { change 6%nat with (5 + 1)%nat.
        assert (Hadd : ∀ a b x, crashes registered (a + b) x ship
                  = x' ← crashes registered a x ship;
                    crashes registered b x' ship).
        { induction a as [|a IHa]; intros b x; cbn [crashes Nat.add]; [done|].
          destruct (handle_crash registered x ship false);
            cbn [mbind option_bind]; [apply IHa | done]. }
        rewrite Hadd, Hw5. cbn [mbind option_bind crashes]. by rewrite Hw6. }
      rewrite Hs6, Hs5. done.
Qed.

(** Of a fresh agent, the fifth crash is still followed by a restart,
    after the 300 s delay: the crash that parks is the one that arrives
    with [restart_count = 5].  And when shutdown is signalled during the
    sleep, the handler sleeps but does not relaunch: the task handle is
    dropped and [restart_count] stays as it was. *)
Lemma fifth_crash_is_restarted :
  (∃ w, crashes (λ _, true) 5 fresh_world "SHIP-1" = Some w
        ∧ mission <$> agents w !! "SHIP-1" = Some TRADE
        ∧ restart_count <$> agents w !! "SHIP-1" = Some 5
        ∧ active_tasks w !! "SHIP-1" = Some 5%nat
        ∧ slept w = [10; 30; 60; 120; 300])
  ∧ (∃ w, handle_crash (λ _, true) fresh_world "SHIP-1" true = Some w
          ∧ slept w = [10]
          ∧ restart_count <$> agents w !! "SHIP-1" = Some 0
          ∧ active_tasks w !! "SHIP-1" = None
          ∧ created w = created fresh_world).
Proof.
  split; (eexists; split; [vm_compute; reflexivity|]; by vm_compute).
Qed.

(** C4, where the code departs from the claim.  The commander handles a
    crash and then, a crash being a strategic event, re-evaluates the
    strategy in the same turn of its loop.  A trading ship that the plan
    keeps trading is restarted after each of its first five crashes; at
    the sixth the handler parks it, and the re-evaluation that follows
    finds the parked ship off its planned mission and relaunches it with
    a restart counter of 0.  The park does not last: the seventh crash is
    again followed by a restart, after 10 s. *)
Lemma park_is_undone_by_reevaluation :
  let turn w :=
    w1 ← handle_crash (λ _, true) w "SHIP-1" false;
    Some (maybe_reassign (λ _, true) (λ _, false) trade_plan ["SHIP-1"]
            w1 []).1 in
  ∃ w5 parked w6 w7,
    Nat.iter 5 (λ w, w ≫= turn) (Some fresh_world) = Some w5
    ∧ mission <$> agents w5 !! "SHIP-1" = Some TRADE
    ∧ restart_count <$> agents w5 !! "SHIP-1" = Some 5
    ∧ slept w5 = [10; 30; 60; 120; 300]
    ∧ handle_crash (λ _, true) w5 "SHIP-1" false = Some parked
    ∧ mission <$> agents parked !! "SHIP-1" = Some IDLE
    ∧ active_tasks parked !! "SHIP-1" = None
    ∧ turn w5 = Some w6
    ∧ mission <$> agents w6 !! "SHIP-1" = Some TRADE
    ∧ restart_count <$> agents w6 !! "SHIP-1" = Some 0
    ∧ active_tasks w6 !! "SHIP-1" = Some 6%nat
    ∧ turn w6 = Some w7
    ∧ slept w7 = [10; 30; 60; 120; 300; 10]
    ∧ restart_count <$> agents w7 !! "SHIP-1" = Some 1
    ∧ active_tasks w7 !! "SHIP-1" = Some 7%nat.
Proof.
  cbv zeta. eexists _, _, _, _.
  split; [vm_compute; reflexivity|].
  do 3 (split; [by vm_compute|]).
  split; [vm_compute; reflexivity|].
  do 2 (split; [by vm_compute|]).
  split; [vm_compute; reflexivity|].
  do 3 (split; [by vm_compute|]).
  split; [vm_compute; reflexivity|].
  do 2 (split; [by vm_compute|]). by vm_compute.
Qed.

End CommanderFacts.

(* ===================================================================== *)
(** ** Invariants of the commander *)
(* ===================================================================== *)

Section FleetInvariants.
Import Missions Commander CommanderSpec.
Local Open Scope Z_scope.

Variable registered : MissionType → bool.
Variable finished : Task → bool.

Lemma launch_cases a n :
  (launchable registered a = true
   ∧ launch registered a n
     = ({| symbol := symbol a; mission := mission a; system := system a;
           task := Some n; restart_count := restart_count a;
           mission_kwargs := mission_kwargs a |}, Some n, S n))
  ∨ (launchable registered a = false
     ∧ launch registered a n = (a, None, n)).
Proof.
  destruct (launchable registered a) eqn:Hl.
  - left. split; [done|]. by apply launch_launchable.
  - right. split; [done|]. by apply launch_not_launchable.
Qed.

Lemma touches_only_refl ship w :
  active_tasks w !! ship = None → touches_only ship w w.
Proof. intros H. split; [done|]. by left. Qed.

Lemma touches_only_pop ship w : touches_only ship w (pop_task ship w).
Proof.
  split; cbn.
  - intros other Hne. by rewrite lookup_delete_ne.
  - left. by rewrite lookup_delete_eq.
Qed.

Lemma handle_crash_touches_only w ship signal w' :
  handle_crash registered w ship signal = Some w' → touches_only ship w w'.
Proof.
  unfold handle_crash. destruct (agents w !! ship) as [agent|] eqn:Ha.
  - destruct (MAX_RESTARTS <=? restart_count agent).
    + intros [= <-]. split; cbn.
      * intros other Hne. by rewrite lookup_insert_ne, lookup_delete_ne.
      * left. by rewrite lookup_delete_eq.
    + destruct (Py.index RESTART_BACKOFF _) as [backoff|];
        cbn [mbind option_bind]; [|done].
      cbn [shutdown]. destruct (shutdown w || signal).
      * intros [= <-]. split; cbn.
        -- intros other Hne. by rewrite lookup_delete_ne.
        -- left. by rewrite lookup_delete_eq.
      * unfold relaunch. cbn [created agents active_tasks slept shutdown].
        destruct (launch_cases
                    {| symbol := symbol agent; mission := mission agent;
                       system := system agent; task := task agent;
                       restart_count := restart_count agent + 1;
                       mission_kwargs := mission_kwargs agent |}
                    (created w)) as [[_ ->]|[_ ->]];
          intros [= <-]; split; cbn.
        -- intros other Hne. by rewrite !lookup_insert_ne.
        -- right. by rewrite lookup_insert_eq.
        -- intros other Hne. by rewrite lookup_insert_ne, lookup_delete_ne.
        -- left. by rewrite lookup_delete_eq.
  - intros [= <-]. apply touches_only_pop.
Qed.

Lemma reassign_ship_touches_only w c ship a :
  is_Some (agents w !! ship) →
  touches_only ship w (reassign_ship registered finished w c ship a).1.
Proof.
  intros [agent Ha]. unfold reassign_ship. rewrite Ha.
  destruct (launch_cases
              {| symbol := symbol agent; mission := Strategy.mission a;
                 system := system agent; task := task agent;
                 restart_count := 0;
                 mission_kwargs := Strategy.kwargs a |}
              (created w)) as [[_ ->]|[_ ->]]; split; cbn.
  - intros other Hne. by rewrite !lookup_insert_ne, lookup_delete_ne.
  - right. by rewrite lookup_insert_eq.
  - intros other Hne. by rewrite lookup_insert_ne, lookup_delete_ne.
  - left. by rewrite lookup_delete_eq.
Qed.

(** Handling the crash or the completion of a mission, or reassigning a
    ship, touches that ship only: the agents and the handles of the other
    ships are kept, and at most one task is created, whose handle goes
    to the ship. *)
Theorem commander_touches_one_ship w ship :
  (∀ signal w', handle_crash registered w ship signal = Some w' →
                touches_only ship w w')
  ∧ touches_only ship w (handle_completion w ship)
  ∧ (∀ cancelled a,
       is_Some (agents w !! ship) →
       touches_only ship w
         (reassign_ship registered finished w cancelled ship a).1)
  ∧ (∀ cancelled a,
       agents w !! ship = None →
       reassign_ship registered finished w cancelled ship a
       = (w, cancelled)).
Proof.
  split; [|split; [|split]].
  - intros signal w'. apply handle_crash_touches_only.
  - apply touches_only_pop.
  - intros c a. apply reassign_ship_touches_only.
  - intros c a Ha. unfold reassign_ship. by rewrite Ha.
Qed.

Lemma touches_only_distinct ship w w' :
  touches_only ship w w' → handles_distinct w → handles_distinct w'.
Proof.
  intros [Hframe Hship] [Hfresh Hinj]. split.
  - intros s t Hs. destruct (decide (s = ship)) as [->|Hne].
    + destruct Hship as [[Hnone _]|[Hsome ->]]; [by rewrite Hnone in Hs|].
      rewrite Hsome in Hs. injection Hs as <-. lia.
    + rewrite (proj2 (Hframe s Hne)) in Hs. apply Hfresh in Hs.
      destruct Hship as [[_ ->]|[_ ->]]; lia.
  - intros s s' t Hs Hs'.
    destruct (decide (s = ship)) as [->|Hne],
             (decide (s' = ship)) as [->|Hne']; [done| | |].
    + destruct Hship as [[Hnone _]|[Hsome _]]; [by rewrite Hnone in Hs|].
      rewrite Hsome in Hs. injection Hs as <-.
      rewrite (proj2 (Hframe s' Hne')) in Hs'. apply Hfresh in Hs'. lia.
    + destruct Hship as [[Hnone _]|[Hsome _]]; [by rewrite Hnone in Hs'|].
      rewrite Hsome in Hs'. injection Hs' as <-.
      rewrite (proj2 (Hframe s Hne)) in Hs. apply Hfresh in Hs. lia.
    + rewrite (proj2 (Hframe s Hne)) in Hs.
      rewrite (proj2 (Hframe s' Hne')) in Hs'. by eapply Hinj.
Qed.

Lemma reassign_ship_distinct w c ship a :
  handles_distinct w →
  handles_distinct (reassign_ship registered finished w c ship a).1.
Proof.
  intros Hw. destruct (agents w !! ship) as [agent|] eqn:Ha.
  - eapply touches_only_distinct; [|done].
    by apply reassign_ship_touches_only.
  - unfold reassign_ship. by rewrite Ha.
Qed.

Lemma maybe_reassign_distinct plan order w c :
  handles_distinct w →
  handles_distinct (maybe_reassign registered finished plan order w c).1.
Proof.
  unfold maybe_reassign.
  generalize (Strategy.changes_from plan (mission <$> agents w)).
  intros changes. revert w c.
  induction order as [|sym order IH]; intros w c Hw; [done|].
  cbn [foldl]. unfold reassign_changed at 2. cbn [fst snd].
  destruct (changes !! sym) as [[old new]|].
  - destruct (reassign_ship registered finished w c sym new) as [w1 c1] eqn:Hr.
    apply IH. change w1 with (w1, c1).1. rewrite <- Hr.
    by apply reassign_ship_distinct.
  - by apply IH.
Qed.

Lemma apply_plan_distinct ships plan w :
  handles_distinct (apply_plan registered ships plan w).
Proof.
  unfold apply_plan.
  set (w0 := {| agents := agents w; active_tasks := ∅;
                shutdown := shutdown w; slept := slept w;
                created := created w |}).
  assert (Hw0 : handles_distinct w0) by (split; intros *; by cbn).
  clearbody w0. revert w0 Hw0.
  induction ships as [|[sym sys] ships IH]; intros w0 Hw0; [done|].
  cbn [foldl]. apply IH.
  unfold apply_assignment.
  destruct (Strategy.assignments plan !! sym) as [a|]; [|done].
  destruct Hw0 as [Hfresh Hinj].
  destruct (launch_cases
              {| symbol := sym; mission := Strategy.mission a;
                 system := sys; task := None; restart_count := 0;
                 mission_kwargs := Strategy.kwargs a |}
              (created w0)) as [[_ ->]|[_ ->]]; split; cbn.
  - intros s t. destruct (decide (s = sym)) as [->|Hne].
    + rewrite lookup_insert_eq. intros [= <-]. lia.
    + rewrite lookup_insert_ne by done. intros Hs. apply Hfresh in Hs. lia.
  - intros s s' t.
    destruct (decide (s = sym)) as [->|Hne],
             (decide (s' = sym)) as [->|Hne']; [done| | |].
    + rewrite lookup_insert_eq, lookup_insert_ne by done.
      intros [= <-] Hs'. apply Hfresh in Hs'. lia.
    + rewrite lookup_insert_eq, lookup_insert_ne by done.
      intros Hs [= <-]. apply Hfresh in Hs. lia.
    + rewrite !lookup_insert_ne by done. apply Hinj.
  - done.
  - done.
Qed.

(** No two ships ever share a task handle: the handles collected at startup
    are distinct, and they stay distinct through crashes, completions and
    reassignments. *)
Theorem handles_stay_distinct :
  (∀ ships plan w, handles_distinct (apply_plan registered ships plan w))
  ∧ ∀ w, handles_distinct w →
      (∀ ship signal w', handle_crash registered w ship signal = Some w' →
                         handles_distinct w')
      ∧ (∀ ship, handles_distinct (handle_completion w ship))
      ∧ (∀ plan order cancelled,
           handles_distinct
             (maybe_reassign registered finished plan order w cancelled).1).
Proof.
  split; [apply apply_plan_distinct|]. intros w Hw. split; [|split].
  - intros ship signal w' Hc. eapply touches_only_distinct; [|done].
    by eapply handle_crash_touches_only.
  - intros ship. eapply touches_only_distinct; [|done].
    apply touches_only_pop.
  - intros plan order c. by apply maybe_reassign_distinct.
Qed.

Lemma touches_only_budget ship w w' :
  touches_only ship w w' →
  (∀ a', agents w' !! ship = Some a' →
         0 ≤ restart_count a' ≤ MAX_RESTARTS) →
  within_budget w → within_budget w'.
Proof.
  intros [Hframe _] Hship Hw s a Ha. destruct (decide (s = ship)) as [->|Hne].
  - by apply Hship.
  - rewrite (proj1 (Hframe s Hne)) in Ha. by eapply Hw.
Qed.

Lemma handle_crash_budget w ship signal w' :
  within_budget w → handle_crash registered w ship signal = Some w' →
  within_budget w'.
Proof.
  intros Hw Hc. eapply touches_only_budget; [|
    |done]; [by eapply handle_crash_touches_only|].
  revert Hc. unfold handle_crash.
  destruct (agents w !! ship) as [agent|] eqn:Ha.
  - specialize (Hw ship agent Ha).
    destruct (MAX_RESTARTS <=? restart_count agent) eqn:Hmax.
    + intros [= <-] a'. cbn. rewrite lookup_insert_eq. intros [= <-]. done.
    + apply Z.leb_gt in Hmax.
      destruct (Py.index RESTART_BACKOFF _) as [backoff|];
        cbn [mbind option_bind]; [|done].
      cbn [shutdown]. destruct (shutdown w || signal).
      * intros [= <-] a'. cbn. rewrite Ha. intros [= <-]. done.
      * unfold relaunch. cbn [created agents active_tasks slept shutdown].
        destruct (launch_cases
                    {| symbol := symbol agent; mission := mission agent;
                       system := system agent; task := task agent;
                       restart_count := restart_count agent + 1;
                       mission_kwargs := mission_kwargs agent |}
                    (created w)) as [[_ ->]|[_ ->]];
          intros [= <-] a'; cbn; rewrite lookup_insert_eq; intros [= <-];
          cbn; lia.
  - intros [= <-] a'. cbn. by rewrite Ha.
Qed.

Lemma reassign_ship_agent w c ship a agent :
  agents w !! ship = Some agent →
  let w' := (reassign_ship registered finished w c ship a).1 in
  ∃ agent',
    agents w' !! ship = Some agent'
    ∧ symbol agent' = symbol agent ∧ system agent' = system agent
    ∧ mission agent' = Strategy.mission a
    ∧ mission_kwargs agent' = Strategy.kwargs a
    ∧ restart_count agent' = 0
    ∧ active_tasks w' !! ship
      = (if launchable registered agent' then Some (created w : Task)
         else None)
    ∧ shutdown w' = shutdown w ∧ slept w' = slept w.
Proof.
  intros Ha. unfold reassign_ship. rewrite Ha.
  destruct (launch_cases
              {| symbol := symbol agent; mission := Strategy.mission a;
                 system := system agent; task := task agent;
                 restart_count := 0;
                 mission_kwargs := Strategy.kwargs a |}
              (created w)) as [[Hl ->]|[Hl ->]]; cbn;
    rewrite lookup_insert_eq; eexists; (split; [done|]); cbn.
  - unfold launchable in *. cbn in *. rewrite Hl.
    by rewrite lookup_insert_eq.
  - rewrite Hl. by rewrite lookup_delete_eq.
Qed.

Lemma reassign_ship_budget w c ship a :
  within_budget w →
  within_budget (reassign_ship registered finished w c ship a).1.
Proof.
  intros Hw. destruct (agents w !! ship) as [agent|] eqn:Ha.
  - eapply touches_only_budget; [|
      |done]; [by apply reassign_ship_touches_only|].
    destruct (reassign_ship_agent w c ship a agent Ha)
      as (agent' & Ha' & _ & _ & _ & _ & Hrc & _).
    intros a'. rewrite Ha'. intros [= <-]. rewrite Hrc.
    unfold MAX_RESTARTS. lia.
  - unfold reassign_ship. by rewrite Ha.
Qed.

Lemma maybe_reassign_budget plan order w c :
  within_budget w →
  within_budget (maybe_reassign registered finished plan order w c).1.
Proof.
  unfold maybe_reassign.
  generalize (Strategy.changes_from plan (mission <$> agents w)).
  intros changes. revert w c.
  induction order as [|sym order IH]; intros w c Hw; [done|].
  cbn [foldl]. unfold reassign_changed at 2. cbn [fst snd].
  destruct (changes !! sym) as [[old new]|].
  - destruct (reassign_ship registered finished w c sym new) as [w1 c1] eqn:Hr.
    apply IH. change w1 with (w1, c1).1. rewrite <- Hr.
    by apply reassign_ship_budget.
  - by apply IH.
Qed.

(** The restart counter of an agent stays between 0 and [MAX_RESTARTS]
    through crashes, completions and reassignments: a crash increments it
    only below the maximum, a reassignment resets it. *)
Theorem restart_count_stays_within_budget w :
  within_budget w →
  (∀ ship signal w', handle_crash registered w ship signal = Some w' →
                     within_budget w')
  ∧ (∀ ship, within_budget (handle_completion w ship))
  ∧ (∀ plan order cancelled,
       within_budget
         (maybe_reassign registered finished plan order w cancelled).1).
Proof.
  intros Hw. split; [|split].
  - intros ship signal w'. by apply handle_crash_budget.
  - intros ship. done.
  - intros plan order c. by apply maybe_reassign_budget.
Qed.

Lemma reassign_fold_frame
    (changes : gmap string (MissionType * Strategy.ShipAssignment))
    order ship : ∀ w c,
  ship ∉ order →
  let r := foldl (reassign_changed registered finished changes) (w, c)
             order in
  agents r.1 !! ship = agents w !! ship
  ∧ active_tasks r.1 !! ship = active_tasks w !! ship
  ∧ shutdown r.1 = shutdown w ∧ slept r.1 = slept w.
Proof.
  induction order as [|sym order IH]; intros w c Hnotin; [done|].
  apply not_elem_of_cons in Hnotin as [Hne Hnotin].
  cbn [foldl]. unfold reassign_changed at 2 4 6 8. cbn [fst snd].
  destruct (changes !! sym) as [[old new]|].
  - destruct (reassign_ship registered finished w c sym new) as [w1 c1] eqn:Hr.
    destruct (IH w1 c1 Hnotin) as (-> & -> & -> & ->).
    assert (Hw1 : w1 = (reassign_ship registered finished w c sym new).1)
      by by rewrite Hr.
    destruct (agents w !! sym) as [agent|] eqn:Ha.
    + destruct (reassign_ship_touches_only w c sym new) as [Hframe _];
        [by eexists|].
      destruct (reassign_ship_agent w c sym new agent Ha)
        as (_ & _ & _ & _ & _ & _ & _ & _ & Hsh & Hsl).
      rewrite <- Hw1 in Hframe, Hsh, Hsl.
      destruct (Hframe ship Hne) as [-> ->]. by rewrite Hsh, Hsl.
    + unfold reassign_ship in Hw1. rewrite Ha in Hw1. by subst w1.
  - by apply IH.
Qed.

Lemma maybe_reassign_agent plan order w cancelled ship agent a :
  NoDup order → ship ∈ order →
  agents w !! ship = Some agent →
  Strategy.assignments plan !! ship = Some a →
  Strategy.mission a ≠ mission agent →
  let w' := (maybe_reassign registered finished plan order w cancelled).1 in
  ∃ agent',
    agents w' !! ship = Some agent'
    ∧ mission agent' = Strategy.mission a
    ∧ mission_kwargs agent' = Strategy.kwargs a
    ∧ restart_count agent' = 0
    ∧ (is_Some (active_tasks w' !! ship)
       ↔ launchable registered agent' = true)
    ∧ shutdown w' = shutdown w ∧ slept w' = slept w.
Proof.
  intros Hnd Hin Ha Hplan Hne w'. subst w'. unfold maybe_reassign.
  assert (Hch : Strategy.changes_from plan (mission <$> agents w) !! ship
                = Some (mission agent, a)).
  { rewrite changes_from_lookup, Hplan. cbn [mbind option_bind].
    rewrite lookup_fmap, Ha. cbn. by rewrite bool_decide_eq_true_2. }
  revert Hch. generalize (Strategy.changes_from plan (mission <$> agents w)).
  intros changes Hch.
  apply list_elem_of_split in Hin as (l1 & l2 & ->).
  apply NoDup_app in Hnd as (_ & Hl1 & Hnd).
  apply NoDup_cons in Hnd as [Hl2 _].
  assert (Hl1' : ship ∉ l1) by (intros H; apply (Hl1 _ H); left).
  rewrite foldl_app. cbn [foldl].
  destruct (reassign_fold_frame changes l1 ship w cancelled Hl1')
    as (Ha1 & Ht1 & Hsh1 & Hsl1).
  destruct (foldl _ (w, cancelled) l1) as [w1 c1]. cbn [fst snd] in *.
  unfold reassign_changed at 2 4 6 8. cbn [fst snd].
  rewrite Hch. rewrite Ha in Ha1.
  destruct (reassign_ship_agent w1 c1 ship a agent Ha1)
    as (agent' & Ha' & _ & _ & Hm & Hk & Hrc & Hact & Hsh & Hsl).
  destruct (reassign_ship registered finished w1 c1 ship a) as [w2 c2].
  cbn [fst snd] in *.
  destruct (reassign_fold_frame changes l2 ship w2 c2 Hl2)
    as (Ha2 & Ht2 & Hsh2 & Hsl2).
  exists agent'. rewrite Ha2, Ht2, Hsh2, Hsl2, Hact, Hsh, Hsl.
  repeat (split; [done|]). split; [|done].
  destruct (launchable registered agent'); split;
    first [done | by eexists | by intros [? ?]].
Qed.

(** A ship whose planned mission differs from the mission of its agent is
    reassigned by the re-evaluation: its agent takes the planned mission
    and keyword arguments, its restart counter is reset to 0, and it
    holds a task handle exactly when the new mission can be launched. *)
Theorem reassignment_resets_restart_count plan order w cancelled ship agent
    a :
  NoDup order → ship ∈ order →
  agents w !! ship = Some agent →
  Strategy.assignments plan !! ship = Some a →
  Strategy.mission a ≠ mission agent →
  let w' := (maybe_reassign registered finished plan order w cancelled).1 in
  ∃ agent',
    agents w' !! ship = Some agent'
    ∧ mission agent' = Strategy.mission a
    ∧ mission_kwargs agent' = Strategy.kwargs a
    ∧ restart_count agent' = 0
    ∧ (is_Some (active_tasks w' !! ship)
       ↔ launchable registered agent' = true)
    ∧ shutdown w' = shutdown w ∧ slept w' = slept w.
Proof. apply maybe_reassign_agent. Qed.

Lemma apply_plan_fold_frame plan ships sym : ∀ w,
  sym ∉ ships.*1 →
  agents (foldl (apply_assignment registered plan) w ships) !! sym
  = agents w !! sym
  ∧ active_tasks (foldl (apply_assignment registered plan) w ships) !! sym
    = active_tasks w !! sym.
Proof.
  induction ships as [|[sym' sys'] ships IH]; intros w Hnotin; [done|].
  cbn [fmap list_fmap fst] in Hnotin.
  apply not_elem_of_cons in Hnotin as [Hne Hnotin].
  cbn [foldl].
  destruct (IH (apply_assignment registered plan w (sym', sys')) Hnotin)
    as [-> ->].
  unfold apply_assignment.
  destruct (Strategy.assignments plan !! sym') as [a|]; [|done].
  destruct (launch_cases
              {| symbol := sym'; mission := Strategy.mission a;
                 system := sys'; task := None; restart_count := 0;
                 mission_kwargs := Strategy.kwargs a |}
              (created w)) as [[_ ->]|[_ ->]]; cbn;
    by rewrite ?lookup_insert_ne.
Qed.

(** At startup every ship of the plan, the symbols being pairwise
    distinct, gets an agent with the planned mission and keyword arguments
    and a restart counter of 0, and holds a task handle exactly when its
    mission can be launched: an idle ship never holds one. *)
Theorem apply_plan_launches_the_plan ships plan w sym sys a :
  NoDup ships.*1 → (sym, sys) ∈ ships →
  Strategy.assignments plan !! sym = Some a →
  let w' := apply_plan registered ships plan w in
  ∃ agent',
    agents w' !! sym = Some agent'
    ∧ mission agent' = Strategy.mission a
    ∧ system agent' = sys
    ∧ mission_kwargs agent' = Strategy.kwargs a
    ∧ restart_count agent' = 0
    ∧ active_tasks w' !! sym = task agent'
    ∧ (is_Some (active_tasks w' !! sym)
       ↔ Strategy.mission a ≠ IDLE ∧ registered (Strategy.mission a) = true).
Proof.
  intros Hnd Hin Hplan w'. subst w'. unfold apply_plan.
  set (w0 := {| agents := agents w; active_tasks := ∅;
                shutdown := shutdown w; slept := slept w;
                created := created w |}).
  assert (Hw0 : ∀ s, s ∈ ships.*1 → active_tasks w0 !! s = None)
    by (intros; apply lookup_empty).
  clearbody w0. revert w0 Hw0.
  induction ships as [|[sym' sys'] ships IH]; intros w0 Hw0;
    [by apply elem_of_nil in Hin|].
  cbn [fmap list_fmap fst] in Hnd. apply NoDup_cons in Hnd as [Hnotin Hnd].
  cbn [foldl]. apply elem_of_cons in Hin as [[= <- <-]|Hin].
  - destruct (apply_plan_fold_frame plan ships sym
                (apply_assignment registered plan w0 (sym, sys)) Hnotin)
      as [-> ->].
    unfold apply_assignment.
    cbn beta iota. rewrite Hplan.
    assert (Hnone : active_tasks w0 !! sym = None)
      by (apply Hw0; cbn; left).
    destruct (launch_cases
                {| symbol := sym; mission := Strategy.mission a;
                   system := sys; task := None; restart_count := 0;
                   mission_kwargs := Strategy.kwargs a |}
                (created w0)) as [[Hl ->]|[Hl ->]]; cbn;
      rewrite lookup_insert_eq; eexists; (split; [done|]); cbn;
      repeat (split; [done|]); unfold launchable in Hl; cbn in Hl.
    + rewrite lookup_insert_eq. split; [done|]. split; [|by eexists].
      intros _. apply andb_true_iff in Hl as [Hl1 Hl2].
      apply negb_true_iff, bool_decide_eq_false_1 in Hl1. done.
    + rewrite Hnone. split; [by intros [? ?]|].
      intros [Hl1 Hl2]. rewrite Hl2, bool_decide_eq_false_2 in Hl by done.
      done.
  - apply IH; [done|done|].
    intros s Hs. assert (Hne : s ≠ sym').
    { intros ->. done. }
    unfold apply_assignment.
    destruct (Strategy.assignments plan !! sym') as [a'|];
      [|apply Hw0; cbn; by right].
    destruct (launch_cases
                {| symbol := sym'; mission := Strategy.mission a';
                   system := sys'; task := None; restart_count := 0;
                   mission_kwargs := Strategy.kwargs a' |}
                (created w0)) as [[_ ->]|[_ ->]]; cbn;
      rewrite ?lookup_insert_ne by done; apply Hw0; cbn; by right.
Qed.

(** Parking is undone by a re-evaluation: a ship that the crash handler
    has parked is, when the next plan gives it a mission that can be
    launched, relaunched with a restart counter of 0, and its next five
    crashes are restarted again. *)
Theorem parked_ship_is_revived w ship agent signal plan order cancelled a :
  agents w !! ship = Some agent →
  MAX_RESTARTS ≤ restart_count agent →
  shutdown w = false →
  NoDup order → ship ∈ order →
  Strategy.assignments plan !! ship = Some a →
  Strategy.mission a ≠ IDLE → registered (Strategy.mission a) = true →
  ∃ w1 agent',
    handle_crash registered w ship signal = Some w1
    ∧ mission <$> agents w1 !! ship = Some IDLE
    ∧ active_tasks w1 !! ship = None
    ∧ let w2 := (maybe_reassign registered finished plan order w1
                   cancelled).1 in
      agents w2 !! ship = Some agent'
      ∧ mission agent' = Strategy.mission a
      ∧ restart_count agent' = 0
      ∧ is_Some (active_tasks w2 !! ship)
      ∧ ∃ w3, crashes registered 5 w2 ship = Some w3
              ∧ restart_count <$> agents w3 !! ship = Some 5
              ∧ is_Some (active_tasks w3 !! ship)
              ∧ slept w3 = slept w ++ RESTART_BACKOFF.
Proof.
  intros Ha Hmax Hsh Hnd Hin Hplan Hidle Hreg.
  destruct (handle_crash_parks registered w ship agent signal Ha Hmax)
    as (w1 & Hw1 & Hm1 & _ & Ht1 & Hsl1 & _).
  assert (Hsh1 : shutdown w1 = shutdown w).
  { revert Hw1. unfold handle_crash. rewrite Ha.
    rewrite (proj2 (Z.leb_le _ _) Hmax). by intros [= <-]. }
  destruct (agents w1 !! ship) as [parked|] eqn:Hp; [|done].
  injection Hm1 as Hm1.
  destruct (maybe_reassign_agent plan order w1 cancelled ship
              parked a Hnd Hin Hp Hplan)
    as (agent' & Ha' & Hm' & _ & Hrc' & Hact' & Hsh2 & Hsl2);
    [by rewrite Hm1|].
  assert (Hl : launchable registered agent' = true).
  { unfold launchable. rewrite Hm', Hreg.
    by rewrite bool_decide_eq_false_2. }
  exists w1, agent'. split; [done|]. split; [by rewrite Hp; cbn; f_equal|].
  split; [done|]. cbv zeta.
  split; [done|]. split; [done|]. split; [done|].
  split; [by apply Hact'|].
  destruct (crashes_restart registered 5 _ ship agent' Ha')
    as (w3 & agent3 & Hw3 & Hsl3 & Ha3 & Hrc3 & _ & _ & Ht3);
    [lia | rewrite Hrc'; unfold MAX_RESTARTS; lia | done
    | by rewrite Hsh2, Hsh1 |].
  exists w3. split; [done|]. rewrite Ha3. cbn.
  split; [f_equal; lia|]. split; [apply Ht3; lia|].
  rewrite Hsl3, Hsl2, Hsl1, Hrc'. done.
Qed.

End FleetInvariants.

(* ===================================================================== *)
(** ** Properties of the request primitive *)
(* ===================================================================== *)

Section ClientFacts.
Import Client.
Local Open Scope Z_scope.

Variable int_of_str : string → option Z.

Lemma schedule_index _retry :
  0 ≤ _retry < MAX_RETRIES →
  ∃ wait, BACKOFF_SCHEDULE !! Z.to_nat _retry = Some wait
          ∧ Py.index BACKOFF_SCHEDULE _retry = Some wait.
Proof.
  unfold MAX_RETRIES. intros H.
  assert (_retry = 0 ∨ _retry = 1 ∨ _retry = 2 ∨ _retry = 3 ∨ _retry = 4)
    as Hcases by lia.
  destruct Hcases as [->|[->|[->|[->| ->]]]]; eexists; split; reflexivity.
Qed.

(** C5, as the code has it.  A response other than a 204 whose body
    carries an error entry and that signals a rate limit (HTTP status 429
    or error code 429), with fewer than 5 retries spent, is followed by a
    retry: after a wait of exactly [k] seconds when a non-empty retry-after
    header reads [k], after the delay the schedule 5, 10, 20, 40, 60 holds
    for the retry count when there is no such header. *)
Theorem rate_limited_request_retries response err upstream _retry st :
  status_code response ≠ 204 →
  error (body response) = Some err →
  error_code (status_code response) err = 429 ∨ status_code response = 429 →
  0 ≤ _retry < MAX_RETRIES →
  (∀ s k, retry_after response = Some s → s ≠ "" → int_of_str s = Some k →
     request int_of_str (Answer response :: upstream) _retry st
     = request int_of_str upstream (_retry + 1) (sleep k (enter st)))
  ∧ (retry_after response = None →
     ∃ wait, BACKOFF_SCHEDULE !! Z.to_nat _retry = Some wait
             ∧ request int_of_str (Answer response :: upstream) _retry st
               = request int_of_str upstream (_retry + 1)
                   (sleep wait (enter st))).
Proof.
  intros H204 Herr Hlimit Hretry.
  assert (Hcond :
    ((error_code (status_code response) err =? 429)
     || (status_code response =? 429)) && (_retry <? MAX_RETRIES) = true).
  { apply andb_true_iff. split; [|apply Z.ltb_lt; lia].
    apply orb_true_iff. destruct Hlimit as [H|H]; [left|right];
      by apply Z.eqb_eq. }
  assert (Hstep : ∀ rest,
    request int_of_str (Answer response :: rest) _retry st
    = wait ← match retry_after response with
             | Some s => if bool_decide (s = "")
                         then Py.index BACKOFF_SCHEDULE _retry
                         else int_of_str s
             | None => Py.index BACKOFF_SCHEDULE _retry
             end;
      request int_of_str rest (_retry + 1) (sleep wait (enter st))).
  { intros rest. cbn [request].
    rewrite (proj2 (Z.eqb_neq _ _) H204), Herr, Hcond. done. }
  split.
  - intros s k Hs Hne Hk. rewrite Hstep, Hs.
    rewrite bool_decide_eq_false_2 by done. by rewrite Hk.
  - intros Hnone. destruct (schedule_index _ Hretry) as (wait & Hw & Hidx).
    exists wait. split; [done|]. by rewrite Hstep, Hnone, Hidx.
Qed.

(** C5, the case it misses: a 429 whose body has no error entry is not
    retried; the HTTP status error is raised at once, without a wait. *)
Lemma bare_429_is_not_retried :
  let response := {| status_code := 429; retry_after := Some "7";
                     body := {| error := None; content := "{}" |} |} in
  let st := {| consecutive_failures := 0; sleeps := []; acquired := 0 |} in
  request decimal [Answer response; Answer response] 0 st
  = Some (RaiseHTTPStatusError 429,
          {| consecutive_failures := 0; sleeps := []; acquired := 1 |}).
Proof. reflexivity. Qed.

(** *** Attempts, pauses and the failure counter *)

Lemma enter_spec st :
  acquired (enter st) = S (acquired st)
  ∧ ((consecutive_failures st < CIRCUIT_BREAKER_THRESHOLD
      ∧ consecutive_failures (enter st) = consecutive_failures st
      ∧ sleeps (enter st) = sleeps st)
     ∨ (CIRCUIT_BREAKER_THRESHOLD ≤ consecutive_failures st
        ∧ consecutive_failures (enter st) = 0
        ∧ sleeps (enter st) = sleeps st ++ [CIRCUIT_BREAKER_PAUSE])).
Proof.
  unfold enter. cbn [consecutive_failures].
  destruct (Z.leb_spec CIRCUIT_BREAKER_THRESHOLD (consecutive_failures st));
    cbn; (split; [done|]); [right | left]; done.
Qed.

(** One attempt either ends the call or hands over to the next attempt,
    one retry further, after one more sleep. *)
Lemma request_step a upstream _retry st :
  (∃ o st1,
     request int_of_str (a :: upstream) _retry st = Some (o, st1)
     ∧ acquired st1 = acquired (enter st)
     ∧ sleeps st1 = sleeps (enter st)
     ∧ ((∃ b, o = Return b) ∧ consecutive_failures st1 = 0
        ∨ (∀ b, o ≠ Return b)
          ∧ (consecutive_failures st1 = consecutive_failures (enter st)
             ∨ consecutive_failures st1
               = consecutive_failures (enter st) + 1)))
  ∨ (_retry < MAX_RETRIES
     ∧ (request int_of_str (a :: upstream) _retry st = None
        ∨ ∃ wait b,
            (b = 0 ∨ b = 1)
            ∧ request int_of_str (a :: upstream) _retry st
              = request int_of_str upstream (_retry + 1)
                  {| consecutive_failures :=
                       consecutive_failures (enter st) + b;
                     sleeps := sleeps (enter st) ++ [wait];
                     acquired := acquired (enter st) |})).
Proof.
  cbn [request]. destruct a as [|response].
  - destruct (Z.ltb_spec _retry MAX_RETRIES).
    + right. split; [done|].
      destruct (Py.index BACKOFF_SCHEDULE _retry) as [wait|];
        cbn [mbind option_bind]; [right | by left].
      exists wait, 1. split; [by right | done].
    + left. eexists _, _. split; [done|]. cbn. split; [done|].
      split; [done|]. right. split; [done|]. by right.
  - destruct (status_code response =? 204).
    { left. eexists _, _. split; [done|]. cbn. split; [done|].
      split; [done|]. left. split; [by eexists | done]. }
    destruct (error (body response)) as [err|].
    + destruct (Z.ltb_spec _retry MAX_RETRIES); rewrite ?andb_false_r.
      * destruct ((error_code (status_code response) err =? 429)
                  || (status_code response =? 429)); cbn [andb].
        { right. split; [done|].
          destruct (match retry_after response with
                    | Some s0 => if bool_decide (s0 = "")
                                 then Py.index BACKOFF_SCHEDULE _retry
                                 else int_of_str s0
                    | None => Py.index BACKOFF_SCHEDULE _retry
                    end) as [wait|]; cbn [mbind option_bind];
            [right | by left].
          exists wait, 0. split; [by left|]. rewrite Z.add_0_r. done. }
        destruct ((error_code (status_code response) err =? 3000)
                  || (500 <=? status_code response)); cbn [andb].
        { right. split; [done|].
          destruct (Py.index BACKOFF_SCHEDULE _retry) as [wait|];
            cbn [mbind option_bind]; [right | by left].
          exists wait, 1. split; [by right | done]. }
        left. eexists _, _. split; [done|]. split; [done|].
        split; [done|]. right. split; [done|]. by left.
      * left. eexists _, _. split; [done|]. split; [done|].
        split; [done|]. right. split; [done|]. by left.
    + destruct (is_success (status_code response)).
      * left. eexists _, _. split; [done|]. cbn. split; [done|].
        split; [done|]. left. split; [by eexists | done].
      * left. eexists _, _. split; [done|]. split; [done|].
        split; [done|]. right. split; [done|]. by left.
Qed.

Lemma request_attempts upstream : ∀ _retry st o st',
  request int_of_str upstream _retry st = Some (o, st') →
  (acquired st < acquired st')%nat
  ∧ (acquired st'
     ≤ acquired st + Z.to_nat (Z.max 1 (MAX_RETRIES + 1 - _retry)))%nat.
Proof.
  induction upstream as [|a upstream IH]; intros _retry st o st' Hr; [done|].
  destruct (enter_spec st) as [Hacq _].
  destruct (request_step a upstream _retry st)
    as [(o1 & st1 & Hr1 & Ha1 & _)|[Hlt [Hnone|(wait & b & _ & Hr1)]]].
  - rewrite Hr1 in Hr. injection Hr as <- <-. rewrite Ha1, Hacq. lia.
  - by rewrite Hnone in Hr.
  - rewrite Hr1 in Hr. apply IH in Hr. cbn [acquired] in Hr.
    rewrite Hacq in Hr. unfold MAX_RETRIES in *. lia.
Qed.

(** Every attempt takes exactly one scheduler token, and a call makes at
    least one and at most [MAX_RETRIES + 1] attempts, the retries already
    spent included. *)
Theorem request_attempts_are_bounded upstream _retry st o st' :
  request int_of_str upstream _retry st = Some (o, st') →
  (1 ≤ acquired st' - acquired st
   ≤ Z.to_nat (Z.max 1 (MAX_RETRIES + 1 - _retry)))%nat.
Proof. intros Hr. apply request_attempts in Hr. lia. Qed.

Lemma others_alone st : others (λ n, n) st = st.
Proof. by destruct st. Qed.

(** A call that no other task disturbs is the call on its own. *)
Lemma request_shared_alone upstream : ∀ _retry st,
  request_shared int_of_str (alone <$> upstream) _retry st
  = request int_of_str upstream _retry st.
Proof.
  induction upstream as [|a upstream IH]; intros _retry st; [done|].
  cbn [fmap list_fmap alone quiet request_shared request during_acquire
         during_http].
  rewrite !others_alone.
  destruct a as [|response].
  - destruct (_retry <? MAX_RETRIES); [|done].
    destruct (Py.index BACKOFF_SCHEDULE _retry); cbn [mbind option_bind];
      [apply IH | done].
  - destruct (status_code response =? 204); [done|].
    destruct (error (body response)) as [err|]; [|done].
    destruct (_ && _).
    { destruct (match retry_after response with
                | Some s0 => _ | None => _ end);
        cbn [mbind option_bind]; [apply IH | done]. }
    destruct (_ && _); [|done].
    destruct (Py.index BACKOFF_SCHEDULE _retry); cbn [mbind option_bind];
      [apply IH | done].
Qed.





(** The counter does not stay within the threshold: a call that is made
    with the counter at 4 and fails six times in the transport, another
    task counting one failure of its own while the sixth attempt is under
    way, ends with the counter at 11. *)
Lemma shared_counter_exceeds_threshold :
  request_shared int_of_str
    (replicate 5 (alone TransportError)
     ++ [({| during_acquire := λ n, n; during_http := λ n, n + 1 |},
          TransportError)]) 0
    {| consecutive_failures := 4; sleeps := []; acquired := 0 |}
  = Some (RaiseTransportError,
          {| consecutive_failures := 11; sleeps := BACKOFF_SCHEDULE;
             acquired := 6 |}).
Proof. reflexivity. Qed.

(** An error answer that is not retried raises [ApiError] at once, with
    the code of the payload or, for want of one, the HTTP status: such
    are the error answers that signal neither a rate limit nor a server
    error, and every error answer once the retries are spent.  The
    attempt takes one token and sleeps no backoff, and the call counts no
    failure.  What it does besides is the check of the circuit breaker:
    finding the counter at the threshold when it has its token, it sleeps
    the pause and resets the counter; finding it below, it sleeps nothing
    and leaves the counter alone.  The counter is then as the other
    tasks leave it while the HTTP layer runs. *)
Theorem api_error_is_raised_at_once m response err upstream _retry st :
  status_code response ≠ 204 →
  error (body response) = Some err →
  let code := error_code (status_code response) err in
  let found := during_acquire m (consecutive_failures st) in
  MAX_RETRIES ≤ _retry
  ∨ (code ≠ 429 ∧ status_code response ≠ 429 ∧ code ≠ 3000
     ∧ status_code response < 500) →
  ∃ st',
    request_shared int_of_str ((m, Answer response) :: upstream) _retry st
    = Some (RaiseApiError (error_message err) code (error_data err), st')
    ∧ acquired st' = S (acquired st)
    ∧ (found < CIRCUIT_BREAKER_THRESHOLD →
       sleeps st' = sleeps st
       ∧ consecutive_failures st' = during_http m found)
    ∧ (CIRCUIT_BREAKER_THRESHOLD ≤ found →
       sleeps st' = sleeps st ++ [CIRCUIT_BREAKER_PAUSE]
       ∧ consecutive_failures st' = during_http m 0).
Proof.
  intros H204 Herr code found Hcase. cbn [request_shared].
  rewrite (proj2 (Z.eqb_neq _ _) H204), Herr. fold code.
  eexists. split.
  { destruct Hcase as [Hmax|(H1 & H2 & H3 & H4)].
    - rewrite (proj2 (Z.ltb_ge _ _) Hmax), !andb_false_r. done.
    - rewrite (proj2 (Z.eqb_neq _ _) H1), (proj2 (Z.eqb_neq _ _) H2),
        (proj2 (Z.eqb_neq _ _) H3), (proj2 (Z.leb_gt _ _) H4). done. }
  destruct (enter_spec (others (during_acquire m) st)) as [Hacq Hent].
  cbn [others set_failures consecutive_failures sleeps acquired]
    in Hacq, Hent |- *.
  fold found in Hent. split; [done|].
  split; intros Hf;
    (destruct Hent as [(? & Hc & Hs)|(? & Hc & Hs)]; [|]; try lia);
    by rewrite Hc, Hs.
Qed.

Lemma transport_error_retries upstream _retry st :
  0 ≤ _retry < MAX_RETRIES →
  consecutive_failures st < CIRCUIT_BREAKER_THRESHOLD →
  ∃ wait,
    BACKOFF_SCHEDULE !! Z.to_nat _retry = Some wait
    ∧ request int_of_str (TransportError :: upstream) _retry st
      = request int_of_str upstream (_retry + 1)
          {| consecutive_failures := consecutive_failures st + 1;
             sleeps := sleeps st ++ [wait];
             acquired := S (acquired st) |}.
Proof.
  intros Hr Hcf. destruct (schedule_index _retry Hr) as (wait & Hw & Hi).
  exists wait. split; [done|]. cbn [request].
  rewrite (proj2 (Z.ltb_lt _ _) (proj2 Hr)), Hi. cbn [mbind option_bind].
  unfold enter. cbn [consecutive_failures].
  rewrite (proj2 (Z.leb_gt _ _) Hcf). done.
Qed.

(** A call whose every attempt fails in the transport gives up on the
    sixth failure: it has slept 5, 10, 20, 40 and 60 seconds between the
    attempts, counted six failures, and reads no further answer. *)
Theorem transport_errors_exhaust_retries rest st :
  consecutive_failures st + 5 < CIRCUIT_BREAKER_THRESHOLD →
  request int_of_str (replicate 6 TransportError ++ rest) 0 st
  = Some (RaiseTransportError,
          {| consecutive_failures := consecutive_failures st + 6;
             sleeps := sleeps st ++ BACKOFF_SCHEDULE;
             acquired := 6 + acquired st |}).
Proof.
  intros Hcf. cbn [replicate app].
  repeat (match goal with
          | |- request _ (TransportError :: ?up) ?r ?s = _ =>
              destruct (transport_error_retries up r s) as (wait & Hw & ->);
              [unfold MAX_RETRIES; lia
              | cbn [consecutive_failures]; lia |];
              cbn in Hw; injection Hw as <-;
              cbn [consecutive_failures sleeps acquired]
          end).
  cbn [request]. unfold enter. cbn [consecutive_failures].
  rewrite (proj2 (Z.leb_gt _ _)) by lia.
  change (0 + 1 + 1 + 1 + 1 + 1 <? MAX_RETRIES) with false.
  unfold set_failures. cbn [sleeps acquired].
  rewrite <- !app_assoc. cbn [app]. do 2 f_equal. f_equal.
  cbn [consecutive_failures]. lia.
Qed.

End ClientFacts.

(* ===================================================================== *)
(** ** Pagination *)
(* ===================================================================== *)

Section PaginationFacts.
Import Client ClientSpec.
Local Open Scope Z_scope.

Context {Item : Type}.
Variable items : list Item.
Variable limit : Z.
Hypothesis limit_pos : 1 ≤ limit.

Lemma paginate_serve (n : nat) : ∀ page,
  1 ≤ page →
  Z.of_nat (length items) - (page - 1) * limit ≤ Z.of_nat n →
  ∃ last,
    page ≤ last
    ∧ Z.of_nat (length items) ≤ last * limit
    ∧ (last = page ∨ (last - 1) * limit < Z.of_nat (length items))
    ∧ ∀ fuel,
        paginate (serve items) fuel limit
          (take (Z.to_nat ((page - 1) * limit)) items) page
        = if (Z.to_nat (last - page) <? fuel)%nat
          then inr (Some (items,
                          {| meta_total := Z.of_nat (length items);
                             meta_page := last; meta_limit := limit |}))
          else inl tt.
Proof.
  induction n as [|n IH]; intros page Hpage Hrem;
    assert (0 ≤ (page - 1) * limit) by nia.
  - exists page. split; [lia|]. split; [lia|]. split; [by left|].
    intros [|fuel]; [by rewrite Z.sub_diag|].
    rewrite Z.sub_diag. cbn [paginate serve default from_option id page_data
                               page_meta meta_total].
    rewrite take_take_drop, <- Z2Nat.inj_add by lia.
    rewrite take_ge by lia.
    rewrite (proj2 (Z.leb_le _ _)) by lia. done.
  - destruct (Z.le_gt_cases (Z.of_nat (length items)) (page * limit))
      as [Hstop|Hmore].
    + exists page. split; [lia|]. split; [lia|]. split; [by left|].
      intros [|fuel]; [by rewrite Z.sub_diag|].
      rewrite Z.sub_diag. cbn [paginate serve default from_option id page_data
                                 page_meta meta_total].
      rewrite take_take_drop, <- Z2Nat.inj_add by lia.
      rewrite take_ge by lia.
      rewrite (proj2 (Z.leb_le _ _)) by lia. done.
    + destruct (IH (page + 1)) as (last & Hlast & Hcover & Hmin & Hrun);
        [lia | lia |].
      exists last. split; [lia|]. split; [done|].
      split; [right; destruct Hmin as [->|?]; lia|].
      intros [|fuel]; [done|].
      cbn [paginate serve default from_option id page_data page_meta
             meta_total].
      rewrite take_take_drop, <- Z2Nat.inj_add by lia.
      replace ((page - 1) * limit + limit) with (page * limit) by lia.
      rewrite length_take.
      rewrite (proj2 (Z.leb_gt _ _)) by lia. cbn [orb].
      destruct (take (Z.to_nat limit)
                  (drop (Z.to_nat ((page - 1) * limit)) items))
        as [|x data] eqn:Hdata.
      { apply (f_equal length) in Hdata.
        rewrite length_take, length_drop in Hdata. cbn in Hdata. lia. }
      specialize (Hrun fuel).
      replace (page + 1 - 1) with page in Hrun by lia.
      rewrite Hrun.
      replace (Z.to_nat (last - page)) with (S (Z.to_nat (last - (page + 1))))
        by lia.
      done.
Qed.

(** Against a server that serves [items] in pages of [limit] items and
    reports their number, [get_paginated] returns all the items, in order,
    with the meta of the last page; it requests exactly the pages 1 to
    [last], where [last] is the first page that covers the total (page 1
    when there is no item). *)
Theorem get_paginated_collects_every_item :
  ∃ last,
    1 ≤ last
    ∧ Z.of_nat (length items) ≤ last * limit
    ∧ (last = 1 ∨ (last - 1) * limit < Z.of_nat (length items))
    ∧ ∀ fuel,
        get_paginated (serve items) fuel limit
        = if (Z.to_nat last <=? fuel)%nat
          then inr (Some (items,
                          {| meta_total := Z.of_nat (length items);
                             meta_page := last; meta_limit := limit |}))
          else inl tt.
Proof.
  destruct (paginate_serve (length items) 1) as (last & H1 & H2 & H3 & Hrun);
    [lia | lia |].
  exists last. split; [done|]. split; [done|]. split; [done|].
  intros fuel. unfold get_paginated. specialize (Hrun fuel).
  replace ((1 - 1) * limit) with 0 in Hrun by lia.
  change (take (Z.to_nat 0) items) with (@nil Item) in Hrun.
  rewrite Hrun.
  destruct (Nat.ltb_spec (Z.to_nat (last - 1)) fuel),
           (Nat.leb_spec (Z.to_nat last) fuel); (done || lia).
Qed.

End PaginationFacts.

(* ===================================================================== *)
(** ** Properties of the router *)
(* ===================================================================== *)

Section RouterFacts.
Import Router.
Local Open Scope Z_scope.

Lemma ceil_positive m e c :
  PyFloat.ceil (S754_finite false m e) = Some c → 1 ≤ c.
Proof.
  cbn [PyFloat.ceil PyFloat.signed]. intros [= <-].
  destruct (Z.leb_spec 0 e) as [He|He].
  - assert (0 < 2 ^ e) by (apply Z.pow_pos_nonneg; lia). nia.
  - assert (0 < 2 ^ (- e)) by (apply Z.pow_pos_nonneg; lia).
    assert (- Z.pos m / 2 ^ (- e) < 0); [|lia].
    apply Z.div_lt_upper_bound; lia.
Qed.

(** C7, as the code has it.  For a distance whose ceiling is [c], the fuel
    cost of a leg is [max(1, c)] in CRUISE mode, 1 in DRIFT mode and
    [2 * max(1, c)] in BURN mode; for a positive distance these are [c],
    1 and [2 * c]. *)
Theorem fuel_cost_by_mode dist c :
  PyFloat.ceil dist = Some c →
  fuel_cost dist "CRUISE" = Some (Z.max 1 c)
  ∧ fuel_cost dist "DRIFT" = Some 1
  ∧ fuel_cost dist "BURN" = Some (2 * Z.max 1 c)
  ∧ (PyFloat.ltb (S754_zero false) dist = true → Z.max 1 c = c).
Proof.
  intros Hc. unfold fuel_cost. rewrite Hc. cbn [mbind option_bind].
  split; [done|]. split; [done|]. split; [cbn; f_equal; lia|].
  intros Hpos. destruct dist as [s|s| |s m e]; try done.
  destruct s; [done|]. apply ceil_positive in Hc. lia.
Qed.

(** C7, the case it misses: two waypoints at the same place are at
    distance 0, whose ceiling is 0, and the leg costs 1 unit in CRUISE
    mode and 2 in BURN mode. *)
Lemma fuel_cost_at_distance_zero :
  distance 0 0 0 0 = Some (S754_zero false)
  ∧ PyFloat.ceil (S754_zero false) = Some 0
  ∧ fuel_cost (S754_zero false) "CRUISE" = Some 1
  ∧ fuel_cost (S754_zero false) "BURN" = Some 2.
Proof. repeat split; reflexivity. Qed.

(** C9. With distinct origin and destination, one of which has no
    coordinates, the planner returns an infeasible plan that carries a
    reason; nothing is raised and no coordinate is looked up. *)
Theorem unknown_waypoint_is_infeasible coords fuel_waypoints origin
    destination fuel_capacity speed mode :
  origin ≠ destination →
  coords !! origin = None ∨ coords !! destination = None →
  plan_multihop coords fuel_waypoints destination fuel_capacity speed mode
    origin
  = Some {| segments := []; total_fuel := 0; total_seconds := 0;
            feasible := false;
            reason := "Unknown coordinates for " +:+ origin +:+ " or "
                      +:+ destination |}.
Proof.
  intros Hne Hmiss. unfold plan_multihop.
  rewrite bool_decide_eq_false_2 by done.
  destruct Hmiss as [-> | ->]; [done|].
  by destruct (coords !! origin).
Qed.

End RouterFacts.

(* ===================================================================== *)
(** ** Binary64 rounding: magnitudes and exact cases *)
(* ===================================================================== *)

Section FloatRounding.
Import PyFloatSpec.
Local Open Scope Z_scope.

(** *** Digits *)

Lemma digits2_pos_size p : digits2_pos p = Pos.size p.
Proof. induction p as [p IH|p IH|]; cbn; by rewrite ?IH. Qed.

Lemma Zdigits2_log2 p : Zdigits2 (Z.pos p) = Z.log2 (Z.pos p) + 1.
Proof.
  cbn [Zdigits2]. rewrite digits2_pos_size.
  destruct p as [p|p|]; cbn [Pos.size Z.log2]; lia.
Qed.

Lemma Zdigits2_nonneg m : 0 ≤ Zdigits2 m.
Proof. destruct m; cbn [Zdigits2]; lia. Qed.

Lemma Zdigits2_le m k : 0 ≤ m < 2 ^ k → Zdigits2 m ≤ k.
Proof.
  intros [H0 Hk]. destruct m as [|p|p]; [|
    |lia].
  - cbn [Zdigits2]. destruct (Z.le_gt_cases 0 k); [done|].
    rewrite Z.pow_neg_r in Hk; lia.
  - rewrite Zdigits2_log2. apply Z.log2_lt_pow2 in Hk; lia.
Qed.

Lemma Zdigits2_gt m : 0 ≤ m → m < 2 ^ Zdigits2 m.
Proof.
  intros H0. destruct m as [|p|p]; [done| |lia].
  rewrite Zdigits2_log2. apply Z.log2_spec. lia.
Qed.

Lemma Zdigits2_lower p : 2 ^ (Zdigits2 (Z.pos p) - 1) ≤ Z.pos p.
Proof.
  rewrite Zdigits2_log2. replace (Z.log2 (Z.pos p) + 1 - 1) with (Z.log2 (Z.pos p)) by lia.
  apply Z.log2_spec. lia.
Qed.

Lemma Zdigits2_mul_pow2 p j :
  0 ≤ j → Zdigits2 (Z.pos p * 2 ^ j) = Zdigits2 (Z.pos p) + j.
Proof.
  intros Hj. assert (0 < 2 ^ j) by (apply Z.pow_pos_nonneg; lia).
  destruct (Z.pos p * 2 ^ j) as [|q|q] eqn:Hq; [lia| |lia].
  rewrite !Zdigits2_log2, <- Hq, Z.log2_mul_pow2; lia.
Qed.

(** *** Shifting right *)

Lemma iter_pos_nat {A} (f : A → A) (p : positive) (x : A) :
  SpecFloat.iter_pos f p x = Nat.iter (Pos.to_nat p) f x.
Proof.
  revert x. induction p as [p IH|p IH|]; intros x; cbn [SpecFloat.iter_pos].
  - rewrite !IH, Pos2Nat.inj_xI, <- Nat.iter_succ_r, <- Nat.iter_add.
    f_equal. lia.
  - rewrite !IH, Pos2Nat.inj_xO, <- Nat.iter_add. f_equal. lia.
  - done.
Qed.

Lemma shr_1_m r : 0 ≤ shr_m r → shr_m (shr_1 r) = shr_m r / 2.
Proof.
  destruct r as [m b s]. cbn [shr_m shr_1]. intros Hm.
  destruct m as [|[p|p|]|p]; cbn [shr_m]; try lia;
    by rewrite <- Z.div2_div.
Qed.

Lemma shr_iter_m n r :
  0 ≤ shr_m r → shr_m (Nat.iter n shr_1 r) = shr_m r / 2 ^ Z.of_nat n.
Proof.
  intros Hm. induction n as [|n IH].
  - cbn. by rewrite Z.div_1_r.
  - rewrite Nat.iter_succ, shr_1_m.
    + rewrite IH, Z.div_div, Nat2Z.inj_succ, Z.pow_succ_r by lia.
      f_equal. lia.
    + rewrite IH. apply Z.div_pos; lia.
Qed.

(** The mantissa and the exponent after [shr_fexp]. *)
Lemma shr_fexp_m m e l :
  0 ≤ m →
  let n := Z.max 0 (fexp PyFloat.prec PyFloat.emax (Zdigits2 m + e) - e) in
  shr_m (shr_fexp PyFloat.prec PyFloat.emax m e l).1 = m / 2 ^ n
  ∧ (shr_fexp PyFloat.prec PyFloat.emax m e l).2 = e + n.
Proof.
  intros Hm n. unfold shr_fexp, shr.
  assert (Hrec : shr_m (shr_record_of_loc m l) = m)
    by by destruct l as [|[]].
  subst n.
  destruct (fexp PyFloat.prec PyFloat.emax (Zdigits2 m + e) - e) as [|p|p] eqn:Hn;
    cbn [fst snd].
  - rewrite Hrec, Z.max_l by done. rewrite Z.div_1_r. split; [done | lia].
  - rewrite iter_pos_nat, shr_iter_m, Hrec by lia.
    rewrite positive_nat_Z, Z.max_r by lia. done.
  - rewrite Hrec, Z.max_l by lia. rewrite Z.div_1_r. split; [done | lia].
Qed.

Lemma round_nearest_even_bounds m l :
  m ≤ round_nearest_even m l ≤ m + 1.
Proof.
  destruct l as [|[]]; cbn [round_nearest_even]; try lia.
  destruct (Z.even m); lia.
Qed.

Lemma fexp_le D K :
  D ≤ K → fexp PyFloat.prec PyFloat.emax D
          ≤ Z.max (K - 53) (-1074).
Proof. unfold fexp, emin, PyFloat.prec, PyFloat.emax. lia. Qed.

Lemma fexp_ge D : -1074 ≤ fexp PyFloat.prec PyFloat.emax D.
Proof. unfold fexp, emin, PyFloat.prec, PyFloat.emax. lia. Qed.


Lemma div_pow2_lt m n k :
  0 ≤ m < 2 ^ k → 0 ≤ n ≤ k → m / 2 ^ n < 2 ^ (k - n).
Proof.
  intros Hm Hn. apply Z.div_lt_upper_bound; [apply Z.pow_pos_nonneg; lia|].
  rewrite <- Z.pow_add_r by lia. replace (n + (k - n)) with k by lia. lia.
Qed.

Lemma div_pow2_small m n k :
  0 ≤ m < 2 ^ k → k ≤ n → m / 2 ^ n = 0.
Proof.
  intros Hm Hn. apply Z.div_small. split; [lia|].
  eapply Z.lt_le_trans; [apply Hm|]. apply Z.pow_le_mono_r; lia.
Qed.

(** Rounding a non-negative mantissa whose value is below [2 ^ K] yields a
    zero or a finite float below [2 ^ (K + 1)]: no overflow. *)
Lemma binary_round_aux_below sx mx ex lx K :
  0 ≤ mx < 2 ^ (K - ex) → ex ≤ 971 → -1074 ≤ K ≤ 1023 →
  below (K + 1) (binary_round_aux PyFloat.prec PyFloat.emax sx mx ex lx)
  ∧ (sx = false →
     nonneg (binary_round_aux PyFloat.prec PyFloat.emax sx mx ex lx)).
Proof.
  intros Hmx Hex HK. unfold binary_round_aux.
  assert (Kex : 0 ≤ K - ex).
  { destruct (Z.le_gt_cases 0 (K - ex)); [done|].
    rewrite Z.pow_neg_r in Hmx; lia. }
  pose proof (shr_fexp_m mx ex lx (proj1 Hmx)) as [Hm1 He1].
  destruct (shr_fexp PyFloat.prec PyFloat.emax mx ex lx) as [mrs1 e1].
  cbn [fst snd] in Hm1, He1.
  pose proof (Zdigits2_le mx (K - ex) Hmx) as Hd.
  pose proof (Zdigits2_nonneg mx) as Hd0.
  assert (Hf1 := fexp_le (Zdigits2 mx + ex) K). specialize (Hf1 ltac:(lia)).
  pose proof (fexp_ge (Zdigits2 mx + ex)) as Hf1'.
  set (n1 := Z.max 0 (fexp PyFloat.prec PyFloat.emax (Zdigits2 mx + ex) - ex))
    in *.
  assert (Hn1 : 0 ≤ n1 ≤ K - ex) by lia.
  assert (Hm1b : 0 ≤ shr_m mrs1 < 2 ^ (K - e1)).
  { rewrite Hm1, He1. split; [apply Z.div_pos; [lia|apply Z.pow_pos_nonneg; lia]|].
    replace (K - (ex + n1)) with (K - ex - n1) by lia.
    by apply div_pow2_lt. }
  pose proof (round_nearest_even_bounds (shr_m mrs1) (loc_of_shr_record mrs1))
    as Hm2.
  set (m2 := round_nearest_even (shr_m mrs1) (loc_of_shr_record mrs1)) in *.
  assert (Hm2b : 0 ≤ m2 < 2 ^ (K + 1 - e1)).
  { split; [lia|]. replace (K + 1 - e1) with (Z.succ (K - e1)) by lia.
    rewrite Z.pow_succ_r by lia. lia. }
  pose proof (shr_fexp_m m2 e1 loc_Exact (proj1 Hm2b)) as [Hm3 He2].
  destruct (shr_fexp PyFloat.prec PyFloat.emax m2 e1 loc_Exact) as [mrs2 e2].
  cbn [fst snd] in Hm3, He2.
  pose proof (Zdigits2_le m2 (K + 1 - e1) Hm2b) as Hd2.
  pose proof (Zdigits2_nonneg m2) as Hd20.
  assert (Hf2 := fexp_le (Zdigits2 m2 + e1) (K + 1)). specialize (Hf2 ltac:(lia)).
  set (n2 := Z.max 0 (fexp PyFloat.prec PyFloat.emax (Zdigits2 m2 + e1) - e1))
    in *.
  assert (He2b : e2 ≤ 971) by lia.
  destruct (shr_m mrs2) as [|p|p] eqn:Hm3'.
  - done.
  - replace (e2 <=? PyFloat.emax - PyFloat.prec) with true
      by (symmetry; apply Z.leb_le; unfold PyFloat.emax, PyFloat.prec; lia).
    split; [|by intros ->]. cbn [below].
    destruct (Z.le_gt_cases n2 (K + 1 - e1)) as [Hle|Hgt].
    + rewrite Hm3, He2. replace (K + 1 - (e1 + n2)) with (K + 1 - e1 - n2) by lia.
      apply div_pow2_lt; lia.
    + rewrite (div_pow2_small m2 n2 (K + 1 - e1)) in Hm3 by lia. lia.
  - assert (0 ≤ m2 / 2 ^ n2); [|lia].
    apply Z.div_pos; [lia | apply Z.pow_pos_nonneg; lia].
Qed.


Lemma binary_round_aux_lower sx mx ex lx K L :
  0 ≤ mx < 2 ^ (K - ex) → 2 ^ (L - ex) ≤ mx →
  ex ≤ L → K ≤ L + 52 → -1074 ≤ L ≤ 971 →
  ∃ m e, binary_round_aux PyFloat.prec PyFloat.emax sx mx ex lx
         = S754_finite sx m e
         ∧ 2 ^ (L - e) ≤ Z.pos m.
Proof.
  intros Hmx Hlow Hex HK HL. unfold binary_round_aux.
  assert (Kex : 0 ≤ K - ex).
  { destruct (Z.le_gt_cases 0 (K - ex)); [done|].
    rewrite Z.pow_neg_r in Hmx; lia. }
  assert (HLK : L - ex < K - ex) by (apply (Z.pow_lt_mono_r_iff 2); lia).
  pose proof (shr_fexp_m mx ex lx (proj1 Hmx)) as [Hm1 He1].
  destruct (shr_fexp PyFloat.prec PyFloat.emax mx ex lx) as [mrs1 e1].
  cbn [fst snd] in Hm1, He1.
  pose proof (Zdigits2_le mx (K - ex) Hmx) as Hd.
  pose proof (Zdigits2_nonneg mx) as Hd0.
  assert (Hf1 := fexp_le (Zdigits2 mx + ex) K). specialize (Hf1 ltac:(lia)).
  set (n1 := Z.max 0 (fexp PyFloat.prec PyFloat.emax (Zdigits2 mx + ex) - ex))
    in *.
  assert (Hn1 : 0 ≤ n1 ≤ K - ex) by lia.
  assert (He1L : e1 ≤ L) by lia.
  assert (Hm1b : 2 ^ (L - e1) ≤ shr_m mrs1 < 2 ^ (K - e1)).
  { rewrite Hm1, He1. split.
    - apply Z.div_le_lower_bound; [apply Z.pow_pos_nonneg; lia|].
      rewrite <- Z.pow_add_r by lia.
      by replace (n1 + (L - (ex + n1))) with (L - ex) by lia.
    - replace (K - (ex + n1)) with (K - ex - n1) by lia.
      by apply div_pow2_lt. }
  assert (0 < 2 ^ (L - e1)) by (apply Z.pow_pos_nonneg; lia).
  pose proof (round_nearest_even_bounds (shr_m mrs1) (loc_of_shr_record mrs1))
    as Hm2.
  set (m2 := round_nearest_even (shr_m mrs1) (loc_of_shr_record mrs1)) in *.
  assert (Hm2b : 0 ≤ m2 < 2 ^ (K + 1 - e1)).
  { split; [lia|]. replace (K + 1 - e1) with (Z.succ (K - e1)) by lia.
    rewrite Z.pow_succ_r by lia. lia. }
  pose proof (shr_fexp_m m2 e1 loc_Exact (proj1 Hm2b)) as [Hm3 He2].
  destruct (shr_fexp PyFloat.prec PyFloat.emax m2 e1 loc_Exact) as [mrs2 e2].
  cbn [fst snd] in Hm3, He2.
  pose proof (Zdigits2_le m2 (K + 1 - e1) Hm2b) as Hd2.
  pose proof (Zdigits2_nonneg m2) as Hd20.
  assert (Hf2 := fexp_le (Zdigits2 m2 + e1) (K + 1)). specialize (Hf2 ltac:(lia)).
  set (n2 := Z.max 0 (fexp PyFloat.prec PyFloat.emax (Zdigits2 m2 + e1) - e1))
    in *.
  assert (He2L : e2 ≤ L) by lia.
  assert (Hm3b : 2 ^ (L - e2) ≤ shr_m mrs2).
  { rewrite Hm3, He2.
    apply Z.div_le_lower_bound; [apply Z.pow_pos_nonneg; lia|].
    rewrite <- Z.pow_add_r by lia.
    replace (n2 + (L - (e1 + n2))) with (L - e1) by lia. lia. }
  assert (0 < 2 ^ (L - e2)) by (apply Z.pow_pos_nonneg; lia).
  destruct (shr_m mrs2) as [|p|p]; [lia| |lia].
  replace (e2 <=? PyFloat.emax - PyFloat.prec) with true
    by (symmetry; apply Z.leb_le; unfold PyFloat.emax, PyFloat.prec; lia).
  by exists p, e2.
Qed.

(** *** Aligning to the left *)

Lemma pos_iter_xO p d : Z.pos (Pos.iter xO p d) = Z.pos p * 2 ^ Z.pos d.
Proof.
  rewrite (Pos.iter_swap_gen _ _ Z.pos xO (Z.mul 2)) by done.
  change (Pos.iter (Z.mul 2) (Z.pos p) d) with (Z.shiftl (Z.pos p) (Z.pos d)).
  by rewrite Z.shiftl_mul_pow2.
Qed.

Lemma shl_align_spec mx ex ex' :
  (shl_align mx ex ex').2 = Z.min ex ex'
  ∧ Z.pos (shl_align mx ex ex').1
    = Z.pos mx * 2 ^ (ex - (shl_align mx ex ex').2).
Proof.
  unfold shl_align. destruct (ex' - ex) as [|d|d] eqn:Hd; cbn [fst snd].
  - replace (ex - ex) with 0 by lia. split; lia.
  - replace (ex - ex) with 0 by lia. split; lia.
  - rewrite pos_iter_xO. split; [lia|]. f_equal. f_equal. lia.
Qed.

Lemma binary_round_below sx mx ex K :
  Z.pos mx < 2 ^ (K - ex) → -1074 ≤ K ≤ 1023 →
  below (K + 1) (binary_round PyFloat.prec PyFloat.emax sx mx ex)
  ∧ (sx = false → nonneg (binary_round PyFloat.prec PyFloat.emax sx mx ex)).
Proof.
  intros Hmx HK. unfold binary_round.
  assert (Kex : 0 ≤ K - ex).
  { destruct (Z.le_gt_cases 0 (K - ex)); [done|].
    rewrite Z.pow_neg_r in Hmx; lia. }
  pose proof (shl_align_spec mx ex
                (fexp PyFloat.prec PyFloat.emax (Z.pos (digits2_pos mx) + ex)))
    as [Hez Hmz].
  destruct (shl_align mx ex _) as [mz ez]. cbn [fst snd] in Hez, Hmz.
  pose proof (Zdigits2_le (Z.pos mx) (K - ex) ltac:(lia)) as Hd.
  cbn [Zdigits2] in Hd.
  assert (Hf := fexp_le (Z.pos (digits2_pos mx) + ex) K).
  specialize (Hf ltac:(lia)).
  apply binary_round_aux_below; [|lia|lia].
  split; [lia|]. rewrite Hmz.
  replace (K - ez) with ((K - ex) + (ex - ez)) by lia.
  rewrite Z.pow_add_r by lia.
  apply Z.mul_lt_mono_pos_r; [apply Z.pow_pos_nonneg; lia | done].
Qed.


(** *** The operations stay finite *)

Lemma below_mono K K' f : below K f → K ≤ K' → below K' f.
Proof.
  destruct f as [| | |s m e]; cbn [below]; try done. intros Hm HK.
  eapply Z.lt_le_trans; [exact Hm|]. apply Z.pow_le_mono_r; lia.
Qed.

Lemma below_exponent K s m e : below K (S754_finite s m e) → e < K.
Proof.
  cbn [below]. intros Hm. destruct (Z.lt_ge_cases e K); [done|].
  assert (2 ^ (K - e) ≤ 1); [|lia].
  destruct (Z.eq_dec K e) as [->|]; [by rewrite Z.sub_diag|].
  rewrite Z.pow_neg_r; lia.
Qed.

Lemma of_int_below n K :
  0 ≤ n < 2 ^ K → 0 ≤ K ≤ 1023 →
  ∃ f, PyFloat.of_int n = Some f ∧ below (K + 1) f ∧ nonneg f.
Proof.
  intros Hn HK. unfold PyFloat.of_int, binary_normalize.
  destruct n as [|p|p]; [by eexists| |lia].
  destruct (binary_round_below false p 0 K) as [Hb Hs];
    [rewrite Z.sub_0_r; lia | lia |].
  specialize (Hs eq_refl).
  destruct (binary_round PyFloat.prec PyFloat.emax false p 0)
    as [| | |s m e]; try done; by eexists.
Qed.

Lemma of_int_at_least_one n :
  1 ≤ n < 2 ^ 52 →
  ∃ f, PyFloat.of_int n = Some f ∧ at_least_one f.
Proof.
  intros Hn. unfold PyFloat.of_int, binary_normalize.
  destruct n as [|p|p]; [lia| |lia]. unfold binary_round.
  pose proof (shl_align_spec p 0
                (fexp PyFloat.prec PyFloat.emax (Z.pos (digits2_pos p) + 0)))
    as [Hez Hmz].
  destruct (shl_align p 0 _) as [mz ez]. cbn [fst snd] in Hez, Hmz.
  pose proof (Zdigits2_le (Z.pos p) 52 ltac:(lia)) as Hd.
  cbn [Zdigits2] in Hd.
  assert (Hf := fexp_le (Z.pos (digits2_pos p) + 0) 52).
  specialize (Hf ltac:(lia)).
  assert (Hmz' : 2 ^ (0 - ez) ≤ Z.pos mz < 2 ^ (52 - ez)).
  { rewrite Hmz. replace (0 - ez) with (0 + (0 - ez)) by lia.
    replace (52 - ez) with (52 + (0 - ez)) by lia.
    rewrite !Z.pow_add_r by lia.
    assert (0 < 2 ^ (0 - ez)) by (apply Z.pow_pos_nonneg; lia).
    change (2 ^ 0) with 1. nia. }
  destruct (binary_round_aux_lower false (Z.pos mz) ez loc_Exact 52 0)
    as (m & e & -> & Hm); try lia.
  eexists. split; [done|]. cbn [at_least_one].
  by replace (- e) with (0 - e) by lia.
Qed.

Lemma mul_below K1 K2 x y :
  below K1 x → below K2 y → -1074 ≤ K1 + K2 ≤ 973 →
  below (K1 + K2 + 1) (PyFloat.mul x y)
  ∧ (nonneg x → nonneg y → nonneg (PyFloat.mul x y)).
Proof.
  intros Hx Hy HK. unfold PyFloat.mul, SFmul.
  destruct x as [sx| | |sx mx ex], y as [sy| | |sy my ey]; try done.
  pose proof (below_exponent _ _ _ _ Hx). pose proof (below_exponent _ _ _ _ Hy).
  cbn [below] in Hx, Hy.
  destruct (binary_round_aux_below (xorb sx sy) (Z.pos (mx * my)) (ex + ey)
              loc_Exact (K1 + K2)) as [Hb Hs]; [|lia|lia|].
  - split; [lia|]. rewrite Pos2Z.inj_mul.
    replace (K1 + K2 - (ex + ey)) with ((K1 - ex) + (K2 - ey)) by lia.
    rewrite Z.pow_add_r by lia. nia.
  - split; [done|]. destruct sx, sy; try done. intros _ _. by apply Hs.
Qed.

Lemma digits_lower_bound m k : 0 ≤ k → 2 ^ k ≤ m → k + 1 ≤ Zdigits2 m.
Proof.
  intros Hk Hm. assert (0 < 2 ^ k) by (apply Z.pow_pos_nonneg; lia).
  pose proof (Zdigits2_gt m ltac:(lia)).
  pose proof (Zdigits2_nonneg m).
  assert (k < Zdigits2 m); [|lia].
  apply (Z.pow_lt_mono_r_iff 2); lia.
Qed.

Lemma div_below K x y :
  below K x → at_least_one y → -1074 ≤ K ≤ 1023 →
  ∃ z, PyFloat.div x y = Some z ∧ below (K + 1) z
       ∧ (nonneg x → nonneg z).
Proof.
  intros Hx Hy HK. unfold PyFloat.div, SFdiv.
  destruct y as [| | |[] my ey]; try done. cbn [at_least_one] in Hy.
  destruct x as [sx| | |sx mx ex]; try done; [by eexists|].
  pose proof (below_exponent _ _ _ _ Hx) as Hex. cbn [below] in Hx.
  unfold SFdiv_core_binary.
  set (d1 := Zdigits2 (Z.pos mx)). set (d2 := Zdigits2 (Z.pos my)).
  set (e' := Z.min (fexp PyFloat.prec PyFloat.emax (d1 + ex - (d2 + ey)))
                   (ex - ey)).
  set (s := ex - ey - e').
  set (m' := match s with
             | Z.pos _ => Z.shiftl (Z.pos mx) s
             | 0 => Z.pos mx
             | Z.neg _ => 0
             end).
  assert (Hs : 0 ≤ s) by (subst s e'; lia).
  assert (Hm' : m' = Z.pos mx * 2 ^ s).
  { subst m'. destruct s as [|p|p] eqn:Hsp; [lia| |lia].
    by rewrite Z.shiftl_mul_pow2. }
  assert (Hd1 : d1 ≤ K - ex) by (apply Zdigits2_le; lia).
  assert (Hd2 : 1 ≤ d2 + ey).
  { destruct (Z.le_gt_cases 0 ey).
    - pose proof (digits_lower_bound (Z.pos my) 0 ltac:(lia) ltac:(cbn; lia)).
      subst d2. lia.
    - pose proof (digits_lower_bound (Z.pos my) (- ey) ltac:(lia) Hy).
      subst d2. lia. }
  assert (Hf := fexp_le (d1 + ex - (d2 + ey)) (K - 1)).
  specialize (Hf ltac:(lia)).
  assert (He' : e' ≤ K ∧ e' ≤ 971) by (subst e'; lia).
  assert (0 < 2 ^ s) by (apply Z.pow_pos_nonneg; lia).
  destruct (Z.div_eucl m' (Z.pos my)) as [q r] eqn:Hqr.
  assert (Hq : q = m' / Z.pos my) by (unfold Z.div; by rewrite Hqr).
  assert (Hq0 : 0 ≤ q) by (rewrite Hq; apply Z.div_pos; lia).
  assert (Hm'b : m' < 2 ^ (K - ey - e')).
  { rewrite Hm'. replace (K - ey - e') with ((K - ex) + s) by (subst s; lia).
    rewrite Z.pow_add_r by lia. nia. }
  assert (Hqb : q < 2 ^ (K - e')).
  { rewrite Hq. destruct (Z.le_gt_cases ey 0) as [Hey|Hey].
    - eapply Z.le_lt_trans;
        [apply (Z.div_le_compat_l m' (2 ^ (- ey)) (Z.pos my)); [lia|]|].
      + split; [apply Z.pow_pos_nonneg; lia | done].
      + replace (K - e') with (K - ey - e' - (- ey)) by lia.
        apply div_pow2_lt; lia.
    - eapply Z.le_lt_trans; [apply Z.div_le_upper_bound;
        [lia | instantiate (1 := m'); nia]|].
      eapply Z.lt_le_trans; [exact Hm'b|]. apply Z.pow_le_mono_r; lia. }
  destruct (binary_round_aux_below (xorb sx false) q e'
              (new_location (Z.pos my) r) K) as [Hb Hn]; [lia|lia|lia|].
  eexists. split; [done|]. split; [done|].
  destruct sx; [done|]. intros _. by apply Hn.
Qed.


Lemma sqrt_below K x :
  below K x → nonneg x → 0 ≤ K ≤ 1023 →
  ∃ y, PyFloat.sqrt x = Some y ∧ below (K + 1) y ∧ nonneg y.
Proof.
  intros Hx Hpos HK. unfold PyFloat.sqrt, SFsqrt.
  destruct x as [sx| | |[] m e]; try done; [by eexists|].
  pose proof (below_exponent _ _ _ _ Hx) as Hex. cbn [below] in Hx.
  unfold SFsqrt_core_binary.
  set (d := Zdigits2 (Z.pos m)).
  set (e' := Z.min (fexp PyFloat.prec PyFloat.emax (Z.div2 (d + e + 1)))
                   (Z.div2 e)).
  set (s := e - 2 * e').
  set (m' := match s with
             | Z.pos _ => Z.shiftl (Z.pos m) s
             | 0 => Z.pos m
             | Z.neg _ => 0
             end).
  assert (Hd : d ≤ K - e) by (apply Zdigits2_le; lia).
  assert (Hdiv2 : ∀ a, 2 * Z.div2 a ≤ a ≤ 2 * Z.div2 a + 1).
  { intros a. rewrite Z.div2_div. pose proof (Z.div_mod a 2 ltac:(lia)).
    pose proof (Z.mod_pos_bound a 2 ltac:(lia)). lia. }
  pose proof (Hdiv2 e). pose proof (Hdiv2 (d + e + 1)).
  assert (Hs : 0 ≤ s) by (subst s e'; lia).
  assert (Hm' : m' = Z.pos m * 2 ^ s).
  { subst m'. destruct s as [|p|p] eqn:Hsp; [lia| |lia].
    by rewrite Z.shiftl_mul_pow2. }
  assert (Hf := fexp_le (Z.div2 (d + e + 1)) K). specialize (Hf ltac:(lia)).
  assert (He' : e' ≤ K ∧ e' ≤ 971) by (subst e'; lia).
  assert (0 < 2 ^ s) by (apply Z.pow_pos_nonneg; lia).
  pose proof (Z.sqrtrem_spec m' ltac:(lia)) as Hsqrt.
  destruct (Z.sqrtrem m') as [q r]. destruct Hsqrt as [Hqr Hr].
  assert (Hq0 : 0 ≤ q) by lia.
  assert (Hm'b : m' < 2 ^ (K - 2 * e')).
  { rewrite Hm'. replace (K - 2 * e') with ((K - e) + s) by (subst s; lia).
    rewrite Z.pow_add_r by lia. nia. }
  assert (Hqb : q < 2 ^ (K - e')).
  { destruct (Z.lt_ge_cases q (2 ^ (K - e'))) as [|Hge]; [done|].
    assert (0 < 2 ^ (K - e')) by (apply Z.pow_pos_nonneg; lia).
    assert (2 ^ (K - e') * 2 ^ (K - e') ≤ q * q) by nia.
    rewrite <- Z.pow_add_r in * by lia.
    assert (2 ^ (K - 2 * e') ≤ 2 ^ (K - e' + (K - e')))
      by (apply Z.pow_le_mono_r; lia).
    lia. }
  destruct (binary_round_aux_below false q e'
              (if r =? 0 then loc_Exact
               else loc_Inexact (if r <=? q then Lt else Gt)) K)
    as [Hb Hn]; [lia|lia|lia|].
  eexists. split; [done|]. split; [done|]. by apply Hn.
Qed.

Lemma add_below K1 K2 x y :
  below K1 x → below K2 y → nonneg x → nonneg y →
  -1074 ≤ Z.max K1 K2 ≤ 1022 →
  below (Z.max K1 K2 + 2) (PyFloat.add x y) ∧ nonneg (PyFloat.add x y).
Proof.
  intros Hx Hy Hxp Hyp HK. unfold PyFloat.add, SFadd.
  destruct x as [sx| | |[] mx ex], y as [sy| | |[] my ey]; try done.
  - by destruct sx, sy.
  - split; [|done]. eapply below_mono; [exact Hy | lia].
  - split; [|done]. eapply below_mono; [exact Hx | lia].
  - pose proof (below_exponent _ _ _ _ Hx). pose proof (below_exponent _ _ _ _ Hy).
    cbn [below] in Hx, Hy.
    pose proof (shl_align_spec mx ex (Z.min ex ey)) as [Hex Hmx].
    pose proof (shl_align_spec my ey (Z.min ex ey)) as [Hey Hmy].
    destruct (shl_align mx ex (Z.min ex ey)) as [ax ez1].
    destruct (shl_align my ey (Z.min ex ey)) as [ay ez2].
    cbn [fst snd cond_Zopp] in *.
    change (Z.pos ax + Z.pos ay) with (Z.pos (ax + ay)).
    cbn [binary_normalize].
    set (K := Z.max K1 K2) in *.
    destruct (binary_round_below false (ax + ay) (Z.min ex ey) (K + 1))
      as [Hb Hn]; [|lia|].
    + assert (ez1 = Z.min ex ey) as -> by lia.
      assert (ez2 = Z.min ex ey) as -> by lia.
      rewrite Pos2Z.inj_add, Hmx, Hmy.
      assert (Hpow : ∀ m e Ki, Z.pos m < 2 ^ (Ki - e) → e < Ki → Ki ≤ K →
                Z.pos m * 2 ^ (e - Z.min ex ey) < 2 ^ (K - Z.min ex ey)
                ∨ e < Z.min ex ey).
      { intros m e Ki Hm He HKi.
        destruct (Z.lt_ge_cases e (Z.min ex ey)); [by right|left].
        assert (0 < 2 ^ (e - Z.min ex ey)) by (apply Z.pow_pos_nonneg; lia).
        eapply Z.lt_le_trans;
          [apply Z.mul_lt_mono_pos_r; [done | exact Hm]|].
        rewrite <- Z.pow_add_r by lia. apply Z.pow_le_mono_r; lia. }
      destruct (Hpow mx ex K1) as [Ha|]; [done|lia|lia| |lia].
      destruct (Hpow my ey K2) as [Hb|]; [done|lia|lia| |lia].
      replace (K + 1 - Z.min ex ey) with (Z.succ (K - Z.min ex ey)) by lia.
      rewrite Z.pow_succ_r by lia. lia.
    + replace (K + 2) with (K + 1 + 1) by lia. split; [done | by apply Hn].
Qed.

Lemma ceil_defined K x : below K x → is_Some (PyFloat.ceil x).
Proof. destruct x; try done; by eexists. Qed.

Lemma round_defined K x : below K x → is_Some (PyFloat.round x).
Proof.
  destruct x as [| | |s m e]; try done. intros _.
  cbn [PyFloat.round]. destruct (0 <=? e); by eexists.
Qed.


(** *** Exact cases *)

Lemma shr_iter_exact n a :
  0 ≤ a →
  Nat.iter n shr_1
    {| shr_m := a * 2 ^ Z.of_nat n; shr_r := false; shr_s := false |}
  = {| shr_m := a; shr_r := false; shr_s := false |}.
Proof.
  intros Ha. induction n as [|n IH].
  - cbn [Nat.iter Z.of_nat]. by rewrite Z.pow_0_r, Z.mul_1_r.
  - rewrite Nat.iter_succ_r, <- IH. f_equal.
    rewrite Nat2Z.inj_succ, Z.pow_succ_r by lia.
    assert (0 ≤ a * 2 ^ Z.of_nat n)
      by (apply Z.mul_nonneg_nonneg; [lia | apply Z.pow_nonneg; lia]).
    replace (a * (2 * 2 ^ Z.of_nat n)) with (2 * (a * 2 ^ Z.of_nat n)) by lia.
    by destruct (a * 2 ^ Z.of_nat n) as [|p|p]; [| |lia].
Qed.

(** Rounding [N * 2 ^ j] at exponent [e], for [N] of at most 53 bits,
    normalises the mantissa and loses nothing. *)
Lemma binary_round_aux_exact sx p j e :
  Z.pos p < 2 ^ 53 → 0 ≤ j →
  let d := Zdigits2 (Z.pos p) in
  53 ≤ d + j → -1074 ≤ e + j - (53 - d) ≤ 971 →
  binary_round_aux PyFloat.prec PyFloat.emax sx (Z.pos p * 2 ^ j) e loc_Exact
  = S754_finite sx (Z.to_pos (Z.pos p * 2 ^ (53 - d))) (e + j - (53 - d)).
Proof.
  intros Hp Hj d Hd He.
  assert (Hd53 : 1 ≤ d ≤ 53).
  { split; [|apply Zdigits2_le; lia].
    pose proof (digits_lower_bound (Z.pos p) 0 ltac:(lia) ltac:(cbn; lia)).
    subst d. lia. }
  set (n1 := d + j - 53).
  assert (Hfirst :
    shr_fexp PyFloat.prec PyFloat.emax (Z.pos p * 2 ^ j) e loc_Exact
    = ({| shr_m := Z.pos p * 2 ^ (53 - d); shr_r := false; shr_s := false |},
       e + n1)).
  { unfold shr_fexp. rewrite Zdigits2_mul_pow2 by done. fold d.
    replace (fexp PyFloat.prec PyFloat.emax (d + j + e) - e) with n1
      by (unfold fexp, emin, PyFloat.prec, PyFloat.emax; subst n1; lia).
    cbn [shr_record_of_loc]. unfold shr.
    destruct n1 as [|q|q] eqn:Hn1; [|
      |lia].
    - replace j with (53 - d) by lia. f_equal. lia.
    - rewrite iter_pos_nat. f_equal.
      replace (Z.pos p * 2 ^ j)
        with (Z.pos p * 2 ^ (53 - d) * 2 ^ Z.of_nat (Pos.to_nat q)).
      + apply shr_iter_exact.
        apply Z.mul_nonneg_nonneg; [lia | apply Z.pow_nonneg; lia].
      + rewrite positive_nat_Z, <- Z.mul_assoc, <- Z.pow_add_r by lia.
        f_equal. f_equal. lia. }
  unfold binary_round_aux. rewrite Hfirst.
  cbn [shr_m loc_of_shr_record round_nearest_even].
  assert (Hsecond :
    shr_fexp PyFloat.prec PyFloat.emax (Z.pos p * 2 ^ (53 - d)) (e + n1)
      loc_Exact
    = ({| shr_m := Z.pos p * 2 ^ (53 - d); shr_r := false; shr_s := false |},
       e + n1)).
  { unfold shr_fexp. rewrite Zdigits2_mul_pow2 by lia. fold d.
    replace (fexp PyFloat.prec PyFloat.emax (d + (53 - d) + (e + n1))
             - (e + n1)) with 0
      by (unfold fexp, emin, PyFloat.prec, PyFloat.emax; subst n1; lia).
    done. }
  rewrite Hsecond. cbn [shr_m].
  assert (0 < Z.pos p * 2 ^ (53 - d))
    by (apply Z.mul_pos_pos; [lia | apply Z.pow_pos_nonneg; lia]).
  destruct (Z.pos p * 2 ^ (53 - d)) as [|q|q] eqn:Hq; [lia| |lia].
  replace (e + n1 <=? PyFloat.emax - PyFloat.prec) with true
    by (symmetry; apply Z.leb_le; unfold PyFloat.emax, PyFloat.prec;
        subst n1; lia).
  cbn [Z.to_pos]. f_equal. subst n1. lia.
Qed.

(** The float of an integer of at most 53 bits. *)
Lemma exact_spec p :
  Z.pos p < 2 ^ 53 →
  let d := Zdigits2 (Z.pos p) in
  exact (Z.pos p)
  = S754_finite false (Z.to_pos (Z.pos p * 2 ^ (53 - d))) (d - 53).
Proof.
  intros Hp d.
  assert (Hd53 : 1 ≤ d ≤ 53).
  { split; [|apply Zdigits2_le; lia].
    pose proof (digits_lower_bound (Z.pos p) 0 ltac:(lia) ltac:(cbn; lia)).
    subst d. lia. }
  unfold exact, binary_normalize, binary_round.
  pose proof (shl_align_spec p 0
                (fexp PyFloat.prec PyFloat.emax (Z.pos (digits2_pos p) + 0)))
    as [Hez Hmz].
  destruct (shl_align p 0 _) as [mz ez]. cbn [fst snd] in Hez, Hmz.
  change (Z.pos (digits2_pos p)) with d in Hez.
  assert (ez = d - 53) as ->
    by (revert Hez; unfold fexp, emin, PyFloat.prec, PyFloat.emax; lia).
  rewrite Hmz.
  rewrite (binary_round_aux_exact false p (0 - (d - 53)) (d - 53));
    fold d; try lia.
  f_equal. lia.
Qed.

Lemma exact_mul a b :
  0 < a → 0 < b → a * b < 2 ^ 53 →
  PyFloat.mul (exact a) (exact b) = exact (a * b).
Proof.
  intros Ha Hb Hab.
  destruct a as [|pa|pa]; [lia| |lia]. destruct b as [|pb|pb]; [lia| |lia].
  assert (Z.pos pa < 2 ^ 53) by nia. assert (Z.pos pb < 2 ^ 53) by nia.
  change (Z.pos pa * Z.pos pb) with (Z.pos (pa * pb)) in *.
  rewrite !exact_spec by done.
  set (da := Zdigits2 (Z.pos pa)). set (db := Zdigits2 (Z.pos pb)).
  set (dab := Zdigits2 (Z.pos (pa * pb))).
  assert (Hda : 1 ≤ da ≤ 53).
  { split; [|apply Zdigits2_le; lia].
    pose proof (digits_lower_bound (Z.pos pa) 0 ltac:(lia) ltac:(cbn; lia)).
    subst da. lia. }
  assert (Hdb : 1 ≤ db ≤ 53).
  { split; [|apply Zdigits2_le; lia].
    pose proof (digits_lower_bound (Z.pos pb) 0 ltac:(lia) ltac:(cbn; lia)).
    subst db. lia. }
  assert (Hdab : da ≤ dab ≤ 53).
  { split; [|apply Zdigits2_le; lia].
    pose proof (Zdigits2_lower pa). fold da in H1.
    pose proof (digits_lower_bound (Z.pos (pa * pb)) (da - 1) ltac:(lia)
                  ltac:(nia)).
    subst dab. lia. }
  unfold PyFloat.mul, SFmul. cbn [xorb].
  assert (0 < 2 ^ (53 - da)) by (apply Z.pow_pos_nonneg; lia).
  assert (0 < 2 ^ (53 - db)) by (apply Z.pow_pos_nonneg; lia).
  rewrite Pos2Z.inj_mul, !Z2Pos.id by nia.
  replace (Z.pos pa * 2 ^ (53 - da) * (Z.pos pb * 2 ^ (53 - db)))
    with (Z.pos (pa * pb) * 2 ^ ((53 - da) + (53 - db)))
    by (rewrite Z.pow_add_r by lia; lia).
  rewrite binary_round_aux_exact; fold dab; try lia.
  f_equal. lia.
Qed.

Lemma trunc_exact n :
  0 ≤ n < 2 ^ 53 → PyFloat.trunc (exact n) = Some n.
Proof.
  intros Hn. destruct n as [|p|p]; [done| |lia].
  rewrite exact_spec by lia.
  set (d := Zdigits2 (Z.pos p)).
  assert (Hd53 : 1 ≤ d ≤ 53).
  { split; [|apply Zdigits2_le; lia].
    pose proof (digits_lower_bound (Z.pos p) 0 ltac:(lia) ltac:(cbn; lia)).
    subst d. lia. }
  assert (0 < 2 ^ (53 - d)) by (apply Z.pow_pos_nonneg; lia).
  cbn [PyFloat.trunc PyFloat.signed]. rewrite Z2Pos.id by nia. f_equal.
  destruct (Z.leb_spec 0 (d - 53)).
  - replace (53 - d) with 0 by lia. replace (d - 53) with 0 by lia. lia.
  - replace (- (d - 53)) with (53 - d) by lia.
    rewrite Z.quot_div_nonneg by nia. apply Z.div_mul. lia.
Qed.

Lemma of_int_exact n :
  0 ≤ n < 2 ^ 53 → PyFloat.of_int n = Some (exact n).
Proof.
  intros Hn. unfold PyFloat.of_int. fold (exact n).
  destruct n as [|p|p]; [done| |lia]. by rewrite exact_spec by lia.
Qed.

(** *** Numbers that are at least 1 *)

Lemma at_least_one_above (m : positive) e L :
  0 ≤ L → 2 ^ (L - e) ≤ Z.pos m → 2 ^ (- e) ≤ Z.pos m.
Proof.
  intros HL Hm. destruct (Z.le_gt_cases 0 (- e)).
  - eapply Z.le_trans; [|exact Hm]. apply Z.pow_le_mono_r; lia.
  - rewrite Z.pow_neg_r by lia. lia.
Qed.

Lemma of_int_positive n K :
  1 ≤ n < 2 ^ K → K ≤ 972 →
  ∃ f, PyFloat.of_int n = Some f ∧ at_least_one f ∧ below (K + 1) f.
Proof.
  intros Hn HK.
  assert (0 ≤ K).
  { destruct (Z.le_gt_cases 0 K); [done|]. rewrite Z.pow_neg_r in Hn; lia. }
  destruct (of_int_below n K) as (f & Hf & Hb & _); [lia|lia|].
  exists f. split; [done|]. split; [|done].
  revert Hf. unfold PyFloat.of_int, binary_normalize.
  destruct n as [|p|p]; [lia| |lia]. unfold binary_round.
  pose proof (shl_align_spec p 0
                (fexp PyFloat.prec PyFloat.emax (Z.pos (digits2_pos p) + 0)))
    as [Hez Hmz].
  destruct (shl_align p 0 _) as [mz ez]. cbn [fst snd] in Hez, Hmz.
  pose proof (Zdigits2_le (Z.pos p) K ltac:(lia)) as Hd.
  pose proof (Zdigits2_gt (Z.pos p) ltac:(lia)) as Hgt.
  pose proof (Zdigits2_lower p) as Hlow.
  pose proof (digits_lower_bound (Z.pos p) 0 ltac:(lia) ltac:(cbn; lia))
    as Hd1.
  cbn [Zdigits2] in Hd, Hgt, Hlow, Hd1.
  set (d := Z.pos (digits2_pos p)) in *.
  assert (0 < 2 ^ (0 - ez)) by (apply Z.pow_pos_nonneg; lia).
  assert (Hmz' : 2 ^ (d - 1 - ez) ≤ Z.pos mz < 2 ^ (d - ez)).
  { rewrite Hmz. replace (d - 1 - ez) with ((d - 1) + (0 - ez)) by lia.
    replace (d - ez) with (d + (0 - ez)) by lia.
    rewrite !Z.pow_add_r by lia. nia. }
  destruct (binary_round_aux_lower false (Z.pos mz) ez loc_Exact d (d - 1))
    as (m & e & -> & Hm); try lia.
  intros [= <-]. cbn [at_least_one].
  apply (at_least_one_above m e (d - 1)); [lia | done].
Qed.

Lemma sqrt_at_least_one K x :
  at_least_one x → below K x → K ≤ 1023 →
  ∃ y, PyFloat.sqrt x = Some y ∧ at_least_one y ∧ below (K + 1) y.
Proof.
  intros Hone Hx HK.
  destruct x as [| | |[] m e]; try done.
  assert (HK0 : 0 ≤ K).
  { destruct (Z.le_gt_cases 0 K) as [|Hneg]; [done|].
    pose proof (below_exponent _ _ _ _ Hx) as Hlt.
    cbn [below] in Hx. cbn [at_least_one] in Hone.
    assert (Hpow : 2 ^ (- e) < 2 ^ (K - e)) by lia.
    apply Z.pow_lt_mono_r_iff in Hpow; lia. }
  destruct (sqrt_below K (S754_finite false m e)) as (y & Hy & Hb & _);
    [done | done | lia |].
  exists y. split; [done|]. split; [|done].
  revert Hy. unfold PyFloat.sqrt, SFsqrt.
  pose proof (below_exponent _ _ _ _ Hx) as Hex.
  cbn [below] in Hx. cbn [at_least_one] in Hone.
  unfold SFsqrt_core_binary.
  set (d := Zdigits2 (Z.pos m)).
  set (e' := Z.min (fexp PyFloat.prec PyFloat.emax (Z.div2 (d + e + 1)))
                   (Z.div2 e)).
  set (s := e - 2 * e').
  set (m' := match s with
             | Z.pos _ => Z.shiftl (Z.pos m) s
             | 0 => Z.pos m
             | Z.neg _ => 0
             end).
  assert (Hd : d ≤ K - e) by (apply Zdigits2_le; lia).
  assert (Hd1 : 1 ≤ d + e).
  { destruct (Z.le_gt_cases 0 e).
    - pose proof (digits_lower_bound (Z.pos m) 0 ltac:(lia) ltac:(cbn; lia)).
      subst d. lia.
    - pose proof (digits_lower_bound (Z.pos m) (- e) ltac:(lia) Hone).
      subst d. lia. }
  pose proof (Zdigits2_lower m) as Hlow. fold d in Hlow.
  pose proof (Zdigits2_gt (Z.pos m) ltac:(lia)) as Hup. fold d in Hup.
  assert (Hdiv2 : ∀ a, 2 * Z.div2 a ≤ a ≤ 2 * Z.div2 a + 1).
  { intros a. rewrite Z.div2_div. pose proof (Z.div_mod a 2 ltac:(lia)).
    pose proof (Z.mod_pos_bound a 2 ltac:(lia)). lia. }
  pose proof (Hdiv2 e). pose proof (Hdiv2 (d + e + 1)).
  pose proof (Hdiv2 (d + e - 1)).
  set (L := Z.div2 (d + e - 1)) in *.
  assert (HL : 0 ≤ L ∧ Z.div2 (d + e + 1) = L + 1).
  { subst L. rewrite !Z.div2_div.
    replace (d + e + 1) with (d + e - 1 + 1 * 2) by lia.
    rewrite Z.div_add by lia. split; [apply Z.div_pos; lia | lia]. }
  destruct HL as [HL0 HL1].
  assert (Hf := fexp_le (Z.div2 (d + e + 1)) (L + 1)).
  specialize (Hf ltac:(lia)).
  pose proof (fexp_ge (Z.div2 (d + e + 1))) as Hf'.
  assert (Hs : 0 ≤ s) by (subst s e'; lia).
  assert (Hm' : m' = Z.pos m * 2 ^ s).
  { subst m'. destruct s as [|p|p] eqn:Hsp; [lia| |lia].
    by rewrite Z.shiftl_mul_pow2. }
  assert (He' : e' ≤ L) by (subst e'; lia).
  assert (0 < 2 ^ s) by (apply Z.pow_pos_nonneg; lia).
  pose proof (Z.sqrtrem_spec m' ltac:(lia)) as Hsqrt.
  destruct (Z.sqrtrem m') as [q r]. destruct Hsqrt as [Hqr Hr].
  assert (Hq0 : 0 ≤ q) by lia.
  assert (Hdpos : 1 ≤ d).
  { pose proof (digits_lower_bound (Z.pos m) 0 ltac:(lia) ltac:(cbn; lia)).
    subst d. lia. }
  assert (Hm'lo : 2 ^ (2 * (L - e')) ≤ m').
  { rewrite Hm'.
    eapply Z.le_trans;
      [|apply Z.mul_le_mono_nonneg_r; [lia | exact Hlow]].
    rewrite <- Z.pow_add_r by lia. apply Z.pow_le_mono_r; [lia|].
    subst s. lia. }
  assert (Hm'up : m' < 2 ^ (2 * (L + 1 - e'))).
  { rewrite Hm'.
    eapply Z.lt_le_trans;
      [apply Z.mul_lt_mono_pos_r; [lia | exact Hup]|].
    rewrite <- Z.pow_add_r by lia. apply Z.pow_le_mono_r; [lia|].
    subst s. lia. }
  assert (0 < 2 ^ (L - e')) by (apply Z.pow_pos_nonneg; lia).
  assert (0 < 2 ^ (L + 1 - e')) by (apply Z.pow_pos_nonneg; lia).
  replace (2 * (L - e')) with ((L - e') + (L - e')) in Hm'lo by lia.
  replace (2 * (L + 1 - e')) with ((L + 1 - e') + (L + 1 - e')) in Hm'up
    by lia.
  rewrite Z.pow_add_r in Hm'lo, Hm'up by lia.
  assert (Hqlo : 2 ^ (L - e') ≤ q) by nia.
  assert (Hqup : q < 2 ^ (L + 1 - e')) by nia.
  destruct (binary_round_aux_lower false q e'
              (if r =? 0 then loc_Exact
               else loc_Inexact (if r <=? q then Lt else Gt)) (L + 1) L)
    as (my & ey & -> & Hmy); try lia.
  intros [= <-]. cbn [at_least_one].
  apply (at_least_one_above my ey L); [lia | done].
Qed.

End FloatRounding.

(* ===================================================================== *)
(** ** The order on floats *)
(* ===================================================================== *)

Section FloatOrder.
Local Open Scope Z_scope.

Lemma compare_cont_Eq (p q : positive) :
  Pos.compare_cont Eq p q = (p ?= q)%positive.
Proof. reflexivity. Qed.

Lemma ltb_irrefl x : PyFloat.ltb x x = false.
Proof.
  unfold PyFloat.ltb, SFltb, SFcompare.
  destruct x as [[]|[]| |[] m e]; try done;
    rewrite Z.compare_refl, compare_cont_Eq, Pos.compare_refl; done.
Qed.

Lemma ltb_trans x y z :
  PyFloat.ltb x y = true → PyFloat.ltb y z = true → PyFloat.ltb x z = true.
Proof.
  unfold PyFloat.ltb, SFltb, SFcompare.
  destruct x as [[]|[]| |[] mx ex], y as [[]|[]| |[] my ey],
    z as [[]|[]| |[] mz ez]; try done;
    repeat match goal with
      | |- context [Z.compare ?a ?b] => destruct (Z.compare_spec a b)
      | |- context [Pos.compare_cont Eq ?a ?b] =>
          rewrite (compare_cont_Eq a b); destruct (Pos.compare_spec a b)
      end; cbn [CompOpp]; try done; lia.
Qed.

Lemma ltb_asym x y : PyFloat.ltb x y = true → PyFloat.ltb y x = false.
Proof.
  intros H. destruct (PyFloat.ltb y x) eqn:H'; [|done].
  by rewrite <- (ltb_irrefl x), (ltb_trans x y x).
Qed.

End FloatOrder.

(* ===================================================================== *)
(** ** The greedy search of the planner *)
(* ===================================================================== *)

Section GreedyFacts.
Import Router RouterSpec PyFloatSpec.
Local Open Scope Z_scope.

Variable coords : gmap string (Z * Z).
Variable fuel_waypoints : list string.
Variable destination : string.
Variable fuel_capacity : Z.
Variable speed : Z.
Variable mode : string.

Lemma eligible_unique visited cx cy dx dy w r r' :
  eligible coords fuel_capacity mode visited cx cy dx dy w r → eligible coords fuel_capacity mode visited cx cy dx dy w r' →
  r = r'.
Proof.
  intros (_ & wx & wy & d & c & Hw & _ & _ & _ & Hr)
         (_ & wx' & wy' & d' & c' & Hw' & _ & _ & _ & Hr').
  congruence.
Qed.

(** The inner loop keeps the closest eligible waypoint seen so far, or
    its initial state when none improves on it. *)
Lemma scan_spec visited cx cy dx dy wps : ∀ bw0 br0 bw br,
  scan_fuel_waypoints coords fuel_capacity mode visited cx cy dx dy wps bw0 br0 = Some (bw, br) →
  (∀ w' r', w' ∈ wps → eligible coords fuel_capacity mode visited cx cy dx dy w' r' →
            PyFloat.ltb r' br = false)
  ∧ ((bw = bw0 ∧ br = br0)
     ∨ (∃ w, bw = Some w ∧ w ∈ wps ∧ eligible coords fuel_capacity mode visited cx cy dx dy w br
             ∧ PyFloat.ltb br br0 = true)).
Proof.
  induction wps as [|w wps IH]; intros bw0 br0 bw br Hscan.
  { cbn [scan_fuel_waypoints] in Hscan. injection Hscan as <- <-.
    split; [intros ? ? H; by apply elem_of_nil in H | by left]. }
  cbn [scan_fuel_waypoints] in Hscan.
  (* the head is skipped, or becomes the best, or is no improvement *)
  assert (Hcases :
    (scan_fuel_waypoints coords fuel_capacity mode visited cx cy dx dy wps bw0 br0 = Some (bw, br)
     ∧ ∀ r', eligible coords fuel_capacity mode visited cx cy dx dy w r' → PyFloat.ltb r' br0 = false)
    ∨ (∃ r, scan_fuel_waypoints coords fuel_capacity mode visited cx cy dx dy wps (Some w) r = Some (bw, br)
            ∧ eligible coords fuel_capacity mode visited cx cy dx dy w r
            ∧ PyFloat.ltb r br0 = true)).
  { case_bool_decide as Hvis.
    { left. split; [done|]. by intros r' (Hnv & _). }
    destruct (coords !! w) as [[wx wy]|] eqn:Hw.
    2:{ left. split; [done|]. intros r' (_ & ? & ? & ? & ? & ? & _). congruence. }
    destruct (distance cx cy wx wy) as [d|] eqn:Hd; [|done].
    cbn [mbind option_bind] in Hscan.
    destruct (fuel_cost d mode) as [c|] eqn:Hc; [|done].
    cbn [mbind option_bind] in Hscan.
    destruct (Z.ltb_spec fuel_capacity c) as [Hfar|Hnear].
    { left. split; [done|].
      intros r' (_ & wx' & wy' & d' & c' & Hw' & Hd' & Hc' & Hle & _).
      simplify_eq. lia. }
    destruct (distance wx wy dx dy) as [r|] eqn:Hr; [|done].
    cbn [mbind option_bind] in Hscan.
    destruct (PyFloat.ltb r br0) eqn:Hlt.
    - right. exists r. split; [done|]. split; [|done].
      split; [done|]. by exists wx, wy, d, c.
    - left. split; [done|].
      intros r' (_ & wx' & wy' & d' & c' & Hw' & Hd' & Hc' & Hle & Hr').
      by simplify_eq. }
  destruct Hcases as [[Hrest Hhead] | (r & Hrest & Hel & Hlt)].
  - destruct (IH _ _ _ _ Hrest) as (Hmin & Hres).
    assert (Hbr : br = br0 ∨ PyFloat.ltb br br0 = true).
    { destruct Hres as [[_ ->]|(? & _ & _ & _ & ?)]; [by left | by right]. }
    split.
    + intros w' r' Hin Helig. apply elem_of_cons in Hin as [->|Hin].
      * destruct Hbr as [->|Hbr]; [by apply Hhead|].
        destruct (PyFloat.ltb r' br) eqn:Hr'; [|done].
        by rewrite <- (Hhead r' Helig), (ltb_trans r' br br0).
      * by apply (Hmin w').
    + destruct Hres as [?|(w0 & ? & ? & ? & ?)]; [by left|].
      right. exists w0. split; [done|]. split; [by apply elem_of_cons; right|]. done.
  - destruct (IH _ _ _ _ Hrest) as (Hmin & Hres).
    assert (Hbr : br = r ∨ PyFloat.ltb br r = true).
    { destruct Hres as [[_ ->]|(? & _ & _ & _ & ?)]; [by left | by right]. }
    assert (Hbr0 : PyFloat.ltb br br0 = true).
    { destruct Hbr as [->|Hbr]; [done | by eapply ltb_trans]. }
    split.
    + intros w' r' Hin Helig. apply elem_of_cons in Hin as [->|Hin].
      * rewrite (eligible_unique _ _ _ _ _ _ _ _ Helig Hel).
        destruct Hbr as [->|Hbr]; [apply ltb_irrefl | by apply ltb_asym].
      * by apply (Hmin w').
    + right. destruct Hres as [[-> ->]|(w0 & ? & ? & ? & ?)].
      * exists w. split; [done|]. split; [by apply elem_of_cons; left|]. done.
      * exists w0. split; [done|]. split; [by apply elem_of_cons; right|]. done.
Qed.

Lemma size_list_to_set_le (l : list string) :
  (size (list_to_set l : gset string) ≤ length l)%nat.
Proof.
  induction l as [|w l IH]; [by rewrite list_to_set_nil, size_empty|].
  rewrite list_to_set_cons, size_union_alt, size_singleton. cbn [length].
  assert (size (list_to_set l ∖ {[w]} : gset string)
          ≤ size (list_to_set l : gset string))%nat
    by (apply subseteq_size; set_solver).
  lia.
Qed.

Lemma size_unvisited_le (visited : gset string) :
  (size (list_to_set fuel_waypoints ∖ visited : gset string)
   ≤ length fuel_waypoints)%nat.
Proof.
  etrans; [|apply size_list_to_set_le]. apply subseteq_size. set_solver.
Qed.

Lemma size_unvisited_hop (visited : gset string) w :
  w ∈ fuel_waypoints → w ∉ visited →
  (size (list_to_set fuel_waypoints ∖ ({[w]} ∪ visited) : gset string)
   < size (list_to_set fuel_waypoints ∖ visited : gset string))%nat.
Proof.
  intros Hin Hout. apply subset_size. split; [set_solver|].
  intros Hsub. assert (w ∈ (list_to_set fuel_waypoints ∖ visited : gset string))
    as Hw by set_solver.
  apply Hsub in Hw. set_solver.
Qed.

Lemma greedy_hops_length visited current stops visited' last :
  greedy_hops coords fuel_waypoints destination fuel_capacity mode
    visited current stops visited' last →
  (length stops + size (list_to_set fuel_waypoints ∖ visited' : gset string)
   ≤ size (list_to_set fuel_waypoints ∖ visited : gset string))%nat.
Proof.
  induction 1 as [|visited current w stops visited' last _ Hin Hcand _ _ IH];
    [cbn [length]; lia|].
  destruct Hcand as (? & ? & ? & ? & ? & ? & _ & _ & _ & (Hout & _) & _).
  pose proof (size_unvisited_hop visited w Hin Hout). cbn [length]. lia.
Qed.

(** The outer loop runs the greedy hops and ends at the destination or at
    a waypoint without a candidate; it never runs out of iterations. *)
Lemma hop_loop_spec max_hops dx dy :
  coords !! destination = Some (dx, dy) →
  ∀ hops current segs visited plan,
    hop_loop coords fuel_waypoints destination fuel_capacity speed mode
      max_hops dx dy hops current segs visited = Some plan →
    (size (list_to_set fuel_waypoints ∖ visited : gset string) < hops)%nat →
    ∃ stops visited' last,
      greedy_hops coords fuel_waypoints destination fuel_capacity mode
        visited current stops visited' last
      ∧ ((in_reach coords destination fuel_capacity mode last
          ∧ ∃ new,
              Forall2 (leg coords speed mode) new
                (route_legs destination current stops)
              ∧ plan = {| segments := segs ++ new;
                          total_fuel := sum_fuel (segs ++ new);
                          total_seconds :=
                            sum_seconds (segs ++ new)
                            + (Z.of_nat (length (segs ++ new)) - 1)
                              * REFUEL_STOP_OVERHEAD;
                          feasible := true; reason := "" |})
         ∨ (out_of_reach coords destination fuel_capacity mode last
            ∧ (∀ w, w ∈ fuel_waypoints →
                    ¬ candidate coords destination fuel_capacity mode
                        visited' last w)
            ∧ plan = infeasible
                       ("No reachable fuel waypoint makes progress from "
                        +:+ last +:+ " toward " +:+ destination))).
Proof.
  intros Hdest hops.
  induction hops as [|hops IH]; intros current segs visited plan Hrun Hsize;
    [lia|].
  cbn [hop_loop] in Hrun.
  destruct (coords !! current) as [[cx cy]|] eqn:Hcur; [|done].
  cbn [mbind option_bind] in Hrun.
  destruct (distance cx cy dx dy) as [d0|] eqn:Hd0; [|done].
  cbn [mbind option_bind] in Hrun.
  destruct (fuel_cost d0 mode) as [k|] eqn:Hk; [|done].
  cbn [mbind option_bind] in Hrun.
  assert (Hcost : direct_cost coords destination mode current k)
    by by exists cx, cy, dx, dy, d0.
  destruct (Z.leb_spec k fuel_capacity) as [Hnear|Hfar].
  - (* the destination is within one tank *)
    destruct (plan_segment cx cy dx dy current destination speed mode)
      as [seg|] eqn:Hseg; [|done].
    cbn [mbind option_bind] in Hrun. injection Hrun as <-.
    exists [], visited, current. split; [constructor|]. left.
    split; [by exists k|]. exists [seg]. split; [|done].
    repeat constructor. by exists cx, cy, dx, dy.
  - destruct (scan_fuel_waypoints coords fuel_capacity mode visited cx cy dx dy
                fuel_waypoints None d0) as [[bw br]|] eqn:Hscan; [|done].
    cbn [mbind option_bind] in Hrun.
    destruct (scan_spec _ _ _ _ _ _ _ _ _ _ Hscan) as [Hmin Hres].
    destruct bw as [w|].
    + (* a hop to the closest candidate *)
      destruct Hres as [[[=] _]|(w0 & [= <-] & Hin & Hel & Hlt)].
      pose proof Hel as (Hout & wx & wy & d & c & Hw & Hd & Hc & Hle & Hr).
      rewrite Hw in Hrun. cbn [mbind option_bind] in Hrun.
      destruct (plan_segment cx cy wx wy current w speed mode)
        as [seg|] eqn:Hseg; [|done].
      cbn [mbind option_bind] in Hrun.
      destruct (IH _ _ _ _ Hrun) as (stops & visited' & last & Hhops & Hend).
      { pose proof (size_unvisited_hop visited w Hin Hout). lia. }
      exists (w :: stops), visited', last. split.
      { constructor; try done.
        - by exists k.
        - by exists cx, cy, dx, dy, d0, br.
        - intros cx' cy' dx' dy' w' r r' Hcur' Hdest' Hin' Helw Helw'.
          simplify_eq. rewrite (eligible_unique _ _ _ _ _ _ _ _ Helw Hel).
          by apply (Hmin w'). }
      destruct Hend as [(Hreach & new & Hlegs & ->)|Hstuck]; [left|by right].
      split; [done|]. exists (seg :: new). split.
      * constructor; [by exists cx, cy, wx, wy | done].
      * by rewrite <- !app_assoc.
    + (* no candidate *)
      destruct Hres as [[_ ->]|(? & [=] & _)]. injection Hrun as <-.
      exists [], visited, current. split; [constructor|]. right.
      split; [by exists k|]. split; [|done].
      intros w Hin (cx' & cy' & dx' & dy' & d0' & r & ? & ? & ? & Hel & Hlt).
      simplify_eq. by rewrite (Hmin w r Hin Hel) in Hlt.
Qed.

(** A leg is planned between any two points of a bounded map. *)
Lemma plan_segment_defined x1 y1 x2 y2 a b :
  - 2 ^ 48 ≤ x1 ≤ 2 ^ 48 → - 2 ^ 48 ≤ y1 ≤ 2 ^ 48 →
  - 2 ^ 48 ≤ x2 ≤ 2 ^ 48 → - 2 ^ 48 ≤ y2 ≤ 2 ^ 48 →
  speed < 2 ^ 52 →
  ∃ seg, plan_segment x1 y1 x2 y2 a b speed mode = Some seg.
Proof.
  intros Hx1 Hy1 Hx2 Hy2 Hspeed. unfold plan_segment, distance.
  destruct (of_int_below ((x2 - x1) ^ 2 + (y2 - y1) ^ 2) 100)
    as (f0 & -> & Hf0 & Hf0p); [|lia|].
  { change (2 ^ 48) with 281474976710656 in *.
    change (2 ^ 100) with 1267650600228229401496703205376. nia. }
  cbn [mbind option_bind].
  destruct (sqrt_below 101 f0) as (dist & -> & Hd & Hdp); [done|done|lia|].
  cbn [mbind option_bind].
  destruct (ceil_defined _ _ Hd) as [c Hc].
  unfold fuel_cost. rewrite Hc. cbn [mbind option_bind].
  assert (∃ fc, (if String.eqb mode "DRIFT" then Some 1
                 else if String.eqb mode "BURN" then Some (Z.max 1 c * 2)
                 else Some (Z.max 1 c)) = Some fc) as [fc ->].
  { destruct (String.eqb mode "DRIFT"), (String.eqb mode "BURN"); by eexists. }
  cbn [mbind option_bind].
  unfold travel_time.
  set (multiplier := if String.eqb mode "DRIFT" then PyFloat.f250_0
                     else if String.eqb mode "BURN" then PyFloat.f12_5
                     else PyFloat.f25_0).
  assert (Hmult : below 8 multiplier ∧ nonneg multiplier).
  { subst multiplier.
    destruct (String.eqb mode "DRIFT"), (String.eqb mode "BURN");
      split; (done || (cbn; lia)). }
  destruct (of_int_at_least_one (Z.max speed 1)) as (s & -> & Hs); [lia|].
  cbn [mbind option_bind].
  destruct (mul_below 102 8 dist multiplier) as [Hm Hmp];
    [done | apply Hmult | lia |].
  destruct (div_below 111 (PyFloat.mul dist multiplier) s)
    as (q & -> & Hq & Hqp); [done | done | lia |].
  cbn [mbind option_bind].
  change (PyFloat.of_int 15) with (Some (exact 15)).
  cbn [mbind option_bind].
  destruct (add_below 4 112 (exact 15) q) as [Hsum _];
    [by vm_compute | done | by vm_compute
    | apply Hqp, Hmp; [done | apply Hmult] | lia |].
  destruct (round_defined _ _ Hsum) as [tt ->].
  by eexists.
Qed.

(** The inner loop completes when legs can be planned. *)
Lemma scan_defined visited cx cy dx dy :
  (∀ w wx wy, coords !! w = Some (wx, wy) →
     ∃ d c r, distance cx cy wx wy = Some d ∧ fuel_cost d mode = Some c
              ∧ distance wx wy dx dy = Some r) →
  ∀ wps bw br,
    is_Some (scan_fuel_waypoints coords fuel_capacity mode visited cx cy
               dx dy wps bw br).
Proof.
  intros Hall wps. induction wps as [|w wps IH]; intros bw br;
    cbn [scan_fuel_waypoints]; [by eexists|].
  case_bool_decide; [apply IH|].
  destruct (coords !! w) as [[wx wy]|] eqn:Hw; [|apply IH].
  destruct (Hall w wx wy Hw) as (d & c & r & Hd & Hc & Hr).
  rewrite Hd. cbn [mbind option_bind]. rewrite Hc. cbn [mbind option_bind].
  destruct (fuel_capacity <? c); [apply IH|].
  rewrite Hr. cbn [mbind option_bind].
  destruct (PyFloat.ltb r br); apply IH.
Qed.

Lemma plan_segment_parts x1 y1 x2 y2 a b seg :
  plan_segment x1 y1 x2 y2 a b speed mode = Some seg →
  ∃ d c, distance x1 y1 x2 y2 = Some d ∧ fuel_cost d mode = Some c.
Proof.
  unfold plan_segment. destruct (distance x1 y1 x2 y2) as [d|]; [|done].
  cbn [mbind option_bind]. destruct (fuel_cost d mode) as [c|] eqn:Hc; [|done].
  by exists d, c.
Qed.

(** The outer loop returns a plan on a bounded map. *)
Lemma hop_loop_defined max_hops dx dy :
  coords_within (2 ^ 48) coords → speed < 2 ^ 52 →
  coords !! destination = Some (dx, dy) →
  ∀ hops current segs visited,
    is_Some (coords !! current) →
    is_Some (hop_loop coords fuel_waypoints destination fuel_capacity speed
               mode max_hops dx dy hops current segs visited).
Proof.
  intros Hin Hspeed Hdest hops.
  assert (Hseg : ∀ a b ax ay bx by_,
            coords !! a = Some (ax, ay) → coords !! b = Some (bx, by_) →
            ∃ seg, plan_segment ax ay bx by_ a b speed mode = Some seg).
  { intros a b ax ay bx by_ Ha Hb.
    destruct (Hin a ax ay Ha), (Hin b bx by_ Hb).
    by apply plan_segment_defined. }
  induction hops as [|hops IH]; intros current segs visited [[cx cy] Hcur];
    cbn [hop_loop]; [by eexists|].
  rewrite Hcur. cbn [mbind option_bind].
  destruct (Hseg current destination cx cy dx dy Hcur Hdest) as [seg Hs].
  destruct (plan_segment_parts _ _ _ _ _ _ _ Hs) as (d0 & k & Hd0 & Hk).
  rewrite Hd0. cbn [mbind option_bind]. rewrite Hk. cbn [mbind option_bind].
  destruct (k <=? fuel_capacity).
  { rewrite Hs. cbn [mbind option_bind]. by eexists. }
  destruct (scan_defined visited cx cy dx dy) with (wps := fuel_waypoints)
    (bw := @None string) (br := d0) as [[bw br] Hscan].
  { intros w wx wy Hw.
    destruct (Hseg current w cx cy wx wy Hcur Hw) as [s1 Hs1].
    destruct (plan_segment_parts _ _ _ _ _ _ _ Hs1) as (d & c & Hd & Hc).
    destruct (Hseg w destination wx wy dx dy Hw Hdest) as [s2 Hs2].
    destruct (plan_segment_parts _ _ _ _ _ _ _ Hs2) as (r & _ & Hr & _).
    by exists d, c, r. }
  rewrite Hscan. cbn [mbind option_bind].
  destruct bw as [w|]; [|by eexists].
  destruct (scan_spec _ _ _ _ _ _ _ _ _ _ Hscan)
    as [_ [[[=] _]|(w0 & [= <-] & _ & Hel & _)]].
  destruct Hel as (_ & wx & wy & _ & _ & Hw & _).
  rewrite Hw. cbn [mbind option_bind].
  destruct (Hseg current w cx cy wx wy Hcur Hw) as [s1 ->].
  cbn [mbind option_bind]. apply IH. by eexists.
Qed.

Lemma route_legs_length origin stops :
  length (route_legs destination origin stops) = S (length stops).
Proof.
  unfold route_legs. revert origin.
  induction stops as [|w stops IH]; intros origin; [done|].
  cbn [zip zip_with app length] in *. by rewrite IH.
Qed.

(** C3. The planner follows the greedy forward-progress search.  A route
    from a waypoint to itself is feasible and empty.  On a map whose
    coordinates lie within [2 ^ 48] of the origin of the plane, with a speed
    below [2 ^ 52], the planner returns a plan.  The plan it returns for
    distinct waypoints is either feasible, and then its segments are the
    legs through the stops of the greedy hops (each stop an unvisited fuel
    waypoint within one tank and strictly closer to the destination, none
    of the eligible ones being closer), ending with a leg to the
    destination that is within one tank, with the fuel summed, the time
    summed plus 30 s for each stop, and at most [|fuel_waypoints| + 1]
    segments; or infeasible, and then empty, with a reason: a waypoint
    without coordinates, or greedy hops that end where the destination is
    out of reach and no fuel waypoint is a candidate.  The example of the
    specification is planned as A, B, C. *)
Theorem plan_multihop_greedy origin :
  (origin = destination →
   plan_multihop coords fuel_waypoints destination fuel_capacity speed mode
     origin
   = Some {| segments := []; total_fuel := 0; total_seconds := 0;
             feasible := true; reason := "" |})
  ∧ (coords_within (2 ^ 48) coords → speed < 2 ^ 52 →
     is_Some (plan_multihop coords fuel_waypoints destination fuel_capacity
                speed mode origin))
  ∧ (∀ plan,
       origin ≠ destination →
       plan_multihop coords fuel_waypoints destination fuel_capacity speed
         mode origin = Some plan →
       if feasible plan then
         ∃ stops visited last,
           greedy_hops coords fuel_waypoints destination fuel_capacity mode
             {[origin]} origin stops visited last
           ∧ in_reach coords destination fuel_capacity mode last
           ∧ Forall2 (leg coords speed mode) (segments plan)
               (route_legs destination origin stops)
           ∧ total_fuel plan = sum_fuel (segments plan)
           ∧ total_seconds plan
             = sum_seconds (segments plan)
               + Z.of_nat (length stops) * REFUEL_STOP_OVERHEAD
           ∧ (length (segments plan) ≤ S (length fuel_waypoints))%nat
       else
         segments plan = [] ∧ total_fuel plan = 0 ∧ total_seconds plan = 0
         ∧ reason plan ≠ ""
         ∧ (coords !! origin = None ∨ coords !! destination = None
            ∨ ∃ stops visited last,
                greedy_hops coords fuel_waypoints destination fuel_capacity
                  mode {[origin]} origin stops visited last
                ∧ out_of_reach coords destination fuel_capacity mode last
                ∧ ∀ w, w ∈ fuel_waypoints →
                       ¬ candidate coords destination fuel_capacity mode
                           visited last w))
  ∧ (travel_time (exact 40) 30 "CRUISE" = Some 48
     ∧ plan_multihop example_coords ["B"] "C" 50 30 "CRUISE" "A"
       = Some {| segments :=
                   [ {| seg_origin := "A"; seg_destination := "B";
                        seg_distance := exact 40; seg_flight_mode := "CRUISE";
                        seg_fuel_cost := 40; seg_travel_seconds := 48 |};
                     {| seg_origin := "B"; seg_destination := "C";
                        seg_distance := exact 40; seg_flight_mode := "CRUISE";
                        seg_fuel_cost := 40; seg_travel_seconds := 48 |} ];
                 total_fuel := 80;
                 total_seconds := 48 + 48 + 30;
                 feasible := true; reason := "" |}).
Proof.
  split; [|split; [|split]].
  - intros ->. unfold plan_multihop. by rewrite bool_decide_eq_true_2.
  - intros Hin Hspeed. unfold plan_multihop.
    case_bool_decide; [by eexists|].
    destruct (coords !! origin) as [o|] eqn:Ho; [|by eexists].
    destruct (coords !! destination) as [[dx dy]|] eqn:Hd; [|by eexists].
    apply hop_loop_defined; done.
  - intros plan Hne Hplan. unfold plan_multihop in Hplan.
    rewrite bool_decide_eq_false_2 in Hplan by done.
    destruct (coords !! origin) as [o|] eqn:Ho.
    2:{ injection Hplan as <-. cbn [feasible infeasible segments total_fuel
          total_seconds reason]. repeat split; try done. by left. }
    destruct (coords !! destination) as [[dx dy]|] eqn:Hd.
    2:{ injection Hplan as <-. cbn [feasible infeasible segments total_fuel
          total_seconds reason]. repeat split; try done. by right; left. }
    destruct (hop_loop_spec _ dx dy Hd _ _ _ _ _ Hplan)
      as (stops & visited & last & Hhops & Hend).
    { pose proof (size_unvisited_le {[origin]}). lia. }
    destruct Hend as [(Hreach & new & Hlegs & ->)|(Hfar & Hstuck & ->)].
    + cbn [feasible segments total_fuel total_seconds app].
      exists stops, visited, last.
      pose proof (Forall2_length _ _ _ Hlegs) as Hlen.
      rewrite route_legs_length in Hlen.
      split; [done|]. split; [done|]. split; [done|]. split; [done|].
      split; [rewrite Hlen; f_equal; lia|].
      pose proof (greedy_hops_length _ _ _ _ _ Hhops).
      pose proof (size_unvisited_le {[origin]}). lia.
    + cbn [feasible infeasible segments total_fuel total_seconds reason].
      repeat split; try done. right; right. by exists stops, visited, last.
  - split; by vm_compute.
Qed.

(** *** Every leg fits in one tank *)

Lemma plan_segment_fields x1 y1 x2 y2 a b sp md seg :
  plan_segment x1 y1 x2 y2 a b sp md = Some seg →
  ∃ d, distance x1 y1 x2 y2 = Some d
       ∧ fuel_cost d md = Some (seg_fuel_cost seg)
       ∧ travel_time d sp md = Some (seg_travel_seconds seg)
       ∧ seg_distance seg = d ∧ seg_origin seg = a
       ∧ seg_destination seg = b ∧ seg_flight_mode seg = md.
Proof.
  unfold plan_segment. intros H.
  destruct (distance x1 y1 x2 y2) as [d|]; [|done].
  cbn [mbind option_bind] in H.
  destruct (fuel_cost d md) as [c|] eqn:Hc; [|done].
  cbn [mbind option_bind] in H.
  destruct (travel_time d sp md) as [t|] eqn:Ht; [|done].
  cbn [mbind option_bind] in H. injection H as <-. by exists d.
Qed.

Lemma sum_fuel_bound segs :
  Forall (λ seg, seg_fuel_cost seg ≤ fuel_capacity) segs →
  sum_fuel segs ≤ Z.of_nat (length segs) * fuel_capacity.
Proof.
  induction 1 as [|seg segs Hseg _ IH]; [done|].
  cbn [sum_fuel foldr length]. fold (sum_fuel segs). lia.
Qed.

Lemma greedy_hops_legs visited current stops visited' last :
  greedy_hops coords fuel_waypoints destination fuel_capacity mode
    visited current stops visited' last →
  in_reach coords destination fuel_capacity mode last →
  ∀ new,
    Forall2 (leg coords speed mode) new (route_legs destination current stops) →
    Forall (λ seg, seg_fuel_cost seg ≤ fuel_capacity
                   ∧ seg_flight_mode seg = mode) new
    ∧ seg_origin <$> new = current :: stops
    ∧ seg_destination <$> new = stops ++ [destination].
Proof.
  induction 1 as [visited current
                 |visited current w stops visited' last _ Hin Hcand _ _ IH];
    intros Hreach new Hlegs.
  - apply Forall2_cons_inv_r in Hlegs as (seg & rest & Hleg & Hrest & ->).
    apply Forall2_nil_inv_r in Hrest as ->.
    destruct Hleg as (ax & ay & bx & by_ & Ha & Hb & Hseg). cbn in Ha, Hb.
    apply plan_segment_fields in Hseg
      as (d & Hd & Hc & _ & _ & Ho & Hde & Hm).
    destruct Hreach as (k & (ax' & ay' & dx & dy & d' & ? & ? & ? & Hk) & Hle).
    simplify_eq. cbn. rewrite Ho, Hde. split; [|done].
    constructor; [|done]. split; [lia | done].
  - change (route_legs destination current (w :: stops))
      with ((current, w) :: route_legs destination w stops) in Hlegs.
    apply Forall2_cons_inv_r in Hlegs as (seg & rest & Hleg & Hrest & ->).
    destruct (IH Hreach rest Hrest) as (Hfit & Horig & Hdest).
    destruct Hleg as (ax & ay & bx & by_ & Ha & Hb & Hseg). cbn in Ha, Hb.
    apply plan_segment_fields in Hseg
      as (d & Hd & Hc & _ & _ & Ho & Hde & Hm).
    destruct Hcand as (cx & cy & dx & dy & d0 & r & ? & ? & ? & Hel & _).
    destruct Hel as (_ & wx & wy & d' & c & ? & ? & ? & Hle & _).
    simplify_eq. cbn [fmap list_fmap app]. fold (fmap seg_origin rest).
    fold (fmap seg_destination rest).
    rewrite Ho, Hde, Horig, Hdest. split; [|done].
    constructor; [|done]. split; [lia | done].
Qed.

Lemma greedy_hops_stops visited current stops visited' last :
  greedy_hops coords fuel_waypoints destination fuel_capacity mode
    visited current stops visited' last →
  NoDup stops
  ∧ (∀ w, w ∈ stops → w ∈ fuel_waypoints ∧ w ∉ visited).
Proof.
  induction 1 as [visited current
                 |visited current w stops visited' last _ Hin Hcand _ _ IH].
  - split; [constructor|]. intros w Hw. by apply elem_of_nil in Hw.
  - destruct IH as (Hnd & Hall).
    destruct Hcand as (cx & cy & dx & dy & d0 & r & _ & _ & _ & Hel & _).
    destruct Hel as (Hout & _).
    split.
    + constructor; [|done]. intros Hw. apply Hall in Hw as [_ Hw].
      apply Hw. set_solver.
    + intros w' Hw'. apply elem_of_cons in Hw' as [->|Hw']; [done|].
      apply Hall in Hw' as [? Hw']. split; [done|]. set_solver.
Qed.

(** Every leg of a feasible multi-hop plan fits in one tank and is flown
    in the mode asked for; the legs form a chain from the origin to the
    destination through pairwise distinct fuel waypoints, none of them
    the origin; [num_stops] counts these waypoints, at most as many as
    there are fuel waypoints; the time counts 30 seconds for each of
    them. *)
Theorem multihop_legs_fit_one_tank origin plan :
  origin ≠ destination →
  plan_multihop coords fuel_waypoints destination fuel_capacity speed mode
    origin = Some plan →
  feasible plan = true →
  ∃ stops,
    seg_origin <$> segments plan = origin :: stops
    ∧ seg_destination <$> segments plan = stops ++ [destination]
    ∧ Forall (λ seg, seg_fuel_cost seg ≤ fuel_capacity
                     ∧ seg_flight_mode seg = mode) (segments plan)
    ∧ NoDup (origin :: stops)
    ∧ (∀ w, w ∈ stops → w ∈ fuel_waypoints)
    ∧ num_stops plan = Z.of_nat (length stops)
    ∧ (length stops ≤ length fuel_waypoints)%nat
    ∧ total_fuel plan ≤ (num_stops plan + 1) * fuel_capacity
    ∧ total_seconds plan
      = sum_seconds (segments plan) + num_stops plan * REFUEL_STOP_OVERHEAD.
Proof.
  intros Hne Hplan Hfeas. unfold plan_multihop in Hplan.
  rewrite bool_decide_eq_false_2 in Hplan by done.
  destruct (coords !! origin) as [o|] eqn:Ho;
    [|by injection Hplan as <-].
  destruct (coords !! destination) as [[dx dy]|] eqn:Hd;
    [|by injection Hplan as <-].
  destruct (hop_loop_spec _ dx dy Hd _ _ _ _ _ Hplan)
    as (stops & visited & last & Hhops & Hend).
  { pose proof (size_unvisited_le {[origin]}). lia. }
  destruct Hend as [(Hreach & new & Hlegs & ->)|(_ & _ & ->)]; [|done].
  cbn [app segments total_fuel total_seconds].
  destruct (greedy_hops_legs _ _ _ _ _ Hhops Hreach new Hlegs)
    as (Hfit & Horig & Hdest).
  destruct (greedy_hops_stops _ _ _ _ _ Hhops) as (Hnd & Hall).
  pose proof (Forall2_length _ _ _ Hlegs) as Hlen.
  rewrite route_legs_length in Hlen.
  assert (Hstops : num_stops
            {| segments := new; total_fuel := sum_fuel new;
               total_seconds :=
                 sum_seconds new
                 + (Z.of_nat (length new) - 1) * REFUEL_STOP_OVERHEAD;
               feasible := true; reason := "" |}
          = Z.of_nat (length stops)).
  { unfold num_stops. cbn [feasible segments negb orb].
    rewrite bool_decide_eq_false_2 by (intros ->; done). lia. }
  exists stops. rewrite Hstops.
  split; [done|]. split; [done|]. split; [done|]. split.
  { constructor; [|done]. intros Hin. apply Hall in Hin as [_ Hin].
    apply Hin. set_solver. }
  split; [intros w Hw; by apply Hall|]. split; [done|]. split.
  { pose proof (greedy_hops_length _ _ _ _ _ Hhops).
    pose proof (size_unvisited_le {[origin]}). lia. }
  split.
  - etrans; [apply sum_fuel_bound|].
    + eapply Forall_impl; [exact Hfit|]. by intros seg [? _].
    + rewrite Hlen. lia.
  - rewrite Hlen. f_equal. lia.
Qed.

End GreedyFacts.

(* ===================================================================== *)
(** ** Distances, fuel estimates and round trips *)
(* ===================================================================== *)

Section FuelEstimates.
Import Router RouterSpec PyFloatSpec.
Local Open Scope Z_scope.

Lemma distance_sym x1 y1 x2 y2 :
  distance x1 y1 x2 y2 = distance x2 y2 x1 y1.
Proof.
  unfold distance.
  replace ((x2 - x1) ^ 2 + (y2 - y1) ^ 2)
    with ((x1 - x2) ^ 2 + (y1 - y2) ^ 2); [done|].
  rewrite !Z.pow_2_r. ring.
Qed.

Lemma distance_same x y : distance x y x y = Some (S754_zero false).
Proof. unfold distance. by rewrite !Z.sub_diag. Qed.

Lemma distance_positive x1 y1 x2 y2 :
  - 2 ^ 48 ≤ x1 ≤ 2 ^ 48 → - 2 ^ 48 ≤ y1 ≤ 2 ^ 48 →
  - 2 ^ 48 ≤ x2 ≤ 2 ^ 48 → - 2 ^ 48 ≤ y2 ≤ 2 ^ 48 →
  x1 ≠ x2 ∨ y1 ≠ y2 →
  ∃ d, distance x1 y1 x2 y2 = Some d ∧ at_least_one d.
Proof.
  intros Hx1 Hy1 Hx2 Hy2 Hne. unfold distance.
  destruct (of_int_positive ((x2 - x1) ^ 2 + (y2 - y1) ^ 2) 100)
    as (f & -> & Hone & Hb); [|lia|].
  { change (2 ^ 48) with 281474976710656 in *.
    change (2 ^ 100) with 1267650600228229401496703205376.
    rewrite !Z.pow_2_r.
    set (dx := x2 - x1). set (dy := y2 - y1).
    assert (- 562949953421312 ≤ dx ≤ 562949953421312) by (subst dx; lia).
    assert (- 562949953421312 ≤ dy ≤ 562949953421312) by (subst dy; lia).
    assert (dx ≠ 0 ∨ dy ≠ 0) as Hnz by (subst dx dy; lia).
    assert (0 ≤ dx * dx ≤ 562949953421312 * 562949953421312) by nia.
    assert (0 ≤ dy * dy ≤ 562949953421312 * 562949953421312) by nia.
    assert (dx ≠ 0 → 1 ≤ dx * dx) by nia.
    assert (dy ≠ 0 → 1 ≤ dy * dy) by nia.
    lia. }
  cbn [mbind option_bind].
  destruct (sqrt_at_least_one 101 f) as (d & -> & Hd & _); [done|done|lia|].
  by exists d.
Qed.

Lemma at_least_one_ceil d :
  at_least_one d →
  ∃ c, PyFloat.ceil d = Some c ∧ 1 ≤ c
       ∧ SFeqb d (S754_zero false) = false.
Proof.
  destruct d as [| | |[] m e]; try done. intros _.
  destruct (PyFloat.ceil (S754_finite false m e)) as [c|] eqn:Hc; [|done].
  exists c. split; [done|]. split; [by eapply ceil_positive | done].
Qed.

(** The distance is symmetric; it is 0.0 from a point to itself; and
    between two distinct points of integer coordinates it is at least 1,
    so that a CRUISE leg costs its rounded-up length, with no need of the
    minimum of 1. *)
Theorem distance_between_points :
  (∀ x1 y1 x2 y2, distance x1 y1 x2 y2 = distance x2 y2 x1 y1)
  ∧ (∀ x y, distance x y x y = Some (S754_zero false))
  ∧ (∀ x1 y1 x2 y2,
       - 2 ^ 48 ≤ x1 ≤ 2 ^ 48 → - 2 ^ 48 ≤ y1 ≤ 2 ^ 48 →
       - 2 ^ 48 ≤ x2 ≤ 2 ^ 48 → - 2 ^ 48 ≤ y2 ≤ 2 ^ 48 →
       x1 ≠ x2 ∨ y1 ≠ y2 →
       ∃ d c, distance x1 y1 x2 y2 = Some d ∧ at_least_one d
              ∧ PyFloat.ceil d = Some c ∧ 1 ≤ c
              ∧ fuel_cost d "CRUISE" = Some c).
Proof.
  split; [apply distance_sym|]. split; [apply distance_same|].
  intros x1 y1 x2 y2 Hx1 Hy1 Hx2 Hy2 Hne.
  destruct (distance_positive x1 y1 x2 y2) as (d & Hd & Hone); try done.
  destruct (at_least_one_ceil d Hone) as (c & Hc & Hc1 & _).
  exists d, c. repeat (split; [done|]).
  unfold fuel_cost. rewrite Hc. cbn. f_equal. lia.
Qed.

(** *** The three estimates of the fuel of a leg *)

(** For two known waypoints at distinct points the trader's one-way
    estimate, the contractor's estimate and the router's CRUISE cost of
    the leg agree, and the trader's round-trip estimate is twice that. *)
Theorem fuel_estimates_agree (coords : gmap string (Z * Z)) a b ax ay bx
    by_ :
  a ≠ b →
  coords !! a = Some (ax, ay) → coords !! b = Some (bx, by_) →
  - 2 ^ 48 ≤ ax ≤ 2 ^ 48 → - 2 ^ 48 ≤ ay ≤ 2 ^ 48 →
  - 2 ^ 48 ≤ bx ≤ 2 ^ 48 → - 2 ^ 48 ≤ by_ ≤ 2 ^ 48 →
  ax ≠ bx ∨ ay ≠ by_ →
  ∃ d c,
    distance ax ay bx by_ = Some d
    ∧ fuel_cost d "CRUISE" = Some c ∧ 1 ≤ c
    ∧ Trader.estimate_fuel_one_way coords a b = Some c
    ∧ Contractor._fuel_needed coords a b = Some c
    ∧ Trader.estimate_fuel_round_trip coords a b = Some (c * 2).
Proof.
  intros Hab Ha Hb Hax Hay Hbx Hby Hne.
  destruct (distance_positive ax ay bx by_) as (d & Hd & Hone); try done.
  destruct (at_least_one_ceil d Hone) as (c & Hc & Hc1 & Hnz).
  exists d, c. split; [done|]. split.
  { unfold fuel_cost. rewrite Hc. cbn. f_equal. lia. }
  split; [done|].
  unfold Trader.estimate_fuel_one_way, Trader.estimate_fuel_round_trip,
    Trader._distance, Contractor._fuel_needed.
  rewrite bool_decide_eq_false_2 by done. rewrite Ha, Hb, Hd.
  cbn [mbind option_bind]. rewrite Hnz, Hc. cbn [mbind option_bind].
  repeat split; f_equal; lia.
Qed.

(** The estimates at the edges.  From a waypoint to itself all three are
    0, known or not.  With an unknown waypoint all three are the sentinel
    9999, which the round trip does not double.  For two distinct
    waypoints at the same point the trader estimates 0 where the
    contractor and the router count 1. *)
Theorem fuel_estimates_at_the_edges (coords : gmap string (Z * Z)) a b :
  (Trader.estimate_fuel_one_way coords a a = Some 0
   ∧ Trader.estimate_fuel_round_trip coords a a = Some 0
   ∧ Contractor._fuel_needed coords a a = Some 0)
  ∧ (a ≠ b → coords !! a = None ∨ coords !! b = None →
     Trader.estimate_fuel_one_way coords a b = Some 9999
     ∧ Trader.estimate_fuel_round_trip coords a b = Some 9999
     ∧ Contractor._fuel_needed coords a b = Some 9999)
  ∧ (∀ x y, a ≠ b →
       coords !! a = Some (x, y) → coords !! b = Some (x, y) →
       Trader.estimate_fuel_one_way coords a b = Some 0
       ∧ Trader.estimate_fuel_round_trip coords a b = Some 0
       ∧ Contractor._fuel_needed coords a b = Some 1
       ∧ (d ← distance x y x y; fuel_cost d "CRUISE") = Some 1).
Proof.
  unfold Trader.estimate_fuel_one_way, Trader.estimate_fuel_round_trip,
    Trader._distance, Contractor._fuel_needed.
  split; [|split].
  - by rewrite bool_decide_eq_true_2.
  - intros Hab Hnone. rewrite bool_decide_eq_false_2 by done.
    destruct Hnone as [-> | Hb]; [done|]. rewrite Hb.
    by destruct (coords !! a) as [[? ?]|].
  - intros x y Hab Ha Hb. rewrite bool_decide_eq_false_2 by done.
    rewrite Ha, Hb, distance_same. done.
Qed.

(** The trader's travel time is the router's CRUISE travel time for every
    speed of at least 1; at speed 0 the trader's division fails where the
    router takes the speed to be 1. *)
Theorem cruise_time_is_the_cruise_travel_time dist :
  (∀ speed, 1 ≤ speed →
     Trader.cruise_time dist speed = travel_time dist speed "CRUISE")
  ∧ Trader.cruise_time dist 0 = None
  ∧ (∀ speed mode, speed ≤ 1 →
       travel_time dist speed mode = travel_time dist 1 mode).
Proof.
  split; [|split].
  - intros speed Hs. unfold Trader.cruise_time, travel_time.
    rewrite Z.max_l by lia. done.
  - done.
  - intros speed mode Hs. unfold travel_time. by rewrite Z.max_r by lia.
Qed.

(** *** The fuel a ship may use *)

Lemma ceil_nonneg f c : nonneg f → PyFloat.ceil f = Some c → 0 ≤ c.
Proof.
  destruct f as [| | |[] m e]; try done.
  - intros _ [= <-]. done.
  - intros _ Hc. apply ceil_positive in Hc. lia.
Qed.

Lemma usable_fuel_defined ship :
  0 ≤ ship_fuel_capacity ship < 2 ^ 900 →
  ∃ available,
    usable_fuel ship = Some available
    ∧ 0 ≤ available ∧ available ≤ Z.max 0 (ship_fuel_current ship).
Proof.
  intros Hcap. unfold usable_fuel.
  destruct (of_int_below (ship_fuel_capacity ship) 900)
    as (c & -> & Hc & Hcp); [done|lia|].
  cbn [mbind option_bind].
  destruct (mul_below 901 (-2) c FUEL_RESERVE_FRACTION) as [Hm Hmp];
    [done | by vm_compute | lia |].
  destruct (ceil_defined _ _ Hm) as [reserve Hr]. rewrite Hr.
  cbn [mbind option_bind]. eexists. split; [done|].
  pose proof (ceil_nonneg _ _ (Hmp Hcp I) Hr). lia.
Qed.

(** [best_flight_mode] answers CRUISE when the ship can reach the
    destination in CRUISE and DRIFT otherwise; the ship can reach the
    destination in the mode answered exactly when it has any usable fuel
    at all. *)
Theorem best_flight_mode_is_affordable ship dist available m :
  usable_fuel ship = Some available →
  best_flight_mode ship dist = Some m →
  (m = "CRUISE" ∨ m = "DRIFT")
  ∧ (m = "CRUISE" ↔ can_reach ship dist "CRUISE" = Some true)
  ∧ can_reach ship dist m = Some (1 <=? available).
Proof.
  unfold best_flight_mode, can_reach, fuel_cost. intros -> Hm.
  cbn [mbind option_bind] in *.
  destruct (PyFloat.ceil dist) as [c|]; [|done].
  cbn [mbind option_bind String.eqb Ascii.eqb Bool.eqb] in *.
  destruct (Z.leb_spec (Z.max 1 c) available) as [Hle|Hgt].
  - injection Hm as <-. cbn. split; [by left|]. split; [done|].
    rewrite (proj2 (Z.leb_le _ _) Hle). do 2 f_equal. symmetry.
    apply Z.leb_le. lia.
  - assert (m = "DRIFT") as -> by (destruct (1 <=? available); congruence).
    cbn. split; [by right|]. split; [split; done | done].
Qed.

(** *** Round trips *)

Lemma finish_round_trip_spec available speed leg1 target_wp return_wp
    mode_back cost_back dist_back plan :
  waypoint_distance target_wp return_wp = Some dist_back →
  fuel_cost dist_back mode_back = Some cost_back →
  cost_back ≤ available - seg_fuel_cost leg1 →
  finish_round_trip available speed leg1 target_wp return_wp mode_back
  = Some plan →
  ∃ leg2,
    plan_segment (wp_x target_wp) (wp_y target_wp)
      (wp_x return_wp) (wp_y return_wp)
      (wp_symbol target_wp) (wp_symbol return_wp) speed mode_back
    = Some leg2
    ∧ plan = {| segments := [leg1; leg2];
                total_fuel := seg_fuel_cost leg1 + seg_fuel_cost leg2;
                total_seconds :=
                  seg_travel_seconds leg1 + seg_travel_seconds leg2;
                feasible := true; reason := "" |}
    ∧ seg_fuel_cost leg1 + seg_fuel_cost leg2 ≤ available.
Proof.
  intros Hd Hc Hle. unfold finish_round_trip.
  destruct (plan_segment _ _ _ _ _ _ speed mode_back) as [leg2|] eqn:Hleg2;
    [|done].
  cbn [mbind option_bind].
  destruct (plan_segment_fields _ _ _ _ _ _ _ _ _ Hleg2)
    as (d & Hd' & Hc' & _).
  unfold waypoint_distance in Hd. rewrite Hd in Hd'. injection Hd' as <-.
  rewrite Hc in Hc'. injection Hc' as Hcost.
  rewrite (proj2 (Z.ltb_ge _ _)) by lia.
  intros [= <-]. exists leg2. split; [done|]. split; [done|]. lia.
Qed.

(** A round trip that is planned as feasible has two legs, out and back,
    each in CRUISE or in DRIFT and both in DRIFT when DRIFT is preferred;
    out in CRUISE, when DRIFT is not preferred, exactly when the ship can
    afford it; and the fuel of the two legs stays within the usable fuel
    of the ship, so that the reserve is not touched.  A round trip that
    is planned as infeasible has no leg and a fuel of 0: the return leg
    is only ever chosen within the fuel that is left, so the total never
    exceeds the usable fuel.  A plan is returned for every ship of speed
    and capacity within bounds and waypoints of bounded coordinates. *)
Theorem round_trip_stays_within_usable_fuel ship ship_wp target_wp return_wp
    prefer_drift :
  (∀ plan,
     plan_round_trip ship ship_wp target_wp return_wp prefer_drift
     = Some plan →
     ∃ available,
       usable_fuel ship = Some available
       ∧ if feasible plan then
           ∃ leg1 leg2 mode_out mode_back dist_out cruise_out,
             segments plan = [leg1; leg2]
             ∧ plan_segment (wp_x ship_wp) (wp_y ship_wp)
                 (wp_x target_wp) (wp_y target_wp)
                 (wp_symbol ship_wp) (wp_symbol target_wp)
                 (ship_engine_speed ship) mode_out = Some leg1
             ∧ plan_segment (wp_x target_wp) (wp_y target_wp)
                 (wp_x return_wp) (wp_y return_wp)
                 (wp_symbol target_wp) (wp_symbol return_wp)
                 (ship_engine_speed ship) mode_back = Some leg2
             ∧ (mode_out = "CRUISE" ∨ mode_out = "DRIFT")
             ∧ (mode_back = "CRUISE" ∨ mode_back = "DRIFT")
             ∧ (prefer_drift = true →
                mode_out = "DRIFT" ∧ mode_back = "DRIFT")
             ∧ waypoint_distance ship_wp target_wp = Some dist_out
             ∧ fuel_cost dist_out "CRUISE" = Some cruise_out
             ∧ (prefer_drift = false →
                (mode_out = "CRUISE" ↔ cruise_out ≤ available))
             ∧ total_fuel plan = seg_fuel_cost leg1 + seg_fuel_cost leg2
             ∧ total_fuel plan ≤ available
             ∧ total_seconds plan
               = seg_travel_seconds leg1 + seg_travel_seconds leg2
         else
           segments plan = [] ∧ total_fuel plan = 0
           ∧ total_seconds plan = 0 ∧ reason plan ≠ "")
  ∧ (0 ≤ ship_fuel_capacity ship < 2 ^ 900 →
     ship_engine_speed ship < 2 ^ 52 →
     (∀ wp, wp ∈ [ship_wp; target_wp; return_wp] →
        - 2 ^ 48 ≤ wp_x wp ≤ 2 ^ 48 ∧ - 2 ^ 48 ≤ wp_y wp ≤ 2 ^ 48) →
     is_Some (plan_round_trip ship ship_wp target_wp return_wp
                prefer_drift)).
Proof.
  split.
  - intros plan. unfold plan_round_trip.
    destruct (usable_fuel ship) as [available|]; [|done].
    cbn [mbind option_bind].
    destruct (waypoint_distance ship_wp target_wp) as [dist_out|] eqn:Hout;
      [|done].
    cbn [mbind option_bind].
    destruct (fuel_cost dist_out "CRUISE") as [cruise_out|] eqn:Hco.
    2:{ destruct prefer_drift; [|done]. cbn [mbind option_bind].
        unfold fuel_cost in Hco.
        destruct (plan_segment _ _ _ _ _ _ _ "DRIFT") as [leg1|] eqn:Hleg1;
          [|done].
        apply plan_segment_fields in Hleg1 as (d & Hd & Hc & _).
        unfold waypoint_distance in Hout. rewrite Hout in Hd.
        injection Hd as <-. unfold fuel_cost in Hc.
        destruct (PyFloat.ceil dist_out); done. }
    set (mode_out := if prefer_drift then "DRIFT"
                     else if available <? cruise_out then "DRIFT"
                          else "CRUISE").
    assert (Hmode :
      (if prefer_drift then Some "DRIFT"
       else c ← Some cruise_out;
            Some (if available <? c then "DRIFT" else "CRUISE"))
      = Some mode_out) by (subst mode_out; by destruct prefer_drift).
    rewrite Hmode. cbn [mbind option_bind].
    destruct (plan_segment _ _ _ _ _ _ _ mode_out) as [leg1|] eqn:Hleg1;
      [|done].
    cbn [mbind option_bind].
    destruct (waypoint_distance target_wp return_wp) as [dist_back|] eqn:Hback;
      [|done].
    cbn [mbind option_bind].
    destruct (fuel_cost dist_back "CRUISE") as [cost_cruise_back|] eqn:Hcb;
      [|done].
    cbn [mbind option_bind].
    destruct (fuel_cost dist_back "DRIFT") as [cost_drift_back|] eqn:Hdb;
      [|done].
    cbn [mbind option_bind].
    assert (Hout_modes :
      (mode_out = "CRUISE" ∨ mode_out = "DRIFT")
      ∧ (prefer_drift = true → mode_out = "DRIFT")
      ∧ (prefer_drift = false →
         (mode_out = "CRUISE" ↔ cruise_out ≤ available))).
    { subst mode_out. destruct prefer_drift.
      - split; [by right|]. split; done.
      - destruct (Z.ltb_spec available cruise_out);
          (split; [by (left + right)|]); (split; [done|]); intros _;
          split; (done || lia). }
    destruct Hout_modes as (Hm1 & Hm2 & Hm3).
    intros Hplan. exists available. split; [done|].
    destruct (negb prefer_drift && (cost_cruise_back
                <=? available - seg_fuel_cost leg1)) eqn:Hcase.
    + apply andb_true_iff in Hcase as [Hpd Hle].
      apply negb_true_iff in Hpd. apply Z.leb_le in Hle.
      destruct (finish_round_trip_spec _ _ _ _ _ _ _ _ _ Hback Hcb Hle Hplan)
        as (leg2 & Hleg2 & -> & Htot).
      cbn [feasible segments total_fuel total_seconds].
      exists leg1, leg2, mode_out, "CRUISE", dist_out, cruise_out.
      repeat (split; [done|]). split; [by left|].
      split; [by rewrite Hpd|]. repeat (split; [done|]). done.
    + destruct (Z.leb_spec cost_drift_back
                  (available - seg_fuel_cost leg1)) as [Hle|Hgt].
      * destruct (finish_round_trip_spec _ _ _ _ _ _ _ _ _ Hback Hdb Hle
                    Hplan) as (leg2 & Hleg2 & -> & Htot).
        cbn [feasible segments total_fuel total_seconds].
        exists leg1, leg2, mode_out, "DRIFT", dist_out, cruise_out.
        repeat (split; [done|]). split; [by right|].
        split; [intros Hpd; split; [by apply Hm2 | done]|].
        repeat (split; [done|]). done.
      * injection Hplan as <-.
        cbn [feasible infeasible segments total_fuel total_seconds reason].
        done.
  - intros Hcap Hspeed Hwps.
    destruct (Hwps ship_wp) as [Hsx Hsy]; [set_solver|].
    destruct (Hwps target_wp) as [Htx Hty]; [set_solver|].
    destruct (Hwps return_wp) as [Hrx Hry]; [set_solver|].
    destruct (usable_fuel_defined ship Hcap) as (available & Hav & _).
    unfold plan_round_trip. rewrite Hav. cbn [mbind option_bind].
    assert (Hleg : ∀ a b md,
      a ∈ [ship_wp; target_wp; return_wp] →
      b ∈ [ship_wp; target_wp; return_wp] →
      ∃ seg d c1 c2,
        plan_segment (wp_x a) (wp_y a) (wp_x b) (wp_y b)
          (wp_symbol a) (wp_symbol b) (ship_engine_speed ship) md = Some seg
        ∧ waypoint_distance a b = Some d
        ∧ fuel_cost d "CRUISE" = Some c1 ∧ fuel_cost d "DRIFT" = Some c2).
    { intros a b md Ha Hb.
      destruct (Hwps a Ha) as [? ?]. destruct (Hwps b Hb) as [? ?].
      destruct (plan_segment_defined (ship_engine_speed ship) md
                  (wp_x a) (wp_y a) (wp_x b) (wp_y b)
                  (wp_symbol a) (wp_symbol b)) as [seg Hseg]; try done.
      destruct (plan_segment_fields _ _ _ _ _ _ _ _ _ Hseg)
        as (d & Hd & Hc & _).
      exists seg, d. unfold fuel_cost in *.
      destruct (PyFloat.ceil d) as [c|]; [|done].
      by eexists _, _. }
    destruct (Hleg ship_wp target_wp "CRUISE") as (_ & d1 & c1 & _ & _ & -> & Hc1 & _);
      [set_solver | set_solver |].
    cbn [mbind option_bind]. rewrite Hc1.
    set (mode_out := if prefer_drift then "DRIFT"
                     else if available <? c1 then "DRIFT" else "CRUISE").
    assert (Hmode :
      (if prefer_drift then Some "DRIFT"
       else c ← Some c1;
            Some (if available <? c then "DRIFT" else "CRUISE"))
      = Some mode_out) by (subst mode_out; by destruct prefer_drift).
    rewrite Hmode. cbn [mbind option_bind].
    destruct (Hleg ship_wp target_wp mode_out) as (leg1 & _ & _ & _ & -> & _);
      [set_solver | set_solver |].
    cbn [mbind option_bind].
    destruct (Hleg target_wp return_wp "CRUISE")
      as (leg2c & d2 & c2 & c3 & Hl2c & -> & Hc2 & Hc3);
      [set_solver | set_solver |].
    cbn [mbind option_bind]. rewrite Hc2. cbn [mbind option_bind].
    rewrite Hc3. cbn [mbind option_bind].
    destruct (Hleg target_wp return_wp "DRIFT") as (leg2d & _ & _ & _ & Hl2d & _);
      [set_solver | set_solver |].
    unfold finish_round_trip. rewrite Hl2c, Hl2d. cbn [mbind option_bind].
    repeat case_match; by eexists.
Qed.

End FuelEstimates.

(* ===================================================================== *)
(** ** Properties of the safe sell volume *)
(* ===================================================================== *)

Section TraderFacts.
Import Trader TraderSpec PyFloatSpec.
Local Open Scope Z_scope.

(** The multiplier the code computes is the float of the integer
    multiplier of the specification. *)
Lemma multiplier_exact supply activity :
  (if bool_decide (activity = Some "STRONG")
   then PyFloat.add (supply_multiplier supply) PyFloat.f1_0
   else supply_multiplier supply)
  = exact (multiplier supply activity)
  ∧ 2 ≤ multiplier supply activity ≤ 7.
Proof.
  unfold supply_multiplier, multiplier.
  destruct (bool_decide (activity = Some "STRONG"));
    destruct (String.eqb supply "SCARCE");
    [|destruct (String.eqb supply "LIMITED");
      [|destruct (String.eqb supply "MODERATE");
        [|destruct (String.eqb supply "HIGH");
          [|destruct (String.eqb supply "ABUNDANT")]]] ..];
    (split; [by vm_compute | lia]).
Qed.

(** C2, as the code has it.  While the product of the trade volume and the
    multiplier stays below [2 ^ 53], so that binary64 holds it exactly,
    the safe sell volume is [min(v * m, c)] for the multiplier [m] of the
    table (3 for an unknown supply, one more under STRONG activity); a
    volume that is returned never exceeds the cargo capacity; and the three
    examples of the specification evaluate to 18, 24 and 25. *)
Theorem safe_sell_volume_formula :
  (∀ supply activity v c,
     0 ≤ v → v * multiplier supply activity < 2 ^ 53 →
     safe_sell_volume supply activity v c
     = Some (Z.min (v * multiplier supply activity) c))
  ∧ (∀ supply activity v c r,
       safe_sell_volume supply activity v c = Some r → r ≤ c)
  ∧ safe_sell_volume "LIMITED" (Some "WEAK") 6 40 = Some 18
  ∧ safe_sell_volume "LIMITED" (Some "STRONG") 6 default_cargo_capacity
    = Some 24
  ∧ safe_sell_volume "ABUNDANT" (Some "STRONG") 100 25 = Some 25.
Proof.
  split; [|split; [|by vm_compute]].
  - intros supply activity v c Hv Hvm. unfold safe_sell_volume.
    destruct (multiplier_exact supply activity) as [-> Hm].
    set (m := multiplier supply activity) in *.
    rewrite of_int_exact by nia. cbn [mbind option_bind].
    assert (Hprod : PyFloat.mul (exact v) (exact m) = exact (v * m)).
    { destruct (Z.eq_dec v 0) as [->|Hv0].
      - rewrite Z.mul_0_l.
        destruct m as [|pm|pm]; [lia| |lia]. by rewrite (exact_spec pm) by lia.
      - apply exact_mul; lia. }
    rewrite Hprod, trunc_exact by nia. done.
  - intros supply activity v c r. unfold safe_sell_volume.
    destruct (PyFloat.of_int v) as [f|]; [|done]. cbn [mbind option_bind].
    destruct (PyFloat.trunc _) as [n|]; [|done]. cbn [mbind option_bind].
    intros [= <-]. lia.
Qed.

(** C2, the case it misses: a trade volume that binary64 cannot hold
    exactly.  For [v = 2 ^ 53 + 1] under LIMITED supply the code returns
    [3 * 2 ^ 53], three units short of [v * 3]. *)
Lemma safe_sell_volume_rounds_large_volumes :
  safe_sell_volume "LIMITED" (Some "WEAK") (2 ^ 53 + 1) (10 ^ 20)
  = Some 27021597764222976
  ∧ Z.min ((2 ^ 53 + 1) * 3) (10 ^ 20) = 27021597764222979.
Proof. split; by vm_compute. Qed.

End TraderFacts.

(* ===================================================================== *)
(** ** The route finder *)
(* ===================================================================== *)

Section RouteFacts.
Import Trader TraderSpec.
Local Open Scope Z_scope.

Variable coords : gmap string (Z * Z).
Variable ship_location : string.
Variable cargo_capacity : Z.
Variable fuel_capacity : Z.
Variable excluded_routes : list (string * string * string).
Variable credits : option Z.
Variable speed : Z.
Variable fuel_waypoints : option (list string).

(** *** Dictionaries of lists *)

Lemma setdefault_append_elem {A} key (v : A) d k l x :
  (k, l) ∈ setdefault_append key v d → x ∈ l →
  (k = key ∧ x = v) ∨ ∃ l0, (k, l0) ∈ d ∧ x ∈ l0.
Proof.
  induction d as [|[k0 l0] d IH]; cbn [setdefault_append].
  - intros Hin Hx. apply list_elem_of_singleton in Hin as [= -> ->].
    apply list_elem_of_singleton in Hx as ->. by left.
  - destruct (String.eqb_spec k0 key) as [->|Hne].
    + intros Hin Hx. apply elem_of_cons in Hin as [[= -> ->]|Hin].
      * apply elem_of_app in Hx as [Hx|Hx].
        -- right. exists l0. split; [left | done].
        -- apply list_elem_of_singleton in Hx as ->. by left.
      * right. exists l. split; [by right | done].
    + intros Hin Hx. apply elem_of_cons in Hin as [[= -> ->]|Hin].
      * right. exists l0. split; [left | done].
      * destruct (IH Hin Hx) as [?|(l1 & ? & ?)]; [by left|].
        right. exists l1. split; [by right | done].
Qed.

Lemma get_list_setdefault_append {A} key (v : A) d k x :
  x ∈ get_list k (setdefault_append key v d)
  ↔ (k = key ∧ x = v) ∨ x ∈ get_list k d.
Proof.
  induction d as [|[k0 l0] d IH]; cbn [setdefault_append get_list].
  - destruct (String.eqb_spec key k) as [->|Hne].
    + rewrite list_elem_of_singleton. split; [intros ->; by left|].
      intros [[_ ->]|Hx]; [done | by apply elem_of_nil in Hx].
    + split; [intros Hx; by apply elem_of_nil in Hx|].
      intros [[-> _]|Hx]; [done | by apply elem_of_nil in Hx].
  - destruct (String.eqb_spec k0 key) as [->|Hne]; cbn [get_list].
    + destruct (String.eqb_spec key k) as [->|Hne'].
      * rewrite elem_of_app, list_elem_of_singleton. tauto.
      * split; [by right|]. intros [[-> _]|Hx]; done.
    + destruct (String.eqb_spec k0 k) as [->|Hne'].
      * split; [by right|]. intros [[-> _]|Hx]; done.
      * apply IH.
Qed.

Lemma get_list_elem {A} k (d : list (string * list A)) x :
  x ∈ get_list k d → ∃ l, (k, l) ∈ d ∧ x ∈ l.
Proof.
  induction d as [|[k0 l0] d IH]; cbn [get_list];
    [intros Hx; by apply elem_of_nil in Hx|].
  destruct (String.eqb_spec k0 k) as [->|Hne].
  - intros Hx. exists l0. split; [left | done].
  - intros Hx. destruct (IH Hx) as (l & ? & ?).
    exists l. split; [by right | done].
Qed.

(** *** The markets of a good *)

Lemma group_record_spec wp (st : Markets * Markets) r :
  let st' := group_record wp st r in
  (∀ good l x, (good, l) ∈ st'.1 → x ∈ l →
     (x = (wp, r) ∧ rec_type r = "EXPORT" ∧ rec_trade_symbol r = good)
     ∨ ∃ l0, (good, l0) ∈ st.1 ∧ x ∈ l0)
  ∧ (∀ good x, x ∈ get_list good st'.2
     ↔ (x = (wp, r) ∧ rec_type r ≠ "EXPORT" ∧ rec_type r = "IMPORT"
        ∧ rec_trade_symbol r = good)
       ∨ x ∈ get_list good st.2)
  ∧ (∀ good x, x ∈ get_list good st'.1
     ↔ (x = (wp, r) ∧ rec_type r = "EXPORT" ∧ rec_trade_symbol r = good)
       ∨ x ∈ get_list good st.1).
Proof.
  destruct st as [exports imports]. unfold group_record. cbn [fst snd].
  destruct (String.eqb_spec (rec_type r) "EXPORT") as [He|He].
  - cbn [fst snd]. split; [|split].
    + intros good l x Hin Hx.
      destruct (setdefault_append_elem _ _ _ _ _ _ Hin Hx)
        as [[-> ->]|?]; [by left | by right].
    + intros good x. split; [by right|]. intros [(_ & ? & _)|?]; done.
    + intros good x. rewrite get_list_setdefault_append.
      split; (intros [?|?]; [left|by right]); naive_solver.
  - destruct (String.eqb_spec (rec_type r) "IMPORT") as [Hi|Hi];
      cbn [fst snd]; (split; [|split]).
    + intros good l x Hin Hx. right. by exists l.
    + intros good x. rewrite get_list_setdefault_append.
      split; (intros [?|?]; [left|by right]); naive_solver.
    + intros good x. split; [by right|]. intros [(_ & ? & _)|?]; done.
    + intros good l x Hin Hx. right. by exists l.
    + intros good x. split; [by right|]. intros [(_ & _ & ? & _)|?]; done.
    + intros good x. split; [by right|]. intros [(_ & ? & _)|?]; done.
Qed.

Lemma group_records_spec prices_by_wp :
  let st := group_records prices_by_wp in
  (∀ good l x, (good, l) ∈ st.1 → x ∈ l → cached prices_by_wp "EXPORT" good x)
  ∧ (∀ good x, x ∈ get_list good st.2 ↔ cached prices_by_wp "IMPORT" good x)
  ∧ (∀ good x, x ∈ get_list good st.1 ↔ cached prices_by_wp "EXPORT" good x).
Proof.
  unfold group_records.
  induction prices_by_wp as [|[wp records] prices IH] using rev_ind.
  - cbn. split; [|split].
    + intros good l x Hin. by apply elem_of_nil in Hin.
    + intros good x. split; [intros Hx; by apply elem_of_nil in Hx|].
      intros (records & Hin & _). by apply elem_of_nil in Hin.
    + intros good x. split; [intros Hx; by apply elem_of_nil in Hx|].
      intros (records & Hin & _). by apply elem_of_nil in Hin.
  - rewrite foldl_app. cbn [foldl fst snd].
    set (st0 := foldl (λ (st : Markets * Markets) item,
                         foldl (group_record item.1) st item.2)
                      ([], []) prices) in *.
    assert (Hinner : ∀ done_ todo, records = done_ ++ todo →
      let st := foldl (group_record wp) st0 done_ in
      (∀ good l x, (good, l) ∈ st.1 → x ∈ l →
         cached (prices ++ [(wp, done_)]) "EXPORT" good x)
      ∧ (∀ good x, x ∈ get_list good st.2
         ↔ cached (prices ++ [(wp, done_)]) "IMPORT" good x)
      ∧ (∀ good x, x ∈ get_list good st.1
         ↔ cached (prices ++ [(wp, done_)]) "EXPORT" good x)).
    { assert (Hweak : ∀ kind good x l1,
        cached prices kind good x → cached (prices ++ [(wp, l1)]) kind good x).
      { intros kind good x l1 (recs & Hin & ?). exists recs.
        split; [|done]. apply elem_of_app. by left. }
      assert (Hsplit : ∀ kind good x l1,
        cached (prices ++ [(wp, l1)]) kind good x
        ↔ cached prices kind good x
          ∨ (x.1 = wp ∧ x.2 ∈ l1 ∧ rec_type x.2 = kind
             ∧ rec_trade_symbol x.2 = good)).
      { intros kind good x l1. split.
        - intros (recs & Hin & Hx & Hk & Hg).
          apply elem_of_app in Hin as [Hin|Hin]; [left; by exists recs|].
          apply list_elem_of_singleton in Hin as [= -> ->]. by right.
        - intros [Hc|(Hw & Hx & Hk & Hg)]; [by apply Hweak|].
          exists l1. split; [|done]. apply elem_of_app. right.
          rewrite <- Hw. destruct x. apply list_elem_of_singleton. done. }
      intros done_. induction done_ as [|r done_ IHd] using rev_ind;
        intros todo Hrec.
      - cbn [foldl]. destruct IH as (IH1 & IH2 & IH3). split; [|split].
        + intros good l x Hin Hx. apply Hsplit. left. by eapply IH1.
        + intros good x. rewrite Hsplit, IH2. split; [by left|].
          intros [?|(_ & Hx & _)]; [done | by apply elem_of_nil in Hx].
        + intros good x. rewrite Hsplit, IH3. split; [by left|].
          intros [?|(_ & Hx & _)]; [done | by apply elem_of_nil in Hx].
      - rewrite foldl_app. cbn [foldl].
        destruct (IHd (r :: todo)) as (I1 & I2 & I3);
          [by rewrite Hrec, <- app_assoc|].
        destruct (group_record_spec wp (foldl (group_record wp) st0 done_) r)
          as (G1 & G2 & G3).
        split; [|split].
        + intros good l x Hin Hx. apply Hsplit.
          destruct (G1 good l x Hin Hx) as [(-> & He & Hg)|(l0 & Hin0 & Hx0)].
          * right. cbn. split; [done|]. split; [|done].
            apply elem_of_app. right. by apply list_elem_of_singleton.
          * apply (I1 good l0 x Hin0) in Hx0. apply Hsplit in Hx0.
            destruct Hx0 as [?|(? & Hx0 & ?)]; [by left|].
            right. split; [done|]. split; [|done]. apply elem_of_app. by left.
        + intros good x. rewrite G2, I2, !Hsplit.
          rewrite elem_of_app, list_elem_of_singleton.
          split.
          * intros [(-> & _ & Hi & Hg)|[?|(? & ? & ?)]]; [|by left|].
            -- right. cbn. split; [done|]. split; [by right | done].
            -- right. split; [done|]. split; [by left | done].
          * intros [?|(Hw & [Hx|Hx] & Hk & Hg)]; [by right; left| |].
            -- right; right. done.
            -- left. destruct x as [xw xr]. cbn in *. subst.
               split; [done|]. split; [|done]. rewrite Hk. done.
        + intros good x. rewrite G3, I3, !Hsplit.
          rewrite elem_of_app, list_elem_of_singleton.
          split.
          * intros [(-> & He & Hg)|[?|(? & ? & ?)]]; [|by left|].
            -- right. cbn. split; [done|]. split; [by right | done].
            -- right. split; [done|]. split; [by left | done].
          * intros [?|(Hw & [Hx|Hx] & Hk & Hg)]; [by right; left| |].
            -- right; right. done.
            -- left. destruct x as [xw xr]. cbn in *. subst. done. }
    apply (Hinner records []). by rewrite app_nil_r.
Qed.

(** *** The loops *)

Lemma scan_imports_spec good src import_list : ∀ routes routes',
  scan_imports coords ship_location cargo_capacity fuel_capacity
    excluded_routes credits speed fuel_waypoints good src import_list routes
  = Some routes' →
  ∃ new,
    routes' = routes ++ new
    ∧ ∀ r, r ∈ new
        ↔ ∃ dst, dst ∈ import_list
                 ∧ score_route coords ship_location cargo_capacity
                     fuel_capacity excluded_routes credits speed
                     fuel_waypoints good src dst = Some (Some r).
Proof.
  induction import_list as [|dst rest IH]; intros routes routes' Hscan.
  - injection Hscan as <-. exists []. rewrite app_nil_r. split; [done|].
    intros r. split; [intros Hr; by apply elem_of_nil in Hr|].
    intros (dst & Hdst & _). by apply elem_of_nil in Hdst.
  - cbn [scan_imports] in Hscan.
    destruct (score_route _ _ _ _ _ _ _ _ good src dst) as [res|] eqn:Hres;
      [|done].
    cbn [mbind option_bind] in Hscan.
    destruct (IH _ _ Hscan) as (new & -> & Hnew).
    destruct res as [route|].
    + exists (route :: new). split; [by rewrite <- app_assoc|].
      intros r. rewrite elem_of_cons, Hnew. split.
      * intros [->|(d & Hd & Hs)]; [exists dst; split; [left | done]|].
        exists d. split; [by right | done].
      * intros (d & Hd & Hs). apply elem_of_cons in Hd as [->|Hd].
        -- left. congruence.
        -- right. by exists d.
    + exists new. split; [done|]. intros r. rewrite Hnew. split.
      * intros (d & Hd & Hs). exists d. split; [by right | done].
      * intros (d & Hd & Hs). apply elem_of_cons in Hd as [->|Hd];
          [congruence|]. by exists d.
Qed.

Lemma scan_exports_spec good export_list import_list : ∀ routes routes',
  scan_exports coords ship_location cargo_capacity fuel_capacity
    excluded_routes credits speed fuel_waypoints good export_list import_list
    routes = Some routes' →
  ∃ new,
    routes' = routes ++ new
    ∧ ∀ r, r ∈ new
        ↔ ∃ src dst, src ∈ export_list ∧ dst ∈ import_list
                     ∧ score_route coords ship_location cargo_capacity
                         fuel_capacity excluded_routes credits speed
                         fuel_waypoints good src dst = Some (Some r).
Proof.
  induction export_list as [|src rest IH]; intros routes routes' Hscan.
  - injection Hscan as <-. exists []. rewrite app_nil_r. split; [done|].
    intros r. split; [intros Hr; by apply elem_of_nil in Hr|].
    intros (src & dst & Hsrc & _). by apply elem_of_nil in Hsrc.
  - cbn [scan_exports] in Hscan.
    destruct (scan_imports _ _ _ _ _ _ _ _ good src import_list routes)
      as [routes1|] eqn:H1; [|done].
    cbn [mbind option_bind] in Hscan.
    destruct (scan_imports_spec _ _ _ _ _ H1) as (new1 & -> & Hnew1).
    destruct (IH _ _ Hscan) as (new & -> & Hnew).
    exists (new1 ++ new). split; [by rewrite <- app_assoc|].
    intros r. rewrite elem_of_app, Hnew1, Hnew. split.
    + intros [(d & Hd & Hs)|(s0 & d & Hs0 & Hd & Hs)].
      * exists src, d. split; [left | done].
      * exists s0, d. split; [by right | done].
    + intros (s0 & d & Hs0 & Hd & Hs).
      apply elem_of_cons in Hs0 as [->|Hs0].
      * left. by exists d.
      * right. by exists s0, d.
Qed.

Lemma scan_goods_spec (exports imports : Markets) : ∀ routes routes',
  scan_goods coords ship_location cargo_capacity fuel_capacity
    excluded_routes credits speed fuel_waypoints exports imports routes
  = Some routes' →
  ∃ new,
    routes' = routes ++ new
    ∧ ∀ r, r ∈ new
        ↔ ∃ good export_list src dst,
            (good, export_list) ∈ exports ∧ src ∈ export_list
            ∧ dst ∈ get_list good imports
            ∧ score_route coords ship_location cargo_capacity fuel_capacity
                excluded_routes credits speed fuel_waypoints good src dst
              = Some (Some r).
Proof.
  induction exports as [|[good export_list] rest IH];
    intros routes routes' Hscan.
  - injection Hscan as <-. exists []. rewrite app_nil_r. split; [done|].
    intros r. split; [intros Hr; by apply elem_of_nil in Hr|].
    intros (g & l & src & dst & Hin & _). by apply elem_of_nil in Hin.
  - cbn [scan_goods] in Hscan.
    destruct (scan_exports _ _ _ _ _ _ _ _ good export_list
                (get_list good imports) routes) as [routes1|] eqn:H1; [|done].
    cbn [mbind option_bind] in Hscan.
    destruct (scan_exports_spec _ _ _ _ _ H1) as (new1 & -> & Hnew1).
    destruct (IH _ _ Hscan) as (new & -> & Hnew).
    exists (new1 ++ new). split; [by rewrite <- app_assoc|].
    intros r. rewrite elem_of_app, Hnew1, Hnew. split.
    + intros [(s0 & d & Hs0 & Hd & Hs)|(g & l & s0 & d & Hin & Hs0 & Hd & Hs)].
      * exists good, export_list, s0, d. split; [left | done].
      * exists g, l, s0, d. split; [by right | done].
    + intros (g & l & s0 & d & Hin & Hs0 & Hd & Hs).
      apply elem_of_cons in Hin as [[= -> ->]|Hin].
      * left. by exists s0, d.
      * right. by exists g, l, s0, d.
Qed.

(** *** The ranking *)

Lemma insert_route_perm r l : insert_route r l ≡ₚ r :: l.
Proof.
  induction l as [|y l IH]; cbn [insert_route]; [done|].
  case_match; [|done]. rewrite IH. apply perm_swap.
Qed.

Lemma sort_routes_perm l : sort_routes l ≡ₚ l.
Proof.
  induction l as [|r l IH]; [done|].
  cbn [sort_routes foldr]. fold (sort_routes l).
  by rewrite insert_route_perm, IH.
Qed.

Lemma insert_route_sorted r l :
  Sorted ranked l → Sorted ranked (insert_route r l).
Proof.
  induction 1 as [|y l Hl IH Hhd]; cbn [insert_route].
  - by repeat constructor.
  - destruct (PyFloat.ltb (route_profit_per_minute r)
                (route_profit_per_minute y)) eqn:Hlt.
    + constructor; [done|].
      destruct l as [|z l]; cbn [insert_route].
      * constructor. by apply ltb_asym.
      * case_match; constructor.
        -- by inversion Hhd.
        -- by apply ltb_asym.
    + constructor; [by constructor|]. by constructor.
Qed.

Lemma sort_routes_sorted l : Sorted ranked (sort_routes l).
Proof.
  induction l as [|r l IH]; [constructor|].
  cbn [sort_routes foldr]. by apply insert_route_sorted.
Qed.

(** *** One pair of markets *)

Lemma multihop_leg_spec origin dest estimate secs f s :
  estimate_fuel_one_way coords origin dest = Some estimate →
  multihop_leg coords fuel_capacity speed fuel_waypoints origin dest
    estimate secs = Some (Some (f, s)) →
  leg_fuel coords fuel_capacity speed fuel_waypoints origin dest f.
Proof.
  intros Hest. unfold multihop_leg. exists estimate. split; [done|].
  destruct (Z.ltb_spec fuel_capacity estimate) as [Hfar|Hnear].
  - destruct fuel_waypoints as [[|w wps]|]; try done.
    destruct (Router.plan_multihop _ _ _ _ _ _ _) as [plan|] eqn:Hplan;
      [|done].
    cbn [mbind option_bind] in H.
    destruct (Router.feasible plan) eqn:Hfeas; [|done].
    injection H as <- <-. right. split; [done|]. by exists (w :: wps), plan.
  - injection H as <- <-. by left.
Qed.

Lemma score_route_sound good src dst r :
  score_route coords ship_location cargo_capacity fuel_capacity
    excluded_routes credits speed fuel_waypoints good src dst
  = Some (Some r) →
  route_good r = good
  ∧ route_source r = src.1 ∧ route_destination r = dst.1
  ∧ route_buy_price r = rec_purchase_price src.2
  ∧ route_sell_price r = rec_sell_price dst.2
  ∧ route_trade_volume r = rec_trade_volume src.2
  ∧ route_source r ≠ route_destination r
  ∧ ((route_good r, route_source r, route_destination r) ∉ excluded_routes)
  ∧ route_profit_per_unit r = route_sell_price r - route_buy_price r
  ∧ 0 < route_profit_per_unit r
  ∧ (∀ c, credits = Some c →
          route_buy_price r * route_trade_volume r ≤ c)
  ∧ (∃ deadhead leg,
       leg_fuel coords fuel_capacity speed fuel_waypoints ship_location
         (route_source r) deadhead
       ∧ leg_fuel coords fuel_capacity speed fuel_waypoints (route_source r)
           (route_destination r) leg
       ∧ route_deadhead_credits r = deadhead * FUEL_PRICE
       ∧ route_fuel_cost_credits r = leg * 2 * FUEL_PRICE)
  ∧ (∃ safe_units,
       safe_sell_volume (rec_supply dst.2) (rec_activity dst.2)
         (rec_trade_volume dst.2) cargo_capacity = Some safe_units
       ∧ route_net_profit r
         = route_profit_per_unit r * safe_units
           - route_fuel_cost_credits r - route_deadhead_credits r)
  ∧ 0 < route_net_profit r.
Proof.
  destruct src as [src_wp src_rec], dst as [dst_wp dst_rec].
  unfold score_route. cbn [fst snd].
  destruct (String.eqb_spec src_wp dst_wp) as [|Hne]; [done|].
  case_bool_decide as Hex; [done|].
  destruct (Z.leb_spec (rec_sell_price dst_rec - rec_purchase_price src_rec) 0)
    as [|Hppu]; [done|].
  destruct (match credits with
            | Some c => c <? rec_purchase_price src_rec * rec_trade_volume src_rec
            | None => false
            end) eqn:Hcred; [done|].
  destruct (estimate_fuel_one_way coords ship_location src_wp)
    as [deadhead_fuel|] eqn:Hdf; [|done].
  cbn [mbind option_bind].
  destruct (estimate_fuel_one_way coords src_wp dst_wp)
    as [leg_fuel0|] eqn:Hlf; [|done].
  cbn [mbind option_bind].
  destruct (_distance coords ship_location src_wp) as [dd|]; [|done].
  cbn [mbind option_bind].
  destruct (_distance coords src_wp dst_wp) as [ld|]; [|done].
  cbn [mbind option_bind].
  destruct (if PyFloat.ltb (S754_zero false) (or_zero dd)
            then cruise_time (or_zero dd) speed else Some 0)
    as [deadhead_secs|]; [|done].
  cbn [mbind option_bind].
  destruct (cruise_time (or_zero ld) speed) as [leg_secs|]; [|done].
  cbn [mbind option_bind].
  destruct (multihop_leg _ _ _ _ ship_location src_wp deadhead_fuel
              deadhead_secs) as [[[fd sd]|]|] eqn:Hdh; try done.
  cbn [mbind option_bind].
  destruct (multihop_leg _ _ _ _ src_wp dst_wp leg_fuel0 leg_secs)
    as [[[fl sl]|]|] eqn:Hlg; try done.
  cbn [mbind option_bind].
  destruct (safe_sell_volume _ _ _ cargo_capacity) as [safe_units|] eqn:Hsafe;
    [|done].
  cbn [mbind option_bind].
  destruct (Z.leb_spec
              ((rec_sell_price dst_rec - rec_purchase_price src_rec)
               * safe_units - fl * 2 * FUEL_PRICE - fd * FUEL_PRICE) 0)
    as [|Hnet]; [done|].
  destruct (if 0 <? sd + sl + TRADE_OVERHEAD_SECONDS then _ else _)
    as [ppm|]; [|done].
  cbn [mbind option_bind]. intros [= <-].
  cbn [route_good route_source route_destination route_buy_price
         route_sell_price route_trade_volume route_profit_per_unit
         route_fuel_cost_credits route_deadhead_credits route_net_profit].
  repeat (split; [done|]).
  split.
  { intros c ->. apply Z.ltb_ge in Hcred. done. }
  split.
  { exists fd, fl. split; [by eapply multihop_leg_spec|].
    split; [by eapply multihop_leg_spec | done]. }
  split; [by exists safe_units | done].
Qed.

Lemma find_best_routes_not_excluded prices_by_wp routes r :
  find_best_routes coords ship_location cargo_capacity fuel_capacity
    excluded_routes credits speed fuel_waypoints prices_by_wp = Some routes →
  r ∈ routes →
  (route_good r, route_source r, route_destination r) ∉ excluded_routes.
Proof.
  unfold find_best_routes. intros Hfind Hr.
  destruct (group_records prices_by_wp) as [exports imports].
  destruct (scan_goods _ _ _ _ _ _ _ _ exports imports []) as [scanned|] eqn:Hscan;
    [|done].
  cbn [mbind option_bind] in Hfind. injection Hfind as <-.
  rewrite sort_routes_perm in Hr.
  destruct (scan_goods_spec _ _ _ _ Hscan) as (new & -> & Hnew).
  cbn [app] in Hr. apply Hnew in Hr
    as (good & export_list & src & dst & Hin & Hsrc & Hdst & Hscore).
  by apply score_route_sound in Hscore as (_ & _ & _ & _ & _ & _ & _ & Hex & _).
Qed.

(** Every route that [find_best_routes] returns is worth flying: it buys
    a good at a cached export market and sells it at a cached import
    market at another waypoint; it is not claimed by another ship; the
    profit per unit and the net profit, after the fuel of the round trip
    and of the way to the source, are positive; one batch is within the
    credits, when these are given; and each of the two legs either fits
    the tank or has a feasible multi-hop plan. *)
Theorem best_routes_are_profitable prices_by_wp routes r :
  find_best_routes coords ship_location cargo_capacity fuel_capacity
    excluded_routes credits speed fuel_waypoints prices_by_wp = Some routes →
  r ∈ routes →
  (∃ src dst,
     cached prices_by_wp "EXPORT" (route_good r) src
     ∧ cached prices_by_wp "IMPORT" (route_good r) dst
     ∧ route_source r = src.1 ∧ route_destination r = dst.1
     ∧ route_buy_price r = rec_purchase_price src.2
     ∧ route_sell_price r = rec_sell_price dst.2
     ∧ route_trade_volume r = rec_trade_volume src.2
     ∧ ∃ safe_units,
         safe_sell_volume (rec_supply dst.2) (rec_activity dst.2)
           (rec_trade_volume dst.2) cargo_capacity = Some safe_units
         ∧ route_net_profit r
           = route_profit_per_unit r * safe_units
             - route_fuel_cost_credits r - route_deadhead_credits r)
  ∧ route_source r ≠ route_destination r
  ∧ ((route_good r, route_source r, route_destination r) ∉ excluded_routes)
  ∧ route_profit_per_unit r = route_sell_price r - route_buy_price r
  ∧ 0 < route_profit_per_unit r
  ∧ 0 < route_net_profit r
  ∧ (∀ c, credits = Some c →
          route_buy_price r * route_trade_volume r ≤ c)
  ∧ ∃ deadhead leg,
      leg_fuel coords fuel_capacity speed fuel_waypoints ship_location
        (route_source r) deadhead
      ∧ leg_fuel coords fuel_capacity speed fuel_waypoints (route_source r)
          (route_destination r) leg
      ∧ route_deadhead_credits r = deadhead * FUEL_PRICE
      ∧ route_fuel_cost_credits r = leg * 2 * FUEL_PRICE.
Proof.
  unfold find_best_routes. intros Hfind Hr.
  pose proof (group_records_spec prices_by_wp) as (Hexp & Himp & _).
  destruct (group_records prices_by_wp) as [exports imports].
  cbn [fst snd] in *.
  destruct (scan_goods _ _ _ _ _ _ _ _ exports imports []) as [scanned|] eqn:Hscan;
    [|done].
  cbn [mbind option_bind] in Hfind. injection Hfind as <-.
  rewrite sort_routes_perm in Hr.
  destruct (scan_goods_spec _ _ _ _ Hscan) as (new & -> & Hnew).
  cbn [app] in Hr. apply Hnew in Hr
    as (good & export_list & src & dst & Hin & Hsrc & Hdst & Hscore).
  apply score_route_sound in Hscore
    as (Hg & Hs & Hd & Hb & Hsl & Hv & Hne & Hex & Hppu & Hpos & Hcred
        & Hlegs & Hnet & Hnetpos).
  split.
  { exists src, dst. rewrite Hg.
    split; [by eapply Hexp|]. split; [by apply Himp|].
    repeat (split; [done|]). done. }
  repeat (split; [done|]). done.
Qed.

(** The routes returned are all and only the routes of the pairs of an
    export market and an import market of the same good that pass the
    checks; and they are ranked by profit per minute: no route stands
    directly before one of strictly higher profit per minute. *)
Theorem best_routes_are_ranked prices_by_wp routes :
  find_best_routes coords ship_location cargo_capacity fuel_capacity
    excluded_routes credits speed fuel_waypoints prices_by_wp = Some routes →
  Sorted ranked routes
  ∧ ∀ r, r ∈ routes
      ↔ ∃ good src dst,
          cached prices_by_wp "EXPORT" good src
          ∧ cached prices_by_wp "IMPORT" good dst
          ∧ score_route coords ship_location cargo_capacity fuel_capacity
              excluded_routes credits speed fuel_waypoints good src dst
            = Some (Some r).
Proof.
  unfold find_best_routes. intros Hfind.
  pose proof (group_records_spec prices_by_wp) as (Hexp & Himp & Hexp').
  destruct (group_records prices_by_wp) as [exports imports].
  cbn [fst snd] in *.
  destruct (scan_goods _ _ _ _ _ _ _ _ exports imports []) as [scanned|] eqn:Hscan;
    [|done].
  cbn [mbind option_bind] in Hfind. injection Hfind as <-.
  split; [apply sort_routes_sorted|].
  intros r. rewrite sort_routes_perm.
  destruct (scan_goods_spec _ _ _ _ Hscan) as (new & -> & Hnew).
  cbn [app]. rewrite Hnew. split.
  - intros (good & export_list & src & dst & Hin & Hsrc & Hdst & Hscore).
    exists good, src, dst. split; [by eapply Hexp|].
    split; [by apply Himp | done].
  - intros (good & src & dst & Hsrc & Hdst & Hscore).
    apply Hexp' in Hsrc. apply get_list_elem in Hsrc as (l & Hin & Hsrc).
    exists good, l, src, dst. split; [done|]. split; [done|].
    split; [by apply Himp | done].
Qed.

End RouteFacts.

(* ===================================================================== *)
(** ** The route claims *)
(* ===================================================================== *)

Section ClaimFacts.
Import State StateSpec.
Local Open Scope Z_scope.

Lemma dict_set_others {V} key (v : V) d :
  filter (λ item : string * V, item.1 ≠ key) (dict_set key v d)
  = filter (λ item : string * V, item.1 ≠ key) d.
Proof.
  induction d as [|[k x] d IH]; cbn [dict_set].
  - rewrite filter_cons_False; [done|]. cbn. by intros ?.
  - destruct (String.eqb_spec k key) as [->|Hne].
    + rewrite !filter_cons_False; [done| |]; cbn; by intros ?.
    + rewrite !filter_cons_True by done. by rewrite IH.
Qed.

Lemma dict_pop_others {V} key (d : list (string * V)) :
  filter (λ item : string * V, item.1 ≠ key) (dict_pop key d)
  = filter (λ item : string * V, item.1 ≠ key) d.
Proof.
  induction d as [|[k x] d IH]; cbn [dict_pop]; [done|].
  destruct (String.eqb_spec k key) as [->|Hne].
  - rewrite filter_cons_False; [done|]. cbn. by intros ?.
  - rewrite !filter_cons_True by done. by rewrite IH.
Qed.

Lemma dict_set_elem {V} key (v : V) d k x :
  NoDup d.*1 →
  (k, x) ∈ dict_set key v d ↔ (k = key ∧ x = v) ∨ (k ≠ key ∧ (k, x) ∈ d).
Proof.
  induction d as [|[k0 x0] d IH]; cbn [dict_set fmap list_fmap].
  - intros _. rewrite list_elem_of_singleton. split.
    + intros [= -> ->]. by left.
    + intros [[-> ->]|[_ Hin]]; [done | by apply elem_of_nil in Hin].
  - cbn. intros [Hk0 Hnd]%NoDup_cons.
    destruct (String.eqb_spec k0 key) as [->|Hne].
    + rewrite !elem_of_cons. split.
      * intros [[= -> ->]|Hin]; [by left|]. right. split; [|by right].
        intros ->. apply Hk0. apply list_elem_of_fmap. by exists (key, x).
      * intros [[-> ->]|[Hne [[= ? ?]|Hin]]]; [by left | done | by right].
    + rewrite !elem_of_cons, (IH Hnd). split.
      * intros [[= -> ->]|[?|[? ?]]]; [|by left|].
        -- right. split; [done | by left].
        -- right. split; [done | by right].
      * intros [[-> ->]|[Hk [[= -> ->]|Hin]]].
        -- right. by left.
        -- by left.
        -- right. right. done.
Qed.

Lemma dict_set_keys {V} key (v : V) d k :
  k ∈ (dict_set key v d).*1 ↔ k = key ∨ k ∈ d.*1.
Proof.
  induction d as [|[k0 x0] d IH]; cbn [dict_set fmap list_fmap].
  - cbn. rewrite list_elem_of_singleton. split; [by left|].
    intros [?|Hin]; [done | by apply elem_of_nil in Hin].
  - destruct (String.eqb_spec k0 key) as [->|Hne]; cbn;
      rewrite !elem_of_cons.
    + tauto.
    + fold (@fmap list _ _ _ (@fst string V) (dict_set key v d)).
      rewrite IH. tauto.
Qed.

Lemma dict_set_NoDup {V} key (v : V) d :
  NoDup d.*1 → NoDup (dict_set key v d).*1.
Proof.
  induction d as [|[k0 x0] d IH]; cbn [dict_set fmap list_fmap].
  - intros _. cbn. apply NoDup_singleton.
  - cbn. intros [Hk0 Hnd]%NoDup_cons.
    destruct (String.eqb_spec k0 key) as [->|Hne]; cbn.
    + by apply NoDup_cons.
    + apply NoDup_cons. split; [|by apply IH].
      fold (@fmap list _ _ _ (@fst string V) (dict_set key v d)).
      rewrite dict_set_keys. intros [?|?]; done.
Qed.

Lemma dict_set_values {V} key (v : V) d y :
  y ∈ (dict_set key v d).*2 → y = v ∨ y ∈ d.*2.
Proof.
  intros ((k & x) & -> & Hin)%list_elem_of_fmap. cbn.
  revert Hin. induction d as [|[k0 x0] d IH]; cbn [dict_set].
  - intros [= -> ->]%list_elem_of_singleton. by left.
  - destruct (String.eqb_spec k0 key) as [->|Hne];
      intros [[= -> ->]|Hin]%elem_of_cons.
    + by left.
    + right. cbn. right. apply list_elem_of_fmap. by exists (k, x).
    + right. cbn. by left.
    + destruct (IH Hin) as [?|?]; [by left|]. right. cbn. by right.
Qed.

Lemma dict_set_exclusive key (v : Route) d :
  exclusive d →
  (∀ k x, (k, x) ∈ d → k ≠ key → x ≠ v) →
  exclusive (dict_set key v d).
Proof.
  intros [Hkeys Hvals] Hfresh. split; [by apply dict_set_NoDup|].
  induction d as [|[k0 x0] d IH]; cbn [dict_set fmap list_fmap].
  - cbn. apply NoDup_singleton.
  - cbn in Hkeys, Hvals.
    apply NoDup_cons in Hkeys as [Hk0 Hkeys].
    apply NoDup_cons in Hvals as [Hx0 Hvals].
    destruct (String.eqb_spec k0 key) as [->|Hne]; cbn.
    + apply NoDup_cons. split; [|done].
      intros ((k & x) & -> & Hin)%list_elem_of_fmap. cbn in *.
      apply (Hfresh k x); [by right | | done].
      intros ->. apply Hk0. apply list_elem_of_fmap. by exists (key, x).
    + apply NoDup_cons. split.
      * fold (@fmap list _ _ _ (@snd string Route) (dict_set key v d)).
        intros [->|Hin]%dict_set_values; [|done].
        by apply (Hfresh k0 v); [left | |].
      * apply IH; [done | done |].
        intros k x Hin. apply Hfresh. by right.
Qed.

Lemma dict_pop_set {V} key (v : V) d :
  key ∉ d.*1 → dict_pop key (dict_set key v d) = d.
Proof.
  induction d as [|[k0 x0] d IH]; cbn [dict_set dict_pop fmap list_fmap].
  - intros _. by rewrite String.eqb_refl.
  - cbn. intros [Hne Hd]%not_elem_of_cons.
    destruct (String.eqb_spec k0 key) as [->|_]; [done|].
    cbn [dict_pop]. destruct (String.eqb_spec k0 key) as [->|_]; [done|].
    by rewrite IH.
Qed.

Lemma dict_pop_elem {V} key (d : list (string * V)) k x :
  NoDup d.*1 → (k, x) ∈ dict_pop key d ↔ k ≠ key ∧ (k, x) ∈ d.
Proof.
  induction d as [|[k0 x0] d IH]; cbn [dict_pop fmap list_fmap].
  - intros _. split; [intros Hin | intros [_ Hin]]; by apply elem_of_nil in Hin.
  - cbn. intros [Hk0 Hnd]%NoDup_cons.
    destruct (String.eqb_spec k0 key) as [->|Hne].
    + rewrite elem_of_cons. split.
      * intros Hin. split; [|by right]. intros ->. apply Hk0.
        apply list_elem_of_fmap. by exists (key, x).
      * intros [Hne [[= ? ?]|Hin]]; done.
    + rewrite !elem_of_cons, (IH Hnd). split.
      * intros [[= -> ->]|[? ?]]; (split; [done|]); [by left | by right].
      * intros [Hk [[= -> ->]|Hin]]; [by left | by right].
Qed.

Lemma with_claims_same sys_state :
  with_claims sys_state (claimed_routes sys_state) = sys_state.
Proof. by destruct sys_state. Qed.

Lemma get_excluded_routes_elem systems system ship r :
  r ∈ get_excluded_routes systems system ship
  ↔ ∃ sys_state other,
      systems !! system = Some sys_state ∧ other ≠ ship
      ∧ (other, r) ∈ claimed_routes sys_state.
Proof.
  unfold get_excluded_routes.
  destruct (systems !! system) as [sys_state|].
  - rewrite list_elem_of_fmap. split.
    + intros ([other r'] & -> & [Hne Hin]%list_elem_of_filter).
      by exists sys_state, other.
    + intros (? & other & [= <-] & Hne & Hin). exists (other, r).
      split; [done|]. by apply list_elem_of_filter.
  - split; [intros Hin; by apply elem_of_nil in Hin|].
    by intros (? & ? & ? & _).
Qed.

(** A ship never sees its own claim among the excluded routes, and every
    other ship of a loaded system sees it; the claims of other systems
    are untouched; releasing a first claim restores the state, and after
    a release no ship sees a claim of the released ship; for a system
    that is not loaded nothing is recorded and nothing is excluded; and
    [ensure_system] stores the state it returns without adding or
    dropping a claim. *)
Theorem claims_are_seen_by_the_other_ships
    systems system ship good source destination :
  let claimed := claim_route systems system ship good source destination in
  let released := release_route systems system ship in
  get_excluded_routes claimed system ship
  = get_excluded_routes systems system ship
  ∧ get_excluded_routes released system ship
    = get_excluded_routes systems system ship
  ∧ (∀ other, other ≠ ship → is_Some (systems !! system) →
       (good, source, destination) ∈ get_excluded_routes claimed system other)
  ∧ (∀ system' other, system' ≠ system →
       get_excluded_routes claimed system' other
       = get_excluded_routes systems system' other
       ∧ get_excluded_routes released system' other
         = get_excluded_routes systems system' other)
  ∧ (∀ sys_state, systems !! system = Some sys_state →
       ship ∉ (claimed_routes sys_state).*1 →
       release_route claimed system ship = systems)
  ∧ (∀ sys_state, systems !! system = Some sys_state →
       NoDup (claimed_routes sys_state).*1 →
       ∀ other r,
         r ∈ get_excluded_routes released system other
         ↔ ∃ ship', ship' ≠ other ∧ ship' ≠ ship
                    ∧ (ship', r) ∈ claimed_routes sys_state)
  ∧ (systems !! system = None →
       claimed = systems ∧ released = systems
       ∧ ∀ other, get_excluded_routes systems system other = [])
  ∧ (∀ system' waypoints other,
       let loaded := ensure_system systems system' waypoints in
       get_system loaded.1 system' = Some loaded.2
       ∧ get_excluded_routes loaded.1 system other
         = get_excluded_routes systems system other).
Proof.
  assert (Hload : ∀ system' waypoints other,
    let loaded := ensure_system systems system' waypoints in
    get_system loaded.1 system' = Some loaded.2
    ∧ get_excluded_routes loaded.1 system other
      = get_excluded_routes systems system other).
  { intros system' waypoints other. cbn zeta.
    unfold ensure_system, get_system.
    destruct (systems !! system') as [s'|] eqn:Hs'; cbn [fst snd];
      [done|].
    split; [by rewrite lookup_insert_eq|].
    unfold get_excluded_routes.
    destruct (decide (system' = system)) as [->|Hne].
    - by rewrite lookup_insert_eq, Hs'.
    - by rewrite lookup_insert_ne. }
  cbn zeta. unfold claim_route, release_route.
  destruct (systems !! system) as [sys_state|] eqn:Hsys.
  - split; [|split; [|split; [|split; [|split; [|split; [|split]]]]]];
      [| | | | | | |exact Hload].
    + unfold get_excluded_routes. rewrite lookup_insert_eq, Hsys. cbn.
      by rewrite dict_set_others.
    + unfold get_excluded_routes. rewrite lookup_insert_eq, Hsys. cbn.
      by rewrite dict_pop_others.
    + intros other Hne _. apply get_excluded_routes_elem.
      eexists _, ship. rewrite lookup_insert_eq. split; [done|].
      split; [done|]. cbn.
      clear. induction (claimed_routes sys_state) as [|[k x] d IH];
        cbn [dict_set]; [by left|].
      destruct (String.eqb_spec k ship) as [->|_]; [by left | by right].
    + intros system' other Hne. unfold get_excluded_routes.
      by rewrite !lookup_insert_ne.
    + intros s [= <-] Hfresh. rewrite lookup_insert_eq, insert_insert_eq.
      cbn. rewrite dict_pop_set by done. unfold with_claims at 1. cbn.
      fold (with_claims sys_state (claimed_routes sys_state)).
      rewrite with_claims_same. by apply insert_id.
    + intros s [= <-] Hnd other r. rewrite get_excluded_routes_elem.
      rewrite lookup_insert_eq. split.
      * intros (s' & ship' & [= <-] & Hne & Hin). cbn in Hin.
        apply dict_pop_elem in Hin as [? ?]; [|done]. by exists ship'.
      * intros (ship' & Hne & Hne' & Hin). eexists _, ship'.
        split; [done|]. split; [done|]. cbn. by apply dict_pop_elem.
    + done.
  - split; [done|]. split; [done|]. split; [by intros ? ? [? [=]]|].
    split; [done|]. split; [done|]. split; [done|].
    split; [|exact Hload].
    intros _. split; [done|]. split; [done|].
    intros other. unfold get_excluded_routes. by rewrite Hsys.
Qed.

(** The claims stay exclusive:  when no two ships of a system claim the
    same route and a ship claims the first of the routes found with the
    other ships' claims (and any failed routes) excluded, as the trade
    mission does, then still no two ships claim the same route; the ship
    holds the new claim in place of its old one, the other ships keep
    theirs, none of which is the new route, and the new route is none of
    the failed ones. *)
Theorem claimed_routes_stay_exclusive
    coords ship_location cargo_capacity fuel_capacity credits speed
    fuel_waypoints prices_by_wp
    systems system sys_state ship failed_routes best rest :
  systems !! system = Some sys_state →
  exclusive (claimed_routes sys_state) →
  Trader.find_best_routes coords ship_location cargo_capacity fuel_capacity
    (get_excluded_routes systems system ship ++ failed_routes)
    credits speed fuel_waypoints prices_by_wp = Some (best :: rest) →
  ∃ sys_state',
    claim_route systems system ship (Trader.route_good best)
      (Trader.route_source best) (Trader.route_destination best) !! system
    = Some sys_state'
    ∧ exclusive (claimed_routes sys_state')
    ∧ (∀ r, (ship, r) ∈ claimed_routes sys_state' ↔ r = route_of best)
    ∧ (∀ other r, other ≠ ship →
         (other, r) ∈ claimed_routes sys_state'
         ↔ (other, r) ∈ claimed_routes sys_state)
    ∧ (∀ other r, other ≠ ship →
         (other, r) ∈ claimed_routes sys_state → r ≠ route_of best)
    ∧ (route_of best ∉ failed_routes).
Proof.
  intros Hsys Hex Hfind.
  assert (Hnot : route_of best
                 ∉ get_excluded_routes systems system ship ++ failed_routes).
  { eapply find_best_routes_not_excluded; [exact Hfind | left]. }
  apply not_elem_of_app in Hnot as [Hothers Hfailed].
  assert (Hfresh : ∀ k x, (k, x) ∈ claimed_routes sys_state → k ≠ ship →
                          x ≠ route_of best).
  { intros k x Hin Hne ->. apply Hothers.
    apply get_excluded_routes_elem. by exists sys_state, k. }
  unfold claim_route. rewrite Hsys, lookup_insert_eq.
  eexists. split; [done|]. cbn [claimed_routes with_claims].
  fold (route_of best).
  split; [by apply dict_set_exclusive|].
  destruct Hex as [Hkeys _].
  split.
  { intros r. rewrite (dict_set_elem _ _ _ _ _ Hkeys). split.
    - intros [[_ ->]|[? _]]; done.
    - intros ->. by left. }
  split.
  { intros other r Hne. rewrite (dict_set_elem _ _ _ _ _ Hkeys). split.
    - intros [[? _]|[_ ?]]; done.
    - intros Hin. by right. }
  split; [|done].
  intros other r Hne Hin. by apply (Hfresh other).
Qed.

End ClaimFacts.

(* ===================================================================== *)
(** ** The mission kinds *)
(* ===================================================================== *)

Section MissionFacts.
Import Missions.

(** The value of a mission kind reads back as that kind, and a string
    reads as a mission kind only if it is its value. *)
Theorem mission_value_round_trip :
  (∀ m, of_value (value m) = Some m)
  ∧ (∀ s m, of_value s = Some m → s = value m).
Proof.
  split; [by intros []|].
  intros s m. unfold of_value.
  repeat match goal with
         | |- context [String.eqb s ?x] =>
             destruct (String.eqb_spec s x) as [->|?]; [by intros [= <-]|]
         end.
  done.
Qed.

End MissionFacts.

(* ===================================================================== *)
(** ** The theorems at concrete inputs *)
(* ===================================================================== *)

Section Instances.
Import Missions Strategy StrategySpec Commander CommanderSpec Client ClientSpec.
Import Contractor ContractorSpec Router RouterSpec Trader TraderSpec PyFloatSpec.
Local Open Scope Z_scope.

Lemma evaluate_decision_order_witness :
  NoDup (Strategy.symbol <$> example_fleet)
  ∧ idle_threshold default_capital ≤ 250000
  ∧ ∃ sorted,
      sorted ≡ₚ List.filter (is_cargo ∅ ∅) example_fleet
      ∧ StronglySorted by_capacity_desc sorted
      ∧ ∀ i s, sorted !! i = Some s →
          assignments (evaluate default_capital 250000 example_fleet ∅
                         false true false true ∅ None) !! Strategy.symbol s
          = Some (expected default_capital 250000 false true false true
                    (length sorted) i).
Proof.
  assert (Hnd : NoDup (Strategy.symbol <$> example_fleet)).
  { apply (bool_decide_unpack _). vm_compute. exact I. }
  split; [exact Hnd|]. split; [vm_compute; discriminate|].
  apply (evaluate_decision_order default_capital 250000 example_fleet ∅
           false true false true ∅ None Hnd).
  vm_compute. discriminate.
Defined.

Lemma invalid_override_degrades_to_idle_witness :
  (∃ s, s ∈ example_fleet ∧ Strategy.symbol s = "S-1")
  ∧ default ∅ (Some ({[ "S-1" := "mine" ]} : gmap string string)) !! "S-1"
    = Some "mine"
  ∧ of_value "mine" = None
  ∧ assignments (evaluate default_capital 250000 example_fleet ∅
                   false true false true ∅
                   (Some {[ "S-1" := "mine" ]})) !! "S-1"
    = Some (assignment IDLE).
Proof.
  assert (Hin : {| Strategy.symbol := "S-1"; cargo := 80; fuel := 400;
                   category := "ship"; current_mission := IDLE |}
                ∈ example_fleet) by (apply list_elem_of_here).
  split; [eexists; split; [exact Hin | reflexivity]|].
  split; [reflexivity|]. split; [reflexivity|].
  exact (invalid_override_degrades_to_idle default_capital 250000
           example_fleet ∅ false true false true ∅
           (Some {[ "S-1" := "mine" ]}) _ "mine" Hin eq_refl eq_refl).
Defined.

Lemma crash_backoff_then_park_witness :
  agents fresh_world !! "SHIP-1" = Some fresh_agent
  ∧ Commander.restart_count fresh_agent = 0
  ∧ launchable (λ _, true) fresh_agent = true
  ∧ shutdown fresh_world = false
  ∧ ∃ w', crashes (λ _, true) 6 fresh_world "SHIP-1" = Some w'
          ∧ slept w' = slept fresh_world ++ RESTART_BACKOFF
          ∧ Commander.mission <$> agents w' !! "SHIP-1" = Some IDLE
          ∧ active_tasks w' !! "SHIP-1" = None.
Proof.
  split; [reflexivity|]. split; [reflexivity|]. split; [reflexivity|].
  split; [reflexivity|].
  exact (proj2 (proj2 (proj2 (crash_backoff_then_park (λ _, true) fresh_world
                                "SHIP-1" fresh_agent eq_refl))
                  eq_refl eq_refl eq_refl)).
Defined.

Lemma rate_limited_request_retries_witness :
  status_code limited ≠ 204
  ∧ error (body limited) = Some (ErrObject (Some 429) (Some "slow down") None)
  ∧ status_code limited = 429
  ∧ 0 ≤ 0 < MAX_RETRIES
  ∧ decimal "7" = Some 7
  ∧ request decimal [Answer limited; Answer plain] 0 idle_client
    = request decimal [Answer plain] (0 + 1) (sleep 7 (enter idle_client)).
Proof.
  assert (H204 : status_code limited ≠ 204) by (vm_compute; discriminate).
  assert (Hretry : 0 ≤ 0 < MAX_RETRIES) by (unfold MAX_RETRIES; lia).
  split; [exact H204|]. split; [reflexivity|]. split; [reflexivity|].
  split; [exact Hretry|]. split; [reflexivity|].
  apply (proj1 (rate_limited_request_retries decimal limited
                  (ErrObject (Some 429) (Some "slow down") None)
                  [Answer plain] 0 idle_client H204 eq_refl
                  (or_intror eq_refl) Hretry) "7" 7 eq_refl).
  - discriminate.
  - reflexivity.
Defined.

Lemma fuel_cost_by_mode_witness :
  PyFloat.ceil (exact 40) = Some 40
  ∧ fuel_cost (exact 40) "CRUISE" = Some (Z.max 1 40)
  ∧ fuel_cost (exact 40) "DRIFT" = Some 1
  ∧ fuel_cost (exact 40) "BURN" = Some (2 * Z.max 1 40)
  ∧ (PyFloat.ltb (S754_zero false) (exact 40) = true → Z.max 1 40 = 40).
Proof.
  split; [reflexivity|]. exact (fuel_cost_by_mode (exact 40) 40 eq_refl).
Defined.

Lemma unknown_waypoint_is_infeasible_witness :
  "A" ≠ "Z"
  ∧ (example_coords !! "A" = None ∨ example_coords !! "Z" = None)
  ∧ plan_multihop example_coords ["B"] "Z" 50 30 "CRUISE" "A"
    = Some {| segments := []; total_fuel := 0; total_seconds := 0;
              feasible := false;
              reason := "Unknown coordinates for " +:+ "A" +:+ " or "
                        +:+ "Z" |}.
Proof.
  assert (Hne : "A" ≠ "Z") by discriminate.
  assert (Hmiss : example_coords !! "A" = None ∨ example_coords !! "Z" = None)
    by (right; reflexivity).
  split; [exact Hne|]. split; [exact Hmiss|].
  exact (unknown_waypoint_is_infeasible example_coords ["B"] "A" "Z" 50 30
           "CRUISE" Hne Hmiss).
Defined.

Lemma unpriced_delivery_is_unprofitable_witness :
  example_delivery ∈ deliver (terms example_contract)
  ∧ 0 < units_required example_delivery - units_fulfilled example_delivery
  ∧ empty_store (trade_symbol example_delivery) "X1" = None
  ∧ ∃ why, evaluate_profitability empty_store example_contract "X1"
           = (false, 0, why).
Proof.
  assert (Hin : example_delivery ∈ deliver (terms example_contract))
    by (apply list_elem_of_here).
  assert (Hrem : 0 < units_required example_delivery
                     - units_fulfilled example_delivery) by reflexivity.
  split; [exact Hin|]. split; [exact Hrem|]. split; [reflexivity|].
  exact (unpriced_delivery_is_unprofitable empty_store example_contract "X1"
           example_delivery Hin Hrem eq_refl).
Defined.

Lemma safe_sell_volume_formula_witness :
  0 ≤ 6
  ∧ 6 * multiplier "LIMITED" (Some "WEAK") < 2 ^ 53
  ∧ safe_sell_volume "LIMITED" (Some "WEAK") 6 40
    = Some (Z.min (6 * multiplier "LIMITED" (Some "WEAK")) 40).
Proof.
  assert (H0 : 0 ≤ 6) by discriminate.
  assert (Hm : 6 * multiplier "LIMITED" (Some "WEAK") < 2 ^ 53) by reflexivity.
  split; [exact H0|]. split; [exact Hm|].
  exact (proj1 safe_sell_volume_formula "LIMITED" (Some "WEAK") 6 40 H0 Hm).
Defined.

Lemma plan_multihop_greedy_witness :
  "A" ≠ "C"
  ∧ is_Some (plan_multihop example_coords ["B"] "C" 50 30 "CRUISE" "A")
  ∧ ∀ plan,
      plan_multihop example_coords ["B"] "C" 50 30 "CRUISE" "A" = Some plan →
      if feasible plan then
        ∃ stops visited last,
          greedy_hops example_coords ["B"] "C" 50 "CRUISE" {["A"]} "A"
            stops visited last
          ∧ in_reach example_coords "C" 50 "CRUISE" last
          ∧ Forall2 (leg example_coords 30 "CRUISE") (segments plan)
              (route_legs "C" "A" stops)
          ∧ total_fuel plan = sum_fuel (segments plan)
          ∧ total_seconds plan
            = sum_seconds (segments plan)
              + Z.of_nat (length stops) * REFUEL_STOP_OVERHEAD
          ∧ (length (segments plan) ≤ S (length ["B"]))%nat
      else
        segments plan = [] ∧ total_fuel plan = 0 ∧ total_seconds plan = 0
        ∧ reason plan ≠ ""
        ∧ (example_coords !! "A" = None ∨ example_coords !! "C" = None
           ∨ ∃ stops visited last,
               greedy_hops example_coords ["B"] "C" 50 "CRUISE" {["A"]} "A"
                 stops visited last
               ∧ out_of_reach example_coords "C" 50 "CRUISE" last
               ∧ ∀ w, w ∈ ["B"] →
                      ¬ candidate example_coords "C" 50 "CRUISE" visited
                          last w).
Proof.
  assert (Hne : "A" ≠ "C") by discriminate.
  split; [exact Hne|]. split; [vm_compute; eexists; reflexivity|].
  intros plan.
  exact (proj1 (proj2 (proj2 (plan_multihop_greedy example_coords ["B"] "C"
                                50 30 "CRUISE" "A"))) plan Hne).
Defined.

End Instances.

(* ===================================================================== *)
(** ** Further scenarios *)
(* ===================================================================== *)

Section Scenarios.
Import Missions Strategy StrategySpec Commander CommanderSpec Client ClientSpec.
Import Contractor ContractorSpec Router RouterSpec PyFloatSpec.
Local Open Scope Z_scope.

Lemma skipped_ship_is_idle_witness :
  {| Strategy.symbol := "S-1"; cargo := 80; fuel := 400;
     category := "ship"; current_mission := IDLE |} ∈ example_fleet
  ∧ "S-1" ∈ ({[ "S-1" ]} : gset string)
  ∧ assignments (evaluate default_capital 250000 example_fleet ∅
                   false true false true {[ "S-1" ]}
                   (Some {[ "S-1" := "trade" ]})) !! "S-1"
    = Some (assignment IDLE).
Proof.
  assert (Hin : {| Strategy.symbol := "S-1"; cargo := 80; fuel := 400;
                   category := "ship"; current_mission := IDLE |}
                ∈ example_fleet) by (apply list_elem_of_here).
  assert (Hskip : "S-1" ∈ ({[ "S-1" ]} : gset string))
    by (apply (bool_decide_unpack _); vm_compute; exact I).
  split; [exact Hin|]. split; [exact Hskip|].
  exact (skipped_ship_is_idle default_capital 250000 example_fleet ∅
           false true false true {[ "S-1" ]} (Some {[ "S-1" := "trade" ]})
           _ Hin Hskip).
Defined.

Lemma valid_override_is_honoured_witness :
  {| Strategy.symbol := "S-2"; cargo := 40; fuel := 400;
     category := "ship"; current_mission := IDLE |} ∈ example_fleet
  ∧ ("S-2" ∉ (∅ : gset string))
  ∧ of_value "gate_build" = Some GATE_BUILD
  ∧ assignments (evaluate default_capital 0 example_fleet ∅
                   false false false false ∅
                   (Some {[ "S-2" := "gate_build" ]})) !! "S-2"
    = Some {| Strategy.mission := GATE_BUILD; kwargs := ∅ |}.
Proof.
  assert (Hin : {| Strategy.symbol := "S-2"; cargo := 40; fuel := 400;
                   category := "ship"; current_mission := IDLE |}
                ∈ example_fleet)
    by (apply list_elem_of_further, list_elem_of_here).
  assert (Hskip : "S-2" ∉ (∅ : gset string)) by (apply not_elem_of_empty).
  split; [exact Hin|]. split; [exact Hskip|]. split; [reflexivity|].
  exact (valid_override_is_honoured default_capital 0 example_fleet ∅
           false false false false ∅ (Some {[ "S-2" := "gate_build" ]})
           _ "gate_build" GATE_BUILD Hin Hskip eq_refl eq_refl).
Defined.

Lemma gate_and_contract_head_counts_witness :
  NoDup (Strategy.symbol <$> example_fleet)
  ∧ (length
       (List.filter
          (λ s, bool_decide
                  (Strategy.mission
                   <$> assignments
                         (evaluate default_capital 350000 example_fleet ∅
                            true true true true ∅ None) !! Strategy.symbol s
                   = Some CONTRACT))
          (List.filter (is_cargo ∅ (default ∅ None)) example_fleet))
     ≤ 2)%nat.
Proof.
  assert (Hnd : NoDup (Strategy.symbol <$> example_fleet)).
  { apply (bool_decide_unpack _). vm_compute. exact I. }
  split; [exact Hnd|].
  exact (proj2 (gate_and_contract_head_counts default_capital 350000
                  example_fleet ∅ true true true true ∅ None Hnd)).
Defined.

Lemma capital_floors_are_respected_witness :
  NoDup (Strategy.symbol <$> example_fleet)
  ∧ {| Strategy.symbol := "S-1"; cargo := 80; fuel := 400;
       category := "ship"; current_mission := IDLE |} ∈ example_fleet
  ∧ assignments (evaluate default_capital 350000 example_fleet ∅
                   false false true true ∅ None) !! "S-1"
    = Some (gate_assignment default_capital)
  ∧ (GATE_BUILD = GATE_BUILD →
     true = true ∧ gate_floor default_capital ≤ 350000
     ∧ idle_threshold default_capital ≤ 350000).
Proof.
  assert (Hnd : NoDup (Strategy.symbol <$> example_fleet)).
  { apply (bool_decide_unpack _). vm_compute. exact I. }
  assert (Hin : {| Strategy.symbol := "S-1"; cargo := 80; fuel := 400;
                   category := "ship"; current_mission := IDLE |}
                ∈ example_fleet) by (apply list_elem_of_here).
  assert (Hplan :
    assignments (evaluate default_capital 350000 example_fleet ∅
                   false false true true ∅ None) !! "S-1"
    = Some (gate_assignment default_capital)) by (vm_compute; reflexivity).
  split; [exact Hnd|]. split; [exact Hin|]. split; [exact Hplan|].
  exact (proj1 (capital_floors_are_respected default_capital 350000
                  example_fleet ∅ false false true true ∅ None _
                  (gate_assignment default_capital) Hnd Hin eq_refl Hplan)).
Defined.

Lemma restart_count_stays_within_budget_witness :
  within_budget worn_world
  ∧ within_budget (handle_completion worn_world "SHIP-1").
Proof.
  assert (Hw : within_budget worn_world).
  { intros s a Ha.
    destruct (decide (s = "SHIP-1")) as [->|Hne].
    - vm_compute in Ha. injection Ha as <-. vm_compute.
      split; discriminate.
    - unfold worn_world in Ha. cbn [agents] in Ha.
      rewrite lookup_singleton_ne in Ha by done. discriminate. }
  split; [exact Hw|].
  exact (proj1 (proj2 (restart_count_stays_within_budget (λ _, true)
                         (λ _, false) worn_world Hw)) "SHIP-1").
Defined.

Lemma reassignment_resets_restart_count_witness :
  NoDup ["SHIP-1"] ∧ "SHIP-1" ∈ ["SHIP-1"]
  ∧ agents worn_world !! "SHIP-1" = Some worn_agent
  ∧ Strategy.assignments
      {| assignments := {[ "SHIP-1" := assignment CONTRACT ]} |} !! "SHIP-1"
    = Some (assignment CONTRACT)
  ∧ Strategy.mission (assignment CONTRACT) ≠ Commander.mission worn_agent
  ∧ ∃ agent',
      agents (maybe_reassign (λ _, true) (λ _, false)
                {| assignments := {[ "SHIP-1" := assignment CONTRACT ]} |}
                ["SHIP-1"] worn_world []).1 !! "SHIP-1" = Some agent'
      ∧ Commander.mission agent' = CONTRACT
      ∧ Commander.restart_count agent' = 0.
Proof.
  assert (Hnd : NoDup ["SHIP-1"])
    by (apply (bool_decide_unpack _); vm_compute; exact I).
  assert (Hin : "SHIP-1" ∈ ["SHIP-1"]) by (apply list_elem_of_here).
  assert (Hne : Strategy.mission (assignment CONTRACT)
                ≠ Commander.mission worn_agent) by discriminate.
  assert (Ha0 : agents worn_world !! "SHIP-1" = Some worn_agent)
    by reflexivity.
  assert (Hp0 : Strategy.assignments
                  {| assignments := {[ "SHIP-1" := assignment CONTRACT ]} |}
                  !! "SHIP-1" = Some (assignment CONTRACT)) by reflexivity.
  split; [exact Hnd|]. split; [exact Hin|]. split; [exact Ha0|].
  split; [exact Hp0|]. split; [exact Hne|].
  destruct (reassignment_resets_restart_count (λ _, true) (λ _, false)
              {| assignments := {[ "SHIP-1" := assignment CONTRACT ]} |}
              ["SHIP-1"] worn_world [] "SHIP-1" worn_agent
              (assignment CONTRACT) Hnd Hin Ha0 Hp0 Hne)
    as (agent' & Ha & Hm & _ & Hrc & _).
  exists agent'. split; [exact Ha|]. split; [exact Hm | exact Hrc].
Defined.

Lemma apply_plan_launches_the_plan_witness :
  NoDup [("SHIP-1", "X1")].*1 ∧ ("SHIP-1", "X1") ∈ [("SHIP-1", "X1")]
  ∧ Strategy.assignments trade_plan !! "SHIP-1" = Some (assignment TRADE)
  ∧ ∃ agent',
      agents (apply_plan (λ _, true) [("SHIP-1", "X1")] trade_plan
                fresh_world) !! "SHIP-1" = Some agent'
      ∧ Commander.mission agent' = TRADE
      ∧ Commander.restart_count agent' = 0.
Proof.
  assert (Hnd : NoDup [("SHIP-1", "X1")].*1)
    by (apply (bool_decide_unpack _); vm_compute; exact I).
  assert (Hin : ("SHIP-1", "X1") ∈ [("SHIP-1", "X1")])
    by (apply list_elem_of_here).
  assert (Hp0 : Strategy.assignments trade_plan !! "SHIP-1"
                = Some (assignment TRADE)) by reflexivity.
  split; [exact Hnd|]. split; [exact Hin|]. split; [exact Hp0|].
  destruct (apply_plan_launches_the_plan (λ _, true) [("SHIP-1", "X1")]
              trade_plan fresh_world "SHIP-1" "X1" (assignment TRADE)
              Hnd Hin Hp0)
    as (agent' & Ha & Hm & _ & _ & Hrc & _).
  exists agent'. split; [exact Ha|]. split; [exact Hm | exact Hrc].
Defined.

Lemma parked_ship_is_revived_witness :
  agents worn_world !! "SHIP-1" = Some worn_agent
  ∧ MAX_RESTARTS ≤ Commander.restart_count worn_agent
  ∧ shutdown worn_world = false
  ∧ NoDup ["SHIP-1"] ∧ "SHIP-1" ∈ ["SHIP-1"]
  ∧ Strategy.assignments trade_plan !! "SHIP-1" = Some (assignment TRADE)
  ∧ Strategy.mission (assignment TRADE) ≠ IDLE
  ∧ ∃ w1 agent',
      handle_crash (λ _, true) worn_world "SHIP-1" false = Some w1
      ∧ Commander.mission <$> agents w1 !! "SHIP-1" = Some IDLE
      ∧ agents (maybe_reassign (λ _, true) (λ _, false) trade_plan
                  ["SHIP-1"] w1 []).1 !! "SHIP-1" = Some agent'
      ∧ Commander.mission agent' = TRADE
      ∧ Commander.restart_count agent' = 0.
Proof.
  assert (Hmax : MAX_RESTARTS ≤ Commander.restart_count worn_agent)
    by discriminate.
  assert (Hnd : NoDup ["SHIP-1"])
    by (apply (bool_decide_unpack _); vm_compute; exact I).
  assert (Hin : "SHIP-1" ∈ ["SHIP-1"]) by (apply list_elem_of_here).
  assert (Hidle : Strategy.mission (assignment TRADE) ≠ IDLE)
    by discriminate.
  assert (Ha0 : agents worn_world !! "SHIP-1" = Some worn_agent)
    by reflexivity.
  assert (Hp0 : Strategy.assignments trade_plan !! "SHIP-1"
                = Some (assignment TRADE)) by reflexivity.
  split; [exact Ha0|]. split; [exact Hmax|]. split; [reflexivity|].
  split; [exact Hnd|]. split; [exact Hin|]. split; [exact Hp0|].
  split; [exact Hidle|].
  destruct (parked_ship_is_revived (λ _, true) (λ _, false) worn_world
              "SHIP-1" worn_agent false trade_plan ["SHIP-1"] []
              (assignment TRADE) Ha0 Hmax eq_refl Hnd Hin Hp0 Hidle
              eq_refl)
    as (w1 & agent' & Hw1 & Hm1 & _ & Ha & Hm & Hrc & _).
  exists w1, agent'. split; [exact Hw1|]. split; [exact Hm1|].
  split; [exact Ha|]. split; [exact Hm | exact Hrc].
Defined.

Lemma request_attempts_are_bounded_witness :
  request decimal [Answer limited; Answer plain] 0 idle_client
  = Some (Return (Some (body plain)),
          {| consecutive_failures := 0; sleeps := [7]; acquired := 2 |})
  ∧ (1 ≤ 2 - 0 ≤ Z.to_nat (Z.max 1 (MAX_RETRIES + 1 - 0)))%nat.
Proof.
  assert (Hr : request decimal [Answer limited; Answer plain] 0 idle_client
               = Some (Return (Some (body plain)),
                       {| consecutive_failures := 0; sleeps := [7];
                          acquired := 2 |})) by reflexivity.
  split; [exact Hr|].
  exact (request_attempts_are_bounded decimal _ 0 idle_client _ _ Hr).
Defined.


Lemma api_error_is_raised_at_once_witness :
  status_code not_found ≠ 204
  ∧ error (body not_found)
    = Some (ErrObject (Some 4000) (Some "no such ship") None)
  ∧ (4000 ≠ 429 ∧ status_code not_found ≠ 429 ∧ 4000 ≠ 3000
     ∧ status_code not_found < 500)
  ∧ ∃ st',
      request_shared decimal [(busy, Answer not_found); alone (Answer plain)]
        0 {| consecutive_failures := 9; sleeps := []; acquired := 0 |}
      = Some (RaiseApiError "no such ship" 4000 None, st')
      ∧ acquired st' = 1%nat
      ∧ (CIRCUIT_BREAKER_THRESHOLD ≤ during_acquire busy 9 →
         sleeps st' = [] ++ [CIRCUIT_BREAKER_PAUSE]
         ∧ consecutive_failures st' = during_http busy 0).
Proof.
  assert (H204 : status_code not_found ≠ 204) by discriminate.
  assert (Hcode : 4000 ≠ 429 ∧ status_code not_found ≠ 429 ∧ 4000 ≠ 3000
                  ∧ status_code not_found < 500)
    by (repeat split; (discriminate || reflexivity)).
  split; [exact H204|]. split; [reflexivity|]. split; [exact Hcode|].
  destruct (api_error_is_raised_at_once decimal busy not_found
              (ErrObject (Some 4000) (Some "no such ship") None)
              [alone (Answer plain)] 0
              {| consecutive_failures := 9; sleeps := []; acquired := 0 |}
              H204 eq_refl (or_intror Hcode))
    as (st' & Hr & Hacq & _ & Htrip).
  exists st'. split; [exact Hr|]. split; [exact Hacq | exact Htrip].
Defined.

Lemma transport_errors_exhaust_retries_witness :
  consecutive_failures idle_client + 5 < CIRCUIT_BREAKER_THRESHOLD
  ∧ request decimal (replicate 6 TransportError ++ [Answer plain]) 0
      idle_client
    = Some (RaiseTransportError,
            {| consecutive_failures := consecutive_failures idle_client + 6;
               sleeps := sleeps idle_client ++ BACKOFF_SCHEDULE;
               acquired := 6 + acquired idle_client |}).
Proof.
  assert (Hcf : consecutive_failures idle_client + 5
                < CIRCUIT_BREAKER_THRESHOLD) by reflexivity.
  split; [exact Hcf|].
  exact (transport_errors_exhaust_retries decimal [Answer plain] idle_client
           Hcf).
Defined.

Lemma get_paginated_collects_every_item_witness :
  1 ≤ 2
  ∧ ∃ last,
      1 ≤ last
      ∧ Z.of_nat (length ["a"; "b"; "c"; "d"; "e"]) ≤ last * 2
      ∧ (last = 1
         ∨ (last - 1) * 2 < Z.of_nat (length ["a"; "b"; "c"; "d"; "e"]))
      ∧ ∀ fuel,
          get_paginated (serve ["a"; "b"; "c"; "d"; "e"]) fuel 2
          = if (Z.to_nat last <=? fuel)%nat
            then inr (Some (["a"; "b"; "c"; "d"; "e"],
                            {| meta_total :=
                                 Z.of_nat (length ["a"; "b"; "c"; "d"; "e"]);
                               meta_page := last; meta_limit := 2 |}))
            else inl tt.
Proof.
  assert (Hlimit : 1 ≤ 2) by discriminate.
  split; [exact Hlimit|].
  exact (get_paginated_collects_every_item
           (["a"; "b"; "c"; "d"; "e"] : list string) 2 Hlimit).
Defined.

Lemma multihop_legs_fit_one_tank_witness :
  "A" ≠ "C"
  ∧ ∃ plan,
      plan_multihop example_coords ["B"] "C" 50 30 "CRUISE" "A" = Some plan
      ∧ feasible plan = true
      ∧ ∃ stops,
          seg_origin <$> segments plan = "A" :: stops
          ∧ seg_destination <$> segments plan = stops ++ ["C"]
          ∧ Forall (λ seg, seg_fuel_cost seg ≤ 50
                           ∧ seg_flight_mode seg = "CRUISE")
              (segments plan)
          ∧ num_stops plan = Z.of_nat (length stops).
Proof.
  assert (Hne : "A" ≠ "C") by discriminate.
  split; [exact Hne|].
  destruct (plan_multihop example_coords ["B"] "C" 50 30 "CRUISE" "A")
    as [plan|] eqn:Hplan; [|vm_compute in Hplan; discriminate].
  assert (Hfeas : feasible plan = true).
  { vm_compute in Hplan. injection Hplan as <-. reflexivity. }
  exists plan. split; [reflexivity|]. split; [exact Hfeas|].
  destruct (multihop_legs_fit_one_tank example_coords ["B"] "C" 50 30
              "CRUISE" "A" plan Hne Hplan Hfeas)
    as (stops & H1 & H2 & H3 & _ & _ & H4 & _).
  exists stops. split; [exact H1|]. split; [exact H2|].
  split; [exact H3 | exact H4].
Defined.

Lemma fuel_estimates_agree_witness :
  "A" ≠ "B"
  ∧ example_coords !! "A" = Some (0, 0)
  ∧ example_coords !! "B" = Some (40, 0)
  ∧ (0 ≠ 40 ∨ 0 ≠ 0)
  ∧ ∃ d c,
      distance 0 0 40 0 = Some d
      ∧ fuel_cost d "CRUISE" = Some c ∧ 1 ≤ c
      ∧ Trader.estimate_fuel_one_way example_coords "A" "B" = Some c
      ∧ Contractor._fuel_needed example_coords "A" "B" = Some c
      ∧ Trader.estimate_fuel_round_trip example_coords "A" "B"
        = Some (c * 2).
Proof.
  assert (Hne : "A" ≠ "B") by discriminate.
  assert (Hxy : 0 ≠ 40 ∨ 0 ≠ 0) by (left; discriminate).
  assert (Ha : example_coords !! "A" = Some (0, 0)) by reflexivity.
  assert (Hb : example_coords !! "B" = Some (40, 0)) by reflexivity.
  split; [exact Hne|]. split; [exact Ha|]. split; [exact Hb|].
  split; [exact Hxy|].
  apply (fuel_estimates_agree example_coords "A" "B" 0 0 40 0 Hne
           Ha Hb); try exact Hxy; split; discriminate.
Defined.

Lemma best_flight_mode_is_affordable_witness :
  usable_fuel example_ship = Some 80
  ∧ best_flight_mode example_ship (exact 40) = Some "CRUISE"
  ∧ can_reach example_ship (exact 40) "CRUISE" = Some (1 <=? 80).
Proof.
  assert (Hu : usable_fuel example_ship = Some 80) by reflexivity.
  assert (Hm : best_flight_mode example_ship (exact 40) = Some "CRUISE")
    by reflexivity.
  split; [exact Hu|]. split; [exact Hm|].
  exact (proj2 (proj2 (best_flight_mode_is_affordable example_ship (exact 40)
                         80 "CRUISE" Hu Hm))).
Defined.

Lemma priced_contract_profit_witness :
  (∀ d, d ∈ deliver (terms example_contract) → 0 < remaining d →
        is_Some (flat_store 120 (trade_symbol d) "X1"))
  ∧ ∃ explanation,
      evaluate_profitability (flat_store 120) example_contract "X1"
      = (0 <? 1000 + 9000
              - purchase_cost (flat_store 120) "X1"
                  (deliver (terms example_contract)),
         1000 + 9000
         - purchase_cost (flat_store 120) "X1"
             (deliver (terms example_contract)),
         explanation).
Proof.
  assert (Hpriced :
    ∀ d, d ∈ deliver (terms example_contract) → 0 < remaining d →
         is_Some (flat_store 120 (trade_symbol d) "X1"))
    by (intros d _ _; eexists; reflexivity).
  split; [exact Hpriced|].
  exact (priced_contract_profit (flat_store 120) example_contract "X1"
           Hpriced).
Defined.

End Scenarios.

Section RouteScenarios.
Import Trader TraderSpec.
Local Open Scope Z_scope.

Lemma best_routes_are_profitable_witness :
  ∃ routes r,
    find_best_routes example_market_coords "A1" 40 400 [] (Some 200000) 36
      None example_prices = Some routes
    ∧ r ∈ routes
    ∧ (∃ src dst,
         cached example_prices "EXPORT" (route_good r) src
         ∧ cached example_prices "IMPORT" (route_good r) dst
         ∧ route_source r = src.1 ∧ route_destination r = dst.1
         ∧ route_buy_price r = rec_purchase_price src.2
         ∧ route_sell_price r = rec_sell_price dst.2
         ∧ route_trade_volume r = rec_trade_volume src.2
         ∧ ∃ safe_units,
             safe_sell_volume (rec_supply dst.2) (rec_activity dst.2)
               (rec_trade_volume dst.2) 40 = Some safe_units
             ∧ route_net_profit r
               = route_profit_per_unit r * safe_units
                 - route_fuel_cost_credits r - route_deadhead_credits r)
    ∧ route_source r ≠ route_destination r
    ∧ ((route_good r, route_source r, route_destination r) ∉
         ([] : list (string * string * string)))
    ∧ route_profit_per_unit r = route_sell_price r - route_buy_price r
    ∧ 0 < route_profit_per_unit r
    ∧ 0 < route_net_profit r
    ∧ (∀ c, Some 200000 = Some c →
            route_buy_price r * route_trade_volume r ≤ c)
    ∧ ∃ deadhead leg,
        leg_fuel example_market_coords 400 36 None "A1" (route_source r)
          deadhead
        ∧ leg_fuel example_market_coords 400 36 None (route_source r)
            (route_destination r) leg
        ∧ route_deadhead_credits r = deadhead * FUEL_PRICE
        ∧ route_fuel_cost_credits r = leg * 2 * FUEL_PRICE.
Proof.
  destruct (find_best_routes example_market_coords "A1" 40 400 []
              (Some 200000) 36 None example_prices)
    as [[|r routes]|] eqn:Hfind;
    [vm_compute in Hfind; discriminate | | vm_compute in Hfind; discriminate].
  assert (Hr : r ∈ r :: routes) by left.
  exists (r :: routes), r. split; [reflexivity|]. split; [exact Hr|].
  exact (best_routes_are_profitable example_market_coords "A1" 40 400 []
           (Some 200000) 36 None example_prices (r :: routes) r Hfind Hr).
Defined.

Lemma best_routes_are_ranked_witness :
  ∃ routes,
    find_best_routes example_market_coords "K89" 40 400 [] None 36 None
      example_prices = Some routes
    ∧ Sorted ranked routes
    ∧ ∀ r, r ∈ routes
        ↔ ∃ good src dst,
            cached example_prices "EXPORT" good src
            ∧ cached example_prices "IMPORT" good dst
            ∧ score_route example_market_coords "K89" 40 400 [] None 36 None
                good src dst = Some (Some r).
Proof.
  destruct (find_best_routes example_market_coords "K89" 40 400 [] None 36
              None example_prices)
    as [routes|] eqn:Hfind; [|vm_compute in Hfind; discriminate].
  exists routes. split; [reflexivity|].
  exact (best_routes_are_ranked example_market_coords "K89" 40 400 [] None
           36 None example_prices routes Hfind).
Defined.

Lemma claimed_routes_stay_exclusive_witness :
  ∃ sys_state best rest,
    StateSpec.example_systems !! "X1-AB" = Some sys_state
    ∧ StateSpec.exclusive (State.claimed_routes sys_state)
    ∧ find_best_routes example_market_coords "A1" 40 400
        (State.get_excluded_routes StateSpec.example_systems "X1-AB" "S-1"
           ++ [])
        (Some 200000) 36 None example_prices = Some (best :: rest)
    ∧ ∃ sys_state',
        State.claim_route StateSpec.example_systems "X1-AB" "S-1"
          (route_good best) (route_source best) (route_destination best)
          !! "X1-AB" = Some sys_state'
        ∧ StateSpec.exclusive (State.claimed_routes sys_state')
        ∧ (∀ r, ("S-1", r) ∈ State.claimed_routes sys_state'
                ↔ r = StateSpec.route_of best)
        ∧ (∀ other r, other ≠ "S-1" →
             (other, r) ∈ State.claimed_routes sys_state'
             ↔ (other, r) ∈ State.claimed_routes sys_state)
        ∧ (∀ other r, other ≠ "S-1" →
             (other, r) ∈ State.claimed_routes sys_state →
             r ≠ StateSpec.route_of best)
        ∧ (StateSpec.route_of best ∉ ([] : list State.Route)).
Proof.
  destruct (StateSpec.example_systems !! "X1-AB") as [sys_state|] eqn:Hsys;
    [|vm_compute in Hsys; discriminate].
  assert (Hex : StateSpec.exclusive (State.claimed_routes sys_state)).
  { vm_compute in Hsys. injection Hsys as <-.
    split; apply NoDup_singleton. }
  destruct (find_best_routes example_market_coords "A1" 40 400
              (State.get_excluded_routes StateSpec.example_systems "X1-AB"
                 "S-1" ++ [])
              (Some 200000) 36 None example_prices)
    as [[|best rest]|] eqn:Hfind;
    [vm_compute in Hfind; discriminate | | vm_compute in Hfind; discriminate].
  exists sys_state, best, rest.
  split; [reflexivity|]. split; [exact Hex|]. split; [reflexivity|].
  exact (claimed_routes_stay_exclusive example_market_coords "A1"
           40 400 (Some 200000) 36 None example_prices
           StateSpec.example_systems "X1-AB" sys_state "S-1" [] best rest
           Hsys Hex Hfind).
Defined.

End RouteScenarios.
